(** * rSAS functions: storage-selection CDF evaluators

    A shallow embedding of [rsas/_rsas_functions.py]: the dispatcher
    [create_function], the base class [rSASFunctionClass] and the six
    variants ([_kumaraswami_rSAS], [_uniform_rSAS], [_invgauss_rSAS],
    [_stats_rSAS], [_gamma_rSAS], [_lookup_rSAS]).

    Numbers are binary64 values ([PrimFloat.float]), one-dimensional numpy
    arrays are lists, the parameter matrix is a list of rows together with
    its column count, and a raised Python exception is the left summand of
    [result].  The special functions of numpy and scipy are not part of the
    repository; they are the fields of a [Special] record every variant is
    parameterised by. *)

From Stdlib Require Import ZArith Lia List Bool String.
From Stdlib Require Import Floats.
From ExtLib Require Import Structures.Monad Structures.MonadExc Data.Monads.EitherMonad.
Import ListNotations MonadNotation.

Set Warnings "-inexact-float".
Open Scope string_scope.
Open Scope monad_scope.
Open Scope float_scope.

(** ** Binary64 comparisons *)

Module F64.

(** [x > y] and [x >= y] of Python, by the IEEE comparisons. *)
Definition gtb (x y : float) : bool := y <? x.
Definition geb (x y : float) : bool := y <=? x.

End F64.

(** ** Exceptions and results *)

(** The Python exceptions the module can raise, with their message where the
    source gives one. *)
Inductive exn : Type :=
| ValueError (msg : string)
| NotImplementedError (msg : string)
| AttributeError (attr : string)
| IndexError
| TypeError.

(** A call returns a value ([inr]) or raises ([inl]). *)
Definition result : Type -> Type := sum exn.

Definition ok {A} (r : result A) : bool :=
  match r with inr _ => true | inl _ => false end.

(** ** numpy arrays *)

(** A two-dimensional float64 array: [shape1] columns, one list per row. *)
Record ndarray2 : Type := { shape1 : nat; rows : list (list float) }.

(** The array written as a list of equally long rows. *)
Definition matrix (rs : list (list float)) : ndarray2 :=
  {| shape1 := match rs with r :: _ => List.length r | [] => 0%nat end; rows := rs |}.

Definition shape0 (p : ndarray2) : nat := List.length (rows p).

(** [params[:,j]] *)
Definition column (j : nat) (p : ndarray2) : result (list float) :=
  if (j <? shape1 p)%nat then ret (map (fun r => nth j r 0) (rows p))
  else raise IndexError.

(** [params[:,j:]] *)
Definition columns_from (j : nat) (p : ndarray2) : list (list float) :=
  map (skipn j) (rows p).

(** The position a Python integer [i] selects in a sequence of length [n]: a
    negative index counts from the end. *)
Definition position (n : nat) (i : Z) : option nat :=
  let j := if (i <? 0)%Z then (Z.of_nat n + i)%Z else i in
  if ((0 <=? j) && (j <? Z.of_nat n))%Z then Some (Z.to_nat j) else None.

(** [xs[i]] *)
Definition py_index {A} (xs : list A) (i : Z) : result A :=
  match position (List.length xs) i with
  | Some k =>
      match nth_error xs k with
      | Some x => ret x
      | None => raise IndexError
      end
  | None => raise IndexError
  end.

(** [np.where(c, x, y)] at one position; both branches are already evaluated. *)
Definition np_where {A} (c : bool) (x y : A) : A := if c then x else y.

(** Elementwise combination of two equally long vectors of the instance. *)
Fixpoint zipWith {A B C} (f : A -> B -> C) (xs : list A) (ys : list B) : list C :=
  match xs, ys with
  | x :: xs', y :: ys' => f x y :: zipWith f xs' ys'
  | _, _ => []
  end.

(** A list comprehension whose body can raise: the first exception wins. *)
Fixpoint traverse {A B} (f : A -> result B) (xs : list A) : result (list B) :=
  match xs with
  | [] => ret []
  | x :: xs' => r <- f x ;; rs <- traverse f xs' ;; ret (r :: rs)
  end.

(** numpy broadcasting of two one-dimensional operands: equal lengths are
    paired, a length-one operand is repeated, anything else is an error. *)
Definition broadcast {A B} (xs : list A) (ys : list B) : result (list (A * B)) :=
  if (List.length xs =? List.length ys)%nat then ret (combine xs ys)
  else match xs, ys with
       | [x], _ => ret (map (fun y => (x, y)) ys)
       | _, [y] => ret (map (fun x => (x, y)) xs)
       | _, _ => raise (ValueError "operands could not be broadcast together")
       end.

(** ** The numeric libraries *)

(** A frozen scipy.stats distribution is used through its [cdf] only. *)
Definition rv_frozen : Type := float -> float.

(** A distribution class of the catalog: shape arguments, [loc] and [scale]
    give a frozen distribution, or the constructor raises. *)
Definition dist_class : Type := list float -> float -> float -> result rv_frozen.

(** What the module imports from numpy and scipy and does not define. *)
Record Special : Type := {
  np_power : float -> float -> float;        (* x ** y *)
  np_exp : float -> float;
  gamma_function : float -> float;           (* scipy.special.gamma *)
  gammainc : float -> float -> float;
  gammaincinv : float -> float -> float;
  erfc : float -> float;
  scipy_stats : string -> option dist_class  (* getattr(scipy.stats, name) *)
}.

(** [np.sqrt], [np.isfinite] and the constants are IEEE operations. *)
Definition np_sqrt : float -> float := PrimFloat.sqrt.
Definition np_isfinite : float -> bool := PrimFloat.is_finite.
Definition np_inf : float := infinity.
Definition np_nan : float := nan.

(** ** scipy.interpolate.interp1d, linear, [bounds_error=True], [assume_sorted=True] *)

Module scipy_interpolate.

(** The interpolant keeps the breakpoints it was built from. *)
Record interp1d : Type := { x : list float; y : list float }.

(** numpy's order for searching: a nan sorts after every number. *)
Definition np_lt (a b : float) : bool :=
  (a <? b) || (is_nan b && negb (is_nan a)).

(** [np.searchsorted(xs, v)] on a sorted [xs]: how many entries are below [v]. *)
Fixpoint searchsorted (xs : list float) (v : float) : nat :=
  match xs with
  | [] => 0
  | x0 :: xs' => if np_lt x0 v then S (searchsorted xs' v) else 0
  end.

Definition clip (j lo hi : Z) : Z := Z.min (Z.max j lo) hi.

(** [_call_linear] at one query: the value on the segment that
    [searchsorted] selects. *)
Definition _call_linear (f : interp1d) (x_new : float) : result float :=
  let hi := clip (Z.of_nat (searchsorted (x f) x_new)) 1
                 (Z.of_nat (List.length (x f)) - 1) in
  let lo := (hi - 1)%Z in
  x_lo <- py_index (x f) lo ;;
  x_hi <- py_index (x f) hi ;;
  y_lo <- py_index (y f) lo ;;
  y_hi <- py_index (y f) hi ;;
  let slope := (y_hi - y_lo) / (x_hi - x_lo) in
  ret (slope * (x_new - x_lo) + y_lo).

(** Calling the interpolant: any query outside the range of [x] is an
    error, below the range first. *)
Definition call (f : interp1d) (x_new : list float) : result (list float) :=
  x_first <- py_index (x f) 0 ;;
  x_last <- py_index (x f) (-1) ;;
  if existsb (fun v => v <? x_first) x_new then
    raise (ValueError "A value in x_new is below the interpolation range.")
  else if existsb (fun v => x_last <? v) x_new then
    raise (ValueError "A value in x_new is above the interpolation range.")
  else traverse (_call_linear f) x_new.

End scipy_interpolate.

(** ** The variants *)

Module _kumaraswami_rSAS.

Record self : Type := {
  ST_min : list float; ST_max : list float; a : list float; b : list float }.

Definition __init__ (params : ndarray2) : result self :=
  ST_min <- column 0 params ;;
  ST_max <- column 1 params ;;
  a <- column 2 params ;;
  b <- column 3 params ;;
  ret {| ST_min := ST_min; ST_max := ST_max; a := a; b := b |}.

Section Methods.
Variable lib : Special.

(** [1 - (1 - ((ST - ST_min)/(ST_max - ST_min))**a)**b] *)
Definition inside (lo hi a b st : float) : float :=
  1 - np_power lib (1 - np_power lib ((st - lo) / (hi - lo)) a) b.

(** The nested [np.where] at one position. *)
Definition cdf1 (lo hi a b st : float) : float :=
  np_where (F64.geb hi lo)
    (np_where (F64.gtb st lo)
       (np_where (st <? hi) (inside lo hi a b st) 1) 0)
    (np_where (F64.gtb st lo) (inside lo hi a b st) 0).

Definition cdf_all (o : self) (ST : list float) : result (list float) :=
  rs <- broadcast ST (combine (ST_min o) (combine (ST_max o) (combine (a o) (b o)))) ;;
  ret (map (fun '(st, (lo, (hi, (a, b)))) => cdf1 lo hi a b st) rs).

Definition cdf_i (o : self) (ST : list float) (i : Z) : result (list float) :=
  hi <- py_index (ST_max o) i ;;
  lo <- py_index (ST_min o) i ;;
  a <- py_index (a o) i ;;
  b <- py_index (b o) i ;;
  ret (map (cdf1 lo hi a b) ST).
End Methods.

End _kumaraswami_rSAS.

Module _uniform_rSAS.

Record self : Type := {
  ST_min : list float; ST_max : list float; lam : list float }.

Definition __init__ (params : ndarray2) : result self :=
  ST_min <- column 0 params ;;
  ST_max <- column 1 params ;;
  ret {| ST_min := ST_min; ST_max := ST_max;
         lam := zipWith (fun hi lo => 1 / (hi - lo)) ST_max ST_min |}.

(** [lam * (ST - ST_min)] *)
Definition inside (lo lam st : float) : float := lam * (st - lo).

Definition cdf1 (lo hi lam st : float) : float :=
  np_where (st <? hi) (np_where (F64.gtb st lo) (inside lo lam st) 0) 1.

Definition cdf_all (o : self) (ST : list float) : result (list float) :=
  rs <- broadcast ST (combine (ST_min o) (combine (ST_max o) (lam o))) ;;
  ret (map (fun '(st, (lo, (hi, lam))) => cdf1 lo hi lam st) rs).

Definition cdf_i (o : self) (ST : list float) (i : Z) : result (list float) :=
  hi <- py_index (ST_max o) i ;;
  lo <- py_index (ST_min o) i ;;
  lam <- py_index (lam o) i ;;
  ret (map (cdf1 lo hi lam) ST).

Definition invcdf1 (lo lam p : float) : float :=
  np_where (p <? 1) (np_where (F64.gtb p 0) p 0) 1 / lam + lo.

Definition invcdf_i (o : self) (P : list float) (i : Z) : result (list float) :=
  lam <- py_index (lam o) i ;;
  lo <- py_index (ST_min o) i ;;
  ret (map (invcdf1 lo lam) P).

End _uniform_rSAS.

Module _invgauss_rSAS.

Record self : Type := {
  loc : list float; scale : list float; mu : list (list float) }.

Definition __init__ (params : ndarray2) : result self :=
  loc <- column 0 params ;;
  scale <- column 1 params ;;
  ret {| loc := loc; scale := scale; mu := columns_from 2 params |}.

Section Methods.
Variable lib : Special.

Definition cdf1 (x mu : float) : float :=
  (erfc lib ((- x + mu) / (np_sqrt (2 * x) * mu))
   + np_exp lib (2 / mu) * erfc lib ((x + mu) / (np_sqrt (2 * x) * mu))) / 2.

Definition cdf_i (o : self) (ST : list float) (i : Z) : result (list float) :=
  loc <- py_index (loc o) i ;;
  scale <- py_index (scale o) i ;;
  let x := map (fun st => (st - loc) / scale) ST in
  mu <- py_index (mu o) i ;;
  rs <- broadcast x mu ;;
  ret (map (fun '(x, mu) => cdf1 x mu) rs).
End Methods.

End _invgauss_rSAS.

Module _stats_rSAS.

Record self : Type := {
  dist_class_ : dist_class;
  loc : list float; scale : list float;
  shape : option (list (list float));
  dist : list rv_frozen }.

Section Methods.
Variable lib : Special.

Definition __init__ (rSAS_type : string) (params : ndarray2) : result self :=
  cls <- match scipy_stats lib rSAS_type with
         | Some c => ret c
         | None => raise (AttributeError rSAS_type)
         end ;;
  loc <- column 0 params ;;
  scale <- column 1 params ;;
  if (2 <? shape1 params)%nat then
    let shape := columns_from 2 params in
    dist <- traverse (fun '(sh, (loc, scale)) => cls sh loc scale)
                     (combine shape (combine loc scale)) ;;
    ret {| dist_class_ := cls; loc := loc; scale := scale;
           shape := Some shape; dist := dist |}
  else
    dist <- traverse (fun '(loc, scale) => cls [] loc scale) (combine loc scale) ;;
    ret {| dist_class_ := cls; loc := loc; scale := scale;
           shape := None; dist := dist |}.

Definition cdf_i (o : self) (ST : list float) (i : Z) : result (list float) :=
  d <- py_index (dist o) i ;;
  ret (map d ST).
End Methods.

End _stats_rSAS.

Module _gamma_rSAS.

Record self : Type := {
  ST_min : list float; ST_max : list float; scale : list float; a : list float;
  lam : list float; lam_on_gam : list float; rescale : list float }.

Section Methods.
Variable lib : Special.

(** [np.where(np.isfinite(ST_max), 1/gammainc(a, lam*(ST_max-ST_min)), 1.)] *)
Definition rescale1 (lo hi a lam : float) : float :=
  np_where (np_isfinite hi) (1 / gammainc lib a (lam * (hi - lo))) 1.

Definition __init__ (params : ndarray2) : result self :=
  ST_min <- column 0 params ;;
  ST_max <- column 1 params ;;
  scale <- column 2 params ;;
  a <- column 3 params ;;
  let lam := map (fun s => 1 / s) scale in
  let lam_on_gam := zipWith (fun l a => np_power lib l a / gamma_function lib a) lam a in
  let rescale := zipWith (fun hi '(a, (l, lo)) => rescale1 lo hi a l)
                         ST_max (combine a (combine lam ST_min)) in
  ret {| ST_min := ST_min; ST_max := ST_max; scale := scale; a := a;
         lam := lam; lam_on_gam := lam_on_gam; rescale := rescale |}.

(** [gammainc(a, lam*(ST-ST_min))*rescale] *)
Definition inside (lo a lam rescale st : float) : float :=
  gammainc lib a (lam * (st - lo)) * rescale.

Definition cdf1 (lo hi a lam rescale st : float) : float :=
  np_where (F64.gtb st lo) (np_where (st <? hi) (inside lo a lam rescale st) 1) 0.

Definition cdf_all (o : self) (ST : list float) : result (list float) :=
  rs <- broadcast ST (combine (ST_min o) (combine (ST_max o)
                        (combine (a o) (combine (lam o) (rescale o))))) ;;
  ret (map (fun '(st, (lo, (hi, (a, (lam, rescale))))) => cdf1 lo hi a lam rescale st) rs).

Definition cdf_i (o : self) (ST : list float) (i : Z) : result (list float) :=
  lo <- py_index (ST_min o) i ;;
  hi <- py_index (ST_max o) i ;;
  a <- py_index (a o) i ;;
  lam <- py_index (lam o) i ;;
  rescale <- py_index (rescale o) i ;;
  ret (map (cdf1 lo hi a lam rescale) ST).

Definition invcdf1 (lo a lam rescale p : float) : float :=
  np_where (F64.gtb p 0)
    (np_where (p <? 1) (gammaincinv lib a (p / rescale)) np_inf) np_nan / lam + lo.

Definition invcdf_i (o : self) (P : list float) (i : Z) : result (list float) :=
  a <- py_index (a o) i ;;
  rescale <- py_index (rescale o) i ;;
  lam <- py_index (lam o) i ;;
  lo <- py_index (ST_min o) i ;;
  ret (map (invcdf1 lo a lam rescale) P).
End Methods.

End _gamma_rSAS.

Module _lookup_rSAS.

Record self : Type := {
  S_T : list float; Omega : list float; ST_min : float; ST_max : float;
  interp1d : scipy_interpolate.interp1d }.

Definition invalid_table : exn :=
  ValueError "The first and last value of S_T must correspond with probability 0 and 1 respectively".

(** [Omega[0]==0 and Omega[-1]==1]; the second test runs only after the first. *)
Definition endpoints_ok (Omega : list float) : result bool :=
  first <- py_index Omega 0 ;;
  if first =? 0 then last <- py_index Omega (-1) ;; ret (last =? 1)
  else ret false.

Definition __init__ (params : ndarray2) : result self :=
  S_T <- column 0 params ;;
  Omega <- column 1 params ;;
  ST_min <- py_index S_T 0 ;;
  ST_max <- py_index S_T (-1) ;;
  good <- endpoints_ok Omega ;;
  if negb good then raise invalid_table
  else ret {| S_T := S_T; Omega := Omega; ST_min := ST_min; ST_max := ST_max;
              interp1d := {| scipy_interpolate.x := S_T; scipy_interpolate.y := Omega |} |}.

(** The query handed to the interpolant:
    [np.where(ST < ST_max, np.where(ST > ST_min, ST, 0.), 1.)] *)
Definition clamp1 (lo hi st : float) : float :=
  np_where (st <? hi) (np_where (F64.gtb st lo) st 0) 1.

Definition cdf_all (o : self) (ST : list float) : result (list float) :=
  scipy_interpolate.call (interp1d o) (map (clamp1 (ST_min o) (ST_max o)) ST).

Definition cdf_i (o : self) (ST : list float) (i : Z) : result (list float) :=
  scipy_interpolate.call (interp1d o) (map (clamp1 (ST_min o) (ST_max o)) ST).

End _lookup_rSAS.

(** ** The base class and method lookup *)

Module rSASFunctionClass.

Definition __init__ {A} (params : ndarray2) : result A :=
  raise (NotImplementedError "__init__ not implemented in derived rSASFunctionClass").

Definition cdf_all (ST : list float) : result (list float) :=
  raise (NotImplementedError "cdf_all not implemented in derived rSASFunctionClass").

Definition cdf_i (ST : list float) (i : Z) : result (list float) :=
  raise (NotImplementedError "cdf_i not implemented in derived rSASFunctionClass").

End rSASFunctionClass.

(** An object of one of the six derived classes. *)
Inductive rSAS_fun : Type :=
| Kumaraswami (o : _kumaraswami_rSAS.self)
| Uniform (o : _uniform_rSAS.self)
| Invgauss (o : _invgauss_rSAS.self)
| Stats (o : _stats_rSAS.self)
| Gamma (o : _gamma_rSAS.self)
| Lookup (o : _lookup_rSAS.self).

(** The methods a class body defines, bound to the object. *)
Record methods : Type := {
  m_cdf_all : option (list float -> result (list float));
  m_cdf_i : option (list float -> Z -> result (list float));
  m_invcdf_i : option (list float -> Z -> result (list float)) }.

Section Dispatch.
Variable lib : Special.

Definition class_dict (f : rSAS_fun) : methods :=
  match f with
  | Kumaraswami o =>
      {| m_cdf_all := Some (_kumaraswami_rSAS.cdf_all lib o);
         m_cdf_i := Some (_kumaraswami_rSAS.cdf_i lib o);
         m_invcdf_i := None |}
  | Uniform o =>
      {| m_cdf_all := Some (_uniform_rSAS.cdf_all o);
         m_cdf_i := Some (_uniform_rSAS.cdf_i o);
         m_invcdf_i := Some (_uniform_rSAS.invcdf_i o) |}
  | Invgauss o =>
      {| m_cdf_all := None;
         m_cdf_i := Some (_invgauss_rSAS.cdf_i lib o);
         m_invcdf_i := None |}
  | Stats o =>
      {| m_cdf_all := None;
         m_cdf_i := Some (_stats_rSAS.cdf_i o);
         m_invcdf_i := None |}
  | Gamma o =>
      {| m_cdf_all := Some (_gamma_rSAS.cdf_all lib o);
         m_cdf_i := Some (_gamma_rSAS.cdf_i lib o);
         m_invcdf_i := Some (_gamma_rSAS.invcdf_i lib o) |}
  | Lookup o =>
      {| m_cdf_all := Some (_lookup_rSAS.cdf_all o);
         m_cdf_i := Some (_lookup_rSAS.cdf_i o);
         m_invcdf_i := None |}
  end.

(** What [rSASFunctionClass] defines besides [__init__]. *)
Definition base_dict : methods :=
  {| m_cdf_all := Some rSASFunctionClass.cdf_all;
     m_cdf_i := Some rSASFunctionClass.cdf_i;
     m_invcdf_i := None |}.

(** Attribute lookup along the class and then its base. *)
Definition getattr {M} (sel : methods -> option M) (name : string) (f : rSAS_fun)
  : result M :=
  match sel (class_dict f) with
  | Some m => ret m
  | None =>
      match sel base_dict with
      | Some m => ret m
      | None => raise (AttributeError name)
      end
  end.

(** [f.cdf_all(ST)], [f.cdf_i(ST, i)] and [f.invcdf_i(P, i)]. *)
Definition cdf_all (f : rSAS_fun) (ST : list float) : result (list float) :=
  m <- getattr m_cdf_all "cdf_all" f ;; m ST.

Definition cdf_i (f : rSAS_fun) (ST : list float) (i : Z) : result (list float) :=
  m <- getattr m_cdf_i "cdf_i" f ;; m ST i.

Definition invcdf_i (f : rSAS_fun) (P : list float) (i : Z) : result (list float) :=
  m <- getattr m_invcdf_i "invcdf_i" f ;; m P i.

(** ** The dispatcher *)

Definition function_dict : list (string * (ndarray2 -> result rSAS_fun)) :=
  [ ("gamma", fun p => o <- _gamma_rSAS.__init__ lib p ;; ret (Gamma o));
    ("uniform", fun p => o <- _uniform_rSAS.__init__ p ;; ret (Uniform o));
    ("kumaraswami", fun p => o <- _kumaraswami_rSAS.__init__ p ;; ret (Kumaraswami o));
    ("invgauss", fun p => o <- _invgauss_rSAS.__init__ p ;; ret (Invgauss o));
    ("lookuptable", fun p => o <- _lookup_rSAS.__init__ p ;; ret (Lookup o)) ].

Fixpoint dict_get {V} (k : string) (d : list (string * V)) : option V :=
  match d with
  | [] => None
  | (k', v) :: d' => if String.eqb k k' then Some v else dict_get k d'
  end.

Definition hasattr_stats (name : string) : bool :=
  match scipy_stats lib name with Some _ => true | None => false end.

Definition create_function (rSAS_type : string) (params : ndarray2) : result rSAS_fun :=
  match dict_get rSAS_type function_dict with
  | Some ctor => ctor params
  | None =>
      if hasattr_stats rSAS_type then
        o <- _stats_rSAS.__init__ lib rSAS_type params ;; ret (Stats o)
      else raise (ValueError "No such rSAS function type")
  end.

End Dispatch.

(** ** A tabulated numeric library

    The special functions on the arguments where their value is exactly
    representable and fixed by their definition; anywhere else the table
    has no entry and answers nan.  It lets the embedding run on concrete
    parameter rows. *)

Module Table.

Definition power (x y : float) : float :=
  if y =? 0 then 1 else if x =? 1 then 1 else if y =? 1 then x else nan.

Definition exp (x : float) : float :=
  if x =? 0 then 1 else if x =? infinity then infinity
  else if x =? neg_infinity then 0 else nan.

Definition gamma (x : float) : float :=
  if x =? 1 then 1 else if x =? 2 then 1 else if x =? 3 then 2 else nan.

(** [gammainc(a, 0) = 0] and [gammainc(a, inf) = 1] for a positive [a]. *)
Definition gammainc (a x : float) : float :=
  if 0 <? a then (if x =? 0 then 0 else if x =? infinity then 1 else nan) else nan.

Definition gammaincinv (a p : float) : float :=
  if 0 <? a then (if p =? 0 then 0 else if p =? 1 then infinity else nan) else nan.

Definition erfc (x : float) : float :=
  if x =? 0 then 1 else if x =? infinity then 0
  else if x =? neg_infinity then 2 else nan.

(** The exponential distribution of the catalog, through [exp]. *)
Definition expon : dist_class := fun shape loc scale =>
  match shape with
  | [] => inr (fun x => let u := (x - loc) / scale in
                        if u <=? 0 then 0 else 1 - exp (- u))
  | _ :: _ => inl TypeError
  end.

Definition stats (name : string) : option dist_class :=
  if String.eqb name "expon" then Some expon else None.

Definition lib : Special :=
  Build_Special power exp gamma gammainc gammaincinv erfc stats.

End Table.


(** ** The variants that clamp outside their range *)

(** [ST_min] and [ST_max] of the uniform, gamma and kumaraswami objects. *)
Definition bounds (f : rSAS_fun) : option (list float * list float) :=
  match f with
  | Uniform o => Some (_uniform_rSAS.ST_min o, _uniform_rSAS.ST_max o)
  | Gamma o => Some (_gamma_rSAS.ST_min o, _gamma_rSAS.ST_max o)
  | Kumaraswami o => Some (_kumaraswami_rSAS.ST_min o, _kumaraswami_rSAS.ST_max o)
  | Invgauss _ | Stats _ | Lookup _ => None
  end.

(** The formula these variants evaluate between the bounds, at row [i]. *)
Definition inside_i (lib : Special) (f : rSAS_fun) (i : Z) : result (float -> float) :=
  match f with
  | Uniform o =>
      lo <- py_index (_uniform_rSAS.ST_min o) i ;;
      lam <- py_index (_uniform_rSAS.lam o) i ;;
      ret (_uniform_rSAS.inside lo lam)
  | Gamma o =>
      lo <- py_index (_gamma_rSAS.ST_min o) i ;;
      a <- py_index (_gamma_rSAS.a o) i ;;
      lam <- py_index (_gamma_rSAS.lam o) i ;;
      rescale <- py_index (_gamma_rSAS.rescale o) i ;;
      ret (_gamma_rSAS.inside lib lo a lam rescale)
  | Kumaraswami o =>
      lo <- py_index (_kumaraswami_rSAS.ST_min o) i ;;
      hi <- py_index (_kumaraswami_rSAS.ST_max o) i ;;
      a <- py_index (_kumaraswami_rSAS.a o) i ;;
      b <- py_index (_kumaraswami_rSAS.b o) i ;;
      ret (_kumaraswami_rSAS.inside lib lo hi a b)
  | Invgauss _ | Stats _ | Lookup _ => raise TypeError
  end.

(** [ST_min < st < ST_max] *)
Definition strictly_inside (lo hi st : float) : bool := (lo <? st) && (st <? hi).

(** What a clamping variant answers at [st], given its in-range formula. *)
Definition clamped (lo hi : float) (F : float -> float) (st y : float) : Prop :=
  ((st <=? lo) = true -> y = 0) /\
  (strictly_inside lo hi st = true -> y = F st) /\
  ((hi <=? st) = true -> y = 1).

(** ** Example objects *)

(** [create_function("uniform", [[0, 10]])] *)
Definition uniform_0_10 : _uniform_rSAS.self :=
  {| _uniform_rSAS.ST_min := [0]; _uniform_rSAS.ST_max := [10];
     _uniform_rSAS.lam := [0.1] |}.

(** [create_function("kumaraswami", [[1, 0, 1, 1]])]: [ST_max < ST_min]. *)
Definition kumaraswami_inverted : _kumaraswami_rSAS.self :=
  {| _kumaraswami_rSAS.ST_min := [1]; _kumaraswami_rSAS.ST_max := [0];
     _kumaraswami_rSAS.a := [1]; _kumaraswami_rSAS.b := [1] |}.

(** [create_function("invgauss", [[0, 1, 1]])] *)
Definition invgauss_unit : _invgauss_rSAS.self :=
  {| _invgauss_rSAS.loc := [0]; _invgauss_rSAS.scale := [1];
     _invgauss_rSAS.mu := [[1]] |}.

(** [create_function("gamma", [[0, 10, 2, 1], [0, inf, 2, 1]])] over [Table.lib]. *)
Definition gamma_two_rows : _gamma_rSAS.self :=
  {| _gamma_rSAS.ST_min := [0; 0]; _gamma_rSAS.ST_max := [10; infinity];
     _gamma_rSAS.scale := [2; 2]; _gamma_rSAS.a := [1; 1];
     _gamma_rSAS.lam := [0.5; 0.5]; _gamma_rSAS.lam_on_gam := [0.5; 0.5];
     _gamma_rSAS.rescale := [nan; 1] |}.

(** [create_function("lookuptable", [[-1, 0], [1, 1]])] *)
Definition lookup_from_minus_one : _lookup_rSAS.self :=
  {| _lookup_rSAS.S_T := [-1; 1]; _lookup_rSAS.Omega := [0; 1];
     _lookup_rSAS.ST_min := -1; _lookup_rSAS.ST_max := 1;
     _lookup_rSAS.interp1d :=
       {| scipy_interpolate.x := [-1; 1]; scipy_interpolate.y := [0; 1] |} |}.

(** [create_function("lookuptable", [[0, 0], [1, 0.5], [2, 1]])] *)
Definition lookup_three_points : _lookup_rSAS.self :=
  {| _lookup_rSAS.S_T := [0; 1; 2]; _lookup_rSAS.Omega := [0; 0.5; 1];
     _lookup_rSAS.ST_min := 0; _lookup_rSAS.ST_max := 2;
     _lookup_rSAS.interp1d :=
       {| scipy_interpolate.x := [0; 1; 2]; scipy_interpolate.y := [0; 0.5; 1] |} |}.

(** The law of [x ** 1] the runs below rely on. *)
Definition power_one (lib : Special) : Prop := forall x, np_power lib x 1 = x.

(** A nan argument gives a nan. *)
Definition erfc_nan (lib : Special) : Prop := erfc lib nan = nan.

(** ** Classes, tags and the vectors of an object *)

(** The keys of [function_dict]. *)
Definition builtin_tags : list string :=
  ["gamma"; "uniform"; "kumaraswami"; "invgauss"; "lookuptable"].

(** The key under which [function_dict] holds the class of an object; the
    catalog-backed class is not in the dictionary. *)
Definition builtin_tag (f : rSAS_fun) : option string :=
  match f with
  | Gamma _ => Some "gamma"
  | Uniform _ => Some "uniform"
  | Kumaraswami _ => Some "kumaraswami"
  | Invgauss _ => Some "invgauss"
  | Lookup _ => Some "lookuptable"
  | Stats _ => None
  end.

(** The lengths of the per-timestep sequences an object holds. *)
Definition vector_lengths (f : rSAS_fun) : list nat :=
  match f with
  | Kumaraswami o =>
      [List.length (_kumaraswami_rSAS.ST_min o); List.length (_kumaraswami_rSAS.ST_max o);
       List.length (_kumaraswami_rSAS.a o); List.length (_kumaraswami_rSAS.b o)]
  | Uniform o =>
      [List.length (_uniform_rSAS.ST_min o); List.length (_uniform_rSAS.ST_max o);
       List.length (_uniform_rSAS.lam o)]
  | Invgauss o =>
      [List.length (_invgauss_rSAS.loc o); List.length (_invgauss_rSAS.scale o);
       List.length (_invgauss_rSAS.mu o)]
  | Stats o =>
      [List.length (_stats_rSAS.loc o); List.length (_stats_rSAS.scale o);
       List.length (_stats_rSAS.dist o)]
  | Gamma o =>
      [List.length (_gamma_rSAS.ST_min o); List.length (_gamma_rSAS.ST_max o);
       List.length (_gamma_rSAS.scale o); List.length (_gamma_rSAS.a o);
       List.length (_gamma_rSAS.lam o); List.length (_gamma_rSAS.lam_on_gam o);
       List.length (_gamma_rSAS.rescale o)]
  | Lookup o =>
      [List.length (_lookup_rSAS.S_T o); List.length (_lookup_rSAS.Omega o)]
  end.

(** The number of columns a built-in constructor reads by index. *)
Definition columns_read (tag : string) : option nat :=
  if String.eqb tag "uniform" then Some 2%nat
  else if String.eqb tag "kumaraswami" then Some 4%nat
  else if String.eqb tag "gamma" then Some 4%nat
  else if String.eqb tag "invgauss" then Some 2%nat
  else if String.eqb tag "lookuptable" then Some 2%nat
  else None.

(** ** Rows on which the in-range formula keeps the order *)

(** A function of the library that is non-decreasing from [0, 1] into
    [0, 1], as [x ** a] is for a non-negative exponent. *)
Definition non_decreasing_on_unit (p : float -> float) : Prop :=
  forall x y, (0 <=? x) = true -> (x <=? y) = true -> (y <=? 1) = true ->
    (0 <=? p x) = true /\ (p x <=? p y) = true /\ (p y <=? 1) = true.

(** A function of the library that is non-negative and non-decreasing on the
    non-negative numbers, infinity included, as [gammainc(a, .)] is. *)
Definition non_decreasing_from_zero (g : float -> float) : Prop :=
  forall x y, (0 <=? x) = true -> (x <=? y) = true ->
    (0 <=? g x) = true /\ (g x <=? g y) = true.

(** What is asked of row [i] besides [ST_min[i] < ST_max[i]].  Every condition
    is on the parameters and derived vectors of the row or on the library,
    none on a queried value:
    - uniform: the ramp at [ST_max] itself, [lam * (ST_max - ST_min)], is at
      most 1 (it is not when the rate [1/(ST_max - ST_min)] overflows);
    - gamma: the rate [lam] is positive and finite,
      [gammainc(a, .)] is non-decreasing, and the rescaled value at [ST_max],
      [gammainc(a, lam*(ST_max - ST_min)) * rescale], is at most 1;
    - kumaraswami: [ST_max - ST_min] is finite and [x ** a], [x ** b] are
      non-decreasing on the unit interval. *)
Definition regular_row (lib : Special) (f : rSAS_fun) (i : Z) : Prop :=
  match f with
  | Uniform o =>
      exists lo hi lam,
        py_index (_uniform_rSAS.ST_min o) i = inr lo /\
        py_index (_uniform_rSAS.ST_max o) i = inr hi /\
        py_index (_uniform_rSAS.lam o) i = inr lam /\
        (lam * (hi - lo) <=? 1) = true
  | Gamma o =>
      exists lo hi a lam rescale,
        py_index (_gamma_rSAS.ST_min o) i = inr lo /\
        py_index (_gamma_rSAS.ST_max o) i = inr hi /\
        py_index (_gamma_rSAS.a o) i = inr a /\
        py_index (_gamma_rSAS.lam o) i = inr lam /\
        py_index (_gamma_rSAS.rescale o) i = inr rescale /\
        is_finite lam = true /\ (0 <? lam) = true /\
        non_decreasing_from_zero (gammainc lib a) /\
        (gammainc lib a (lam * (hi - lo)) * rescale <=? 1) = true
  | Kumaraswami o =>
      exists lo hi a b,
        py_index (_kumaraswami_rSAS.ST_min o) i = inr lo /\
        py_index (_kumaraswami_rSAS.ST_max o) i = inr hi /\
        py_index (_kumaraswami_rSAS.a o) i = inr a /\
        py_index (_kumaraswami_rSAS.b o) i = inr b /\
        is_finite (hi - lo) = true /\
        non_decreasing_on_unit (fun x => np_power lib x a) /\
        non_decreasing_on_unit (fun x => np_power lib x b)
  | Invgauss _ | Stats _ | Lookup _ => False
  end.

(** ** A step-function stand-in for [gammainc]

    [gammainc(a, .)] replaced by the step from 0 at 0 to 1 at every positive
    argument: it has the order properties of the incomplete gamma function
    (non-negative, non-decreasing, at most 1) and none of its values in
    between.  The other functions are those of the table.  It lets a
    statement that assumes these order properties run on a concrete row. *)

Module Step.

Definition gammainc (a x : float) : float :=
  if 0 <? x then 1 else if x =? 0 then 0 else nan.

Definition lib : Special :=
  Build_Special Table.power Table.exp Table.gamma gammainc Table.gammaincinv
    Table.erfc Table.stats.

End Step.

(** [create_function("kumaraswami", [[0, 10, 1, 1]])] *)
Definition kumaraswami_0_10 : _kumaraswami_rSAS.self :=
  {| _kumaraswami_rSAS.ST_min := [0]; _kumaraswami_rSAS.ST_max := [10];
     _kumaraswami_rSAS.a := [1]; _kumaraswami_rSAS.b := [1] |}.

(** [create_function("gamma", [[0, 10, 2, 1]])] over [Step.lib]. *)
Definition gamma_step_0_10 : _gamma_rSAS.self :=
  {| _gamma_rSAS.ST_min := [0]; _gamma_rSAS.ST_max := [10];
     _gamma_rSAS.scale := [2]; _gamma_rSAS.a := [1];
     _gamma_rSAS.lam := [0.5]; _gamma_rSAS.lam_on_gam := [0.5];
     _gamma_rSAS.rescale := [1] |}.

(** [create_function("gamma", [[5, 5, 2, 1]])] over [Table.lib]:
    [ST_max = ST_min]. *)
Definition gamma_point_range : _gamma_rSAS.self :=
  {| _gamma_rSAS.ST_min := [5]; _gamma_rSAS.ST_max := [5];
     _gamma_rSAS.scale := [2]; _gamma_rSAS.a := [1];
     _gamma_rSAS.lam := [0.5]; _gamma_rSAS.lam_on_gam := [0.5];
     _gamma_rSAS.rescale := [infinity] |}.

(** [create_function("gamma", [[10, 0, 2, 1]])] over [Table.lib]:
    [ST_max < ST_min]. *)
Definition gamma_inverted : _gamma_rSAS.self :=
  {| _gamma_rSAS.ST_min := [10]; _gamma_rSAS.ST_max := [0];
     _gamma_rSAS.scale := [2]; _gamma_rSAS.a := [1];
     _gamma_rSAS.lam := [0.5]; _gamma_rSAS.lam_on_gam := [0.5];
     _gamma_rSAS.rescale := [nan] |}.

(** ** Rounding to a binary format

    [SpecFloat] rounds a result in two steps: it shifts the mantissa to the
    exponent of the format, keeping a round bit and a sticky bit, and then
    rounds to nearest, ties to even.  The definitions below name the
    quantities of these two steps, so that a sum, a product and a quotient
    can each be read as one rounding of an exact value. *)

Module Rounding.

Local Open Scope Z_scope.

(** The integer part of [N/D], doubled, with a sticky last bit. *)
Definition sc (N D : Z) : Z := 2 * (N / D) + (if N mod D =? 0 then 0 else 1).

(** Round to nearest, ties to even, of a quantity given in quarters with a
    sticky last bit. *)
Definition rne (u : Z) : Z :=
  if u mod 4 <? 2 then u / 4
  else if u mod 4 =? 2 then (if Z.even (u / 4) then u / 4 else u / 4 + 1)
  else u / 4 + 1.

(** A shift record read as a number of quarters. *)
Definition code (r : shr_record) : Z :=
  4 * shr_m r + (if shr_r r then 2 else 0) + (if shr_s r then 1 else 0).

(** A mantissa and the location of the rest, in quarters. *)
Definition lcode (m : Z) (l : location) : Z :=
  4 * m + match l with
          | loc_Exact => 0
          | loc_Inexact Lt => 1
          | loc_Inexact Eq => 2
          | loc_Inexact Gt => 3
          end.

(** Zeros and finite numbers. *)
Definition is_fin (x : spec_float) : bool :=
  match x with
  | S754_zero _ | S754_finite _ _ _ => true
  | _ => false
  end.

Section Format.
Variables prec emax : Z.

(** The end of [binary_round_aux]: the mantissa that rounding produced is
    shifted once more if it has one digit too many, and the exponent is
    checked against the largest one. *)
Definition finish (s : bool) (q e : Z) : spec_float :=
  let '(mrs, e') := shr_fexp prec emax q e loc_Exact in
  match shr_m mrs with
  | Z0 => S754_zero s
  | Zpos m => if e' <=? emax - prec then S754_finite s m e' else S754_infinity s
  | Zneg _ => S754_nan
  end.

Definition overflow_or (s : bool) (m : positive) (e : Z) : spec_float :=
  if e <=? emax - prec then S754_finite s m e else S754_infinity s.

(** A rounded mantissa at its exponent. *)
Definition rounded (q c : Z) : Prop :=
  SpecFloat.emin prec emax <= c /\ 0 <= q <= 2 ^ prec /\
  (SpecFloat.emin prec emax < c -> 2 ^ (prec - 1) <= q).

(** The exponent at which [(N/D) * 2^E] is rounded, and the result. *)
Definition cexp (N D E : Z) : Z := SpecFloat.fexp prec emax (Zdigits2 (N / D) + E).

Definition round_ratio (s : bool) (N D E : Z) : spec_float :=
  let c := cexp N D E in
  finish s (rne (sc (2 * N) (D * 2 ^ (c - E)))) c.

(** The value of a finite number, in units of [2^emin]. *)
Definition Zv (x : spec_float) : Z :=
  match x with
  | S754_finite s m e => cond_Zopp s (Zpos m * 2 ^ (e - SpecFloat.emin prec emax))
  | _ => 0
  end.

End Format.

End Rounding.

(** ** Facts on binary64 comparisons *)

Module F64Facts.

(** Comparison results unfolded to the integer comparisons that decide them. *)
Ltac sf_order :=
  repeat match goal with
  | |- context [Z.compare ?a ?b] => destruct (Z.compare_spec a b); subst
  | H : context [Z.compare ?a ?b] |- _ => destruct (Z.compare_spec a b); subst
  | |- context [Pos.compare_cont Eq ?a ?b] =>
      change (Pos.compare_cont Eq a b) with (Pos.compare a b)
  | H : context [Pos.compare_cont Eq ?a ?b] |- _ =>
      change (Pos.compare_cont Eq a b) with (Pos.compare a b) in H
  | |- context [Pos.compare ?a ?b] => destruct (Pos.compare_spec a b); subst
  | H : context [Pos.compare ?a ?b] |- _ => destruct (Pos.compare_spec a b); subst
  end; simpl in *; try congruence; try lia.

Ltac sf_cases3 x y z :=
  unfold SFltb, SFleb, SFeqb, SFcompare;
  destruct x as [[]|[]| |[] ? ?], y as [[]|[]| |[] ? ?], z as [[]|[]| |[] ? ?];
  simpl; try congruence; sf_order.

Ltac sf_cases2 x y :=
  unfold SFltb, SFleb, SFeqb, SFcompare;
  destruct x as [[]|[]| |[] ? ?], y as [[]|[]| |[] ? ?];
  simpl; try congruence; sf_order.

Lemma SFlt_le_trans x y z : SFltb x y = true -> SFleb y z = true -> SFltb x z = true.
Proof. sf_cases3 x y z. Qed.

Lemma SFle_lt_trans x y z : SFleb x y = true -> SFltb y z = true -> SFltb x z = true.
Proof. sf_cases3 x y z. Qed.

Lemma SFle_trans x y z : SFleb x y = true -> SFleb y z = true -> SFleb x z = true.
Proof. sf_cases3 x y z. Qed.

Lemma SFlt_le x y : SFltb x y = true -> SFleb x y = true.
Proof. sf_cases2 x y. Qed.

Lemma SFle_not_gt x y : SFleb x y = true -> SFltb y x = false.
Proof. sf_cases2 x y. Qed.

Lemma SFlt_not_ge x y : SFltb x y = true -> SFleb y x = false.
Proof. sf_cases2 x y. Qed.

Lemma SFnot_lt_ge x y : SFltb x y = false -> SFleb x y = true -> SFleb y x = true.
Proof. sf_cases2 x y. Qed.

Lemma SFle_total x y : SFleb x x = true -> SFleb y y = true ->
  SFltb x y = true \/ SFleb y x = true.
Proof. sf_cases2 x y; auto. Qed.

Lemma lt_le_trans x y z : (x <? y) = true -> (y <=? z) = true -> (x <? z) = true.
Proof. rewrite !ltb_spec, leb_spec. apply SFlt_le_trans. Qed.

Lemma le_lt_trans x y z : (x <=? y) = true -> (y <? z) = true -> (x <? z) = true.
Proof. rewrite !ltb_spec, leb_spec. apply SFle_lt_trans. Qed.

Lemma le_trans x y z : (x <=? y) = true -> (y <=? z) = true -> (x <=? z) = true.
Proof. rewrite !leb_spec. apply SFle_trans. Qed.

Lemma lt_le x y : (x <? y) = true -> (x <=? y) = true.
Proof. rewrite ltb_spec, leb_spec. apply SFlt_le. Qed.

Lemma le_not_gt x y : (x <=? y) = true -> (y <? x) = false.
Proof. rewrite ltb_spec, leb_spec. apply SFle_not_gt. Qed.

Lemma lt_not_ge x y : (x <? y) = true -> (y <=? x) = false.
Proof. rewrite ltb_spec, leb_spec. apply SFlt_not_ge. Qed.

Lemma SFcompare_refl x : x <> S754_nan -> SFcompare x x = Some Eq.
Proof.
  destruct x as [[]|[]| |[] m e]; simpl; try congruence; intros _.
  all: rewrite Z.compare_refl; change (Pos.compare_cont Eq m m) with (Pos.compare m m);
    rewrite Pos.compare_refl; reflexivity.
Qed.

Lemma lt_irrefl x : (x <? x) = false.
Proof.
  rewrite ltb_spec. unfold SFltb.
  destruct (Prim2SF x) eqn:E; try reflexivity; rewrite SFcompare_refl; congruence.
Qed.

(** The operands of a successful comparison are not nan. *)
Lemma le_refl_l x y : (x <=? y) = true -> (x <=? x) = true.
Proof.
  rewrite !leb_spec. unfold SFleb at 2.
  destruct (Prim2SF x) eqn:E; try (rewrite SFcompare_refl; congruence).
  discriminate.
Qed.

Lemma le_refl_r x y : (x <=? y) = true -> (y <=? y) = true.
Proof.
  rewrite !leb_spec. unfold SFleb at 2.
  destruct (Prim2SF y) eqn:E; try (rewrite SFcompare_refl; congruence).
  destruct (Prim2SF x) as [[]|[]| |[] ? ?]; discriminate.
Qed.

(** Two comparable values are ordered one way or the other. *)
Lemma lt_or_ge x y : (x <=? x) = true -> (y <=? y) = true ->
  (x <? y) = true \/ (y <=? x) = true.
Proof. rewrite ltb_spec, !leb_spec. apply SFle_total. Qed.

(** *** Special values in divisions and sums *)

Lemma Prim2SF_nan : Prim2SF nan = S754_nan.
Proof. vm_compute. reflexivity. Qed.

Lemma Prim2SF_zero : Prim2SF 0 = S754_zero false.
Proof. vm_compute. reflexivity. Qed.

Lemma Prim2SF_one : Prim2SF 1 = S754_finite false 4503599627370496 (-52).
Proof. vm_compute. reflexivity. Qed.

Lemma Prim2SF_infinity : Prim2SF infinity = S754_infinity false.
Proof. vm_compute. reflexivity. Qed.

Lemma Prim2SF_neg_infinity : Prim2SF neg_infinity = S754_infinity true.
Proof. vm_compute. reflexivity. Qed.

Lemma nan_div_plus l lo : nan / l + lo = nan.
Proof.
  apply Prim2SF_inj. rewrite add_spec, div_spec, Prim2SF_nan. reflexivity.
Qed.

Lemma SF_positive l :
  (0 <? l) = true ->
  (exists m e, Prim2SF l = S754_finite false m e) \/ Prim2SF l = S754_infinity false.
Proof.
  rewrite ltb_spec, Prim2SF_zero.
  destruct (Prim2SF l) as [[]|[]| |[] m e]; try discriminate; eauto.
Qed.

Lemma SF_below_infinity x :
  (x <? infinity) = true -> Prim2SF x <> S754_nan /\ Prim2SF x <> S754_infinity false.
Proof.
  rewrite ltb_spec, Prim2SF_infinity.
  destruct (Prim2SF x) as [[]|[]| |[] m e]; try discriminate; split; congruence.
Qed.

Lemma SF_above_neg_infinity x :
  (neg_infinity <? x) = true -> Prim2SF x <> S754_nan /\ Prim2SF x <> S754_infinity true.
Proof.
  rewrite ltb_spec, Prim2SF_neg_infinity.
  destruct (Prim2SF x) as [[]|[]| |[] m e]; try discriminate; split; congruence.
Qed.

(** [inf / l + lo] for a positive finite [l] and a [lo] above [-inf]. *)
Lemma inf_div_plus l lo :
  (0 <? l) = true -> (l <? infinity) = true -> (neg_infinity <? lo) = true ->
  infinity / l + lo = infinity.
Proof.
  intros P Fl Flo. apply Prim2SF_inj. rewrite add_spec, div_spec, Prim2SF_infinity.
  apply SF_below_infinity in Fl. apply SF_above_neg_infinity in Flo.
  destruct (SF_positive l P) as [(m & e & ->)|E]; [|destruct Fl; congruence].
  destruct (Prim2SF lo) as [[]|[]| |[] ? ?]; try reflexivity; destruct Flo; congruence.
Qed.

(** [0 / l + lo] for a positive [l] and a finite [lo]. *)
Lemma zero_div_plus l lo :
  (0 <? l) = true -> (neg_infinity <? lo) = true -> (lo <? infinity) = true ->
  (0 / l + lo =? lo) = true.
Proof.
  intros P Flo Fhi. rewrite eqb_spec, add_spec, div_spec, Prim2SF_zero.
  apply SF_below_infinity in Fhi. apply SF_above_neg_infinity in Flo.
  assert (D : SF64div (S754_zero false) (Prim2SF l) = S754_zero false).
  { destruct (SF_positive l P) as [(m & e & ->)| ->]; reflexivity. }
  rewrite D.
  destruct (Prim2SF lo) as [[]|[]| |s m e] eqn:E; try reflexivity;
    try (destruct Flo; congruence); try (destruct Fhi; congruence).
  unfold SF64add, SFadd, SFeqb. rewrite SFcompare_refl; congruence.
Qed.

Lemma SFeqb_finite x s m e :
  SFeqb x (S754_finite s m e) = true -> x = S754_finite s m e.
Proof.
  unfold SFeqb, SFcompare.
  destruct x as [[]|[]| |[] m' e'], s; try discriminate.
  all: destruct (Z.compare_spec e' e); try discriminate; subst.
  all: change (Pos.compare_cont Eq m' m) with (Pos.compare m' m).
  all: destruct (Pos.compare_spec m' m); try discriminate; subst; reflexivity.
Qed.

Lemma eqb_one x : (x =? 1) = true -> x = 1.
Proof.
  rewrite eqb_spec, Prim2SF_one. intros H. apply Prim2SF_inj. rewrite Prim2SF_one.
  now apply SFeqb_finite.
Qed.

(** A value equal to one strictly between the infinities is finite. *)
Lemma eqb_finite y lo :
  (neg_infinity <? lo) = true -> (lo <? infinity) = true -> (y =? lo) = true ->
  is_finite y = true.
Proof.
  intros A B E. unfold is_finite, is_nan, is_infinity.
  rewrite !eqb_spec, abs_spec, Prim2SF_infinity.
  rewrite eqb_spec in E. apply SF_above_neg_infinity in A. apply SF_below_infinity in B.
  assert (R : SFeqb (Prim2SF y) (Prim2SF y) = true).
  { unfold SFeqb. rewrite SFcompare_refl; [reflexivity|].
    intros N. rewrite N in E. discriminate. }
  rewrite R.
  destruct (Prim2SF lo) as [[]|[]| |sl ml el]; try (destruct A, B; congruence);
    destruct (Prim2SF y) as [[]|[]| |[] m e]; try discriminate E; reflexivity.
Qed.

End F64Facts.

Import F64Facts.

(** ** Concrete runs *)

Example uniform_0_10_created :
  create_function Table.lib "uniform" (matrix [[0; 10]]) = inr (Uniform uniform_0_10).
Proof. reflexivity. Qed.

Example kumaraswami_inverted_created :
  create_function Table.lib "kumaraswami" (matrix [[1; 0; 1; 1]])
  = inr (Kumaraswami kumaraswami_inverted).
Proof. reflexivity. Qed.

Example invgauss_unit_created :
  create_function Table.lib "invgauss" (matrix [[0; 1; 1]]) = inr (Invgauss invgauss_unit).
Proof. reflexivity. Qed.

Example gamma_two_rows_created :
  create_function Table.lib "gamma" (matrix [[0; 10; 2; 1]; [0; infinity; 2; 1]])
  = inr (Gamma gamma_two_rows).
Proof. reflexivity. Qed.

Example lookup_from_minus_one_created :
  create_function Table.lib "lookuptable" (matrix [[-1; 0]; [1; 1]])
  = inr (Lookup lookup_from_minus_one).
Proof. reflexivity. Qed.

Example lookup_three_points_created :
  create_function Table.lib "lookuptable" (matrix [[0; 0]; [1; 0.5]; [2; 1]])
  = inr (Lookup lookup_three_points).
Proof. reflexivity. Qed.

(** The hand-picked uniform example: 5 gives 0.5, -1 gives 0, 10 gives 1. *)
Example uniform_ramp : cdf_i Table.lib (Uniform uniform_0_10) [5; -1; 10] 0 = inr [0.5; 0; 1].
Proof. reflexivity. Qed.

Example unknown_type :
  create_function Table.lib "nonexistent_dist" (matrix [[0; 10]])
  = inl (ValueError "No such rSAS function type").
Proof. reflexivity. Qed.

(** A tag that is not built in is looked up in the catalog. *)
Example catalog_expon :
  (f <- create_function Table.lib "expon" (matrix [[0; 1]]) ;;
   cdf_i Table.lib f [-1; 0; infinity] 0)
  = inr [0; 0; 1].
Proof. reflexivity. Qed.

Example lookup_three_points_runs :
  cdf_i Table.lib (Lookup lookup_three_points) [0.5; 1.5; 1] 7 = inr [0.25; 0.75; 0.5].
Proof. reflexivity. Qed.

(** Above its last breakpoint the lookup table answers the value at abscissa 1. *)
Example lookup_three_points_above :
  cdf_i Table.lib (Lookup lookup_three_points) [1.5; 3] 0 = inr [0.75; 0.5].
Proof. reflexivity. Qed.

(** A lookup table that starts above 0 raises on a query below its first
    breakpoint. *)
Example lookup_from_one_raises :
  (f <- create_function Table.lib "lookuptable" (matrix [[1; 0]; [2; 1]]) ;;
   cdf_i Table.lib f [0.5] 0)
  = inl (ValueError "A value in x_new is below the interpolation range.").
Proof. reflexivity. Qed.

(** The uniform round trip in binary64 on the row [(1e16, 1e16 + 2)]: the
    inverse of 0.3 rounds to [ST_min], whose CDF is 0. *)
Example uniform_round_trip_cancels :
  (f <- create_function Table.lib "uniform" (matrix [[1e16; 1e16 + 2]]) ;;
   st <- invcdf_i Table.lib f [0.3] 0 ;;
   p <- cdf_i Table.lib f st 0 ;;
   ret (st, p))
  = inr ([1e16], [0]).
Proof. reflexivity. Qed.

(** A uniform row whose rate overflows: the ramp leaves [0, 1]. *)
Example uniform_rate_overflow :
  (f <- create_function Table.lib "uniform" (matrix [[0; 0x1p-1030]]) ;;
   cdf_i Table.lib f [0x1p-1031; 0x1p-1030] 0)
  = inr [infinity; 1].
Proof. reflexivity. Qed.

(** ** Sequences and indexing *)

Lemma py_index_inr {A} (xs : list A) i x :
  py_index xs i = inr x <->
  exists k, position (List.length xs) i = Some k /\ nth_error xs k = Some x.
Proof.
  unfold py_index. split.
  - destruct (position _ i) as [k|]; [|discriminate].
    destruct (nth_error xs k) eqn:E; [|discriminate].
    intros [= ->]. eauto.
  - intros (k & -> & ->). reflexivity.
Qed.

Lemma position_lt n i k : position n i = Some k -> (k < n)%nat.
Proof.
  unfold position.
  destruct (_ && _)%bool eqn:E; [|discriminate]. intros [= <-].
  apply andb_true_iff in E. destruct E as [E1 E2].
  apply Z.leb_le in E1. apply Z.ltb_lt in E2. lia.
Qed.

(** An index that selects an entry of one vector selects one of every vector
    of the same length. *)
Lemma py_index_aligned {A B} (xs : list A) (ys : list B) i x :
  List.length ys = List.length xs -> py_index xs i = inr x ->
  exists y, py_index ys i = inr y.
Proof.
  intros L H. apply py_index_inr in H. destruct H as (k & P & _).
  destruct (nth_error ys k) as [y|] eqn:E.
  - exists y. apply py_index_inr. exists k. rewrite L. auto.
  - apply nth_error_None in E. apply position_lt in P. lia.
Qed.

Lemma zipWith_length {A B C} (f : A -> B -> C) xs ys :
  List.length (zipWith f xs ys) = Nat.min (List.length xs) (List.length ys).
Proof.
  revert ys. induction xs as [|x xs IH]; intros [|y ys]; simpl; auto.
Qed.

Lemma nth_error_zipWith {A B C} (f : A -> B -> C) xs ys k x y :
  nth_error xs k = Some x -> nth_error ys k = Some y ->
  nth_error (zipWith f xs ys) k = Some (f x y).
Proof.
  revert ys k. induction xs as [|x0 xs IH]; intros [|y0 ys] [|k]; simpl;
    try discriminate; auto.
  intros [= ->] [= ->]. reflexivity.
Qed.

Lemma py_index_zipWith {A B C} (f : A -> B -> C) xs ys i x y :
  List.length ys = List.length xs ->
  py_index xs i = inr x -> py_index ys i = inr y ->
  py_index (zipWith f xs ys) i = inr (f x y).
Proof.
  intros L Hx Hy. apply py_index_inr in Hx, Hy.
  destruct Hx as (k & P & Nx). destruct Hy as (k' & P' & Ny).
  rewrite L, P in P'. injection P' as <-.
  apply py_index_inr. exists k. rewrite zipWith_length, L, Nat.min_id.
  split; [assumption|]. now apply nth_error_zipWith.
Qed.

Lemma py_index_map {A B} (f : A -> B) xs i x :
  py_index xs i = inr x -> py_index (map f xs) i = inr (f x).
Proof.
  intros H. apply py_index_inr in H. destruct H as (k & P & N).
  apply py_index_inr. exists k. rewrite length_map. split; [assumption|].
  now apply map_nth_error.
Qed.

Lemma py_index_combine {A B} (xs : list A) (ys : list B) i x y :
  List.length ys = List.length xs ->
  py_index xs i = inr x -> py_index ys i = inr y ->
  py_index (combine xs ys) i = inr (x, y).
Proof.
  intros L Hx Hy. apply py_index_inr in Hx, Hy.
  destruct Hx as (k & P & Nx). destruct Hy as (k' & P' & Ny).
  rewrite L, P in P'. injection P' as <-.
  apply py_index_inr. exists k. rewrite length_combine, L, Nat.min_id.
  split; [assumption|].
  clear P L. revert ys k Nx Ny. induction xs as [|x0 xs IH]; intros [|y0 ys] [|k]; simpl;
    try discriminate; auto.
  intros [= ->] [= ->]. reflexivity.
Qed.

Lemma column_length j p xs : column j p = inr xs -> List.length xs = shape0 p.
Proof.
  unfold column, shape0. destruct (j <? shape1 p)%nat; [|discriminate].
  intros [= <-]. apply length_map.
Qed.

(** Operands of equal length are paired position by position. *)
Lemma broadcast_same {A B} (xs : list A) (ys : list B) :
  List.length xs = List.length ys -> broadcast xs ys = inr (combine xs ys).
Proof. intros L. unfold broadcast. rewrite L, Nat.eqb_refl. reflexivity. Qed.

Lemma nth_error_combine {A B} (xs : list A) (ys : list B) k :
  nth_error (combine xs ys) k =
  match nth_error xs k, nth_error ys k with
  | Some x, Some y => Some (x, y)
  | _, _ => None
  end.
Proof.
  revert ys k. induction xs as [|x xs IH]; intros [|y ys] [|k]; simpl; auto.
  destruct (nth_error xs k); reflexivity.
Qed.

Lemma nth_error_aligned {A B} (xs : list A) (ys : list B) k x :
  List.length ys = List.length xs -> nth_error xs k = Some x ->
  exists y, nth_error ys k = Some y.
Proof.
  intros L H. destruct (nth_error ys k) as [y|] eqn:E; [eauto|].
  apply nth_error_None in E. assert (k < List.length xs)%nat by (apply nth_error_Some; congruence).
  lia.
Qed.

(** ** Construction *)

(** A created object is the result of its class's constructor. *)
Lemma created_inv lib tag params f :
  create_function lib tag params = inr f ->
  match f with
  | Kumaraswami o => _kumaraswami_rSAS.__init__ params = inr o
  | Uniform o => _uniform_rSAS.__init__ params = inr o
  | Invgauss o => _invgauss_rSAS.__init__ params = inr o
  | Stats o => _stats_rSAS.__init__ lib tag params = inr o
  | Gamma o => _gamma_rSAS.__init__ lib params = inr o
  | Lookup o => _lookup_rSAS.__init__ params = inr o
  end.
Proof.
  unfold create_function, function_dict, dict_get.
  repeat match goal with
  | |- context [String.eqb tag ?s] => destruct (String.eqb tag s)
  end.
  all: try match goal with
       | |- context [hasattr_stats ?l ?t] => destruct (hasattr_stats l t); [|discriminate]
       end.
  all: match goal with
       | |- context [bind ?c _] => destruct c as [e|o] eqn:E; cbn; [discriminate|]
       end.
  all: intros [= <-]; reflexivity.
Qed.

Lemma uniform_init_inv params o :
  _uniform_rSAS.__init__ params = inr o ->
  List.length (_uniform_rSAS.ST_min o) = shape0 params /\
  List.length (_uniform_rSAS.ST_max o) = shape0 params /\
  _uniform_rSAS.lam o =
    zipWith (fun hi lo => 1 / (hi - lo)) (_uniform_rSAS.ST_max o) (_uniform_rSAS.ST_min o).
Proof.
  unfold _uniform_rSAS.__init__.
  destruct (column 0 params) as [|los] eqn:E0; [discriminate|].
  destruct (column 1 params) as [|his] eqn:E1; [discriminate|].
  cbn. intros [= <-]. cbn.
  apply column_length in E0, E1. auto.
Qed.

Lemma kumaraswami_init_inv params o :
  _kumaraswami_rSAS.__init__ params = inr o ->
  List.length (_kumaraswami_rSAS.ST_min o) = shape0 params /\
  List.length (_kumaraswami_rSAS.ST_max o) = shape0 params /\
  List.length (_kumaraswami_rSAS.a o) = shape0 params /\
  List.length (_kumaraswami_rSAS.b o) = shape0 params.
Proof.
  unfold _kumaraswami_rSAS.__init__.
  destruct (column 0 params) as [|c0] eqn:E0; [discriminate|].
  destruct (column 1 params) as [|c1] eqn:E1; [discriminate|].
  destruct (column 2 params) as [|c2] eqn:E2; [discriminate|].
  destruct (column 3 params) as [|c3] eqn:E3; [discriminate|].
  cbn. intros [= <-]. cbn.
  apply column_length in E0, E1, E2, E3. auto.
Qed.

Lemma gamma_init_inv lib params o :
  _gamma_rSAS.__init__ lib params = inr o ->
  List.length (_gamma_rSAS.ST_min o) = shape0 params /\
  List.length (_gamma_rSAS.ST_max o) = shape0 params /\
  List.length (_gamma_rSAS.scale o) = shape0 params /\
  List.length (_gamma_rSAS.a o) = shape0 params /\
  _gamma_rSAS.lam o = map (fun s => 1 / s) (_gamma_rSAS.scale o) /\
  _gamma_rSAS.rescale o =
    zipWith (fun hi '(a, (l, lo)) => _gamma_rSAS.rescale1 lib lo hi a l)
      (_gamma_rSAS.ST_max o)
      (combine (_gamma_rSAS.a o) (combine (_gamma_rSAS.lam o) (_gamma_rSAS.ST_min o))).
Proof.
  unfold _gamma_rSAS.__init__.
  destruct (column 0 params) as [|c0] eqn:E0; [discriminate|].
  destruct (column 1 params) as [|c1] eqn:E1; [discriminate|].
  destruct (column 2 params) as [|c2] eqn:E2; [discriminate|].
  destruct (column 3 params) as [|c3] eqn:E3; [discriminate|].
  cbn. intros [= <-]. cbn.
  apply column_length in E0, E1, E2, E3. auto 10.
Qed.

(** ** The clamped kernels *)


Lemma uniform_cdf1_clamped lo hi lam st :
  (lo <? hi) = true ->
  clamped lo hi (_uniform_rSAS.inside lo lam) st (_uniform_rSAS.cdf1 lo hi lam st).
Proof.
  intros V. unfold clamped, strictly_inside, _uniform_rSAS.cdf1, np_where, F64.gtb.
  repeat split.
  - intros H. rewrite (le_lt_trans _ _ _ H V), (le_not_gt _ _ H). reflexivity.
  - intros H. apply andb_true_iff in H. destruct H as [-> ->]. reflexivity.
  - intros H. rewrite (le_not_gt _ _ H). reflexivity.
Qed.

Lemma gamma_cdf1_clamped lib lo hi a lam rescale st :
  (lo <? hi) = true ->
  clamped lo hi (_gamma_rSAS.inside lib lo a lam rescale) st
    (_gamma_rSAS.cdf1 lib lo hi a lam rescale st).
Proof.
  intros V. unfold clamped, strictly_inside, _gamma_rSAS.cdf1, np_where, F64.gtb.
  repeat split.
  - intros H. rewrite (le_not_gt _ _ H). reflexivity.
  - intros H. apply andb_true_iff in H. destruct H as [-> ->]. reflexivity.
  - intros H. rewrite (lt_le_trans _ _ _ V H), (le_not_gt _ _ H). reflexivity.
Qed.

Lemma kumaraswami_cdf1_clamped lib lo hi a b st :
  (lo <? hi) = true ->
  clamped lo hi (_kumaraswami_rSAS.inside lib lo hi a b) st
    (_kumaraswami_rSAS.cdf1 lib lo hi a b st).
Proof.
  intros V. unfold clamped, strictly_inside, _kumaraswami_rSAS.cdf1, np_where, F64.gtb, F64.geb.
  rewrite (lt_le _ _ V). repeat split.
  - intros H. rewrite (le_not_gt _ _ H). reflexivity.
  - intros H. apply andb_true_iff in H. destruct H as [-> ->]. reflexivity.
  - intros H. rewrite (lt_le_trans _ _ _ V H), (le_not_gt _ _ H). reflexivity.
Qed.

(** On a row with [ST_min < ST_max], [cdf_i] of a created uniform, gamma or
    kumaraswami object maps one clamped function over the query. *)
Lemma cdf_i_clamped lib tag params f los his i lo hi :
  create_function lib tag params = inr f ->
  bounds f = Some (los, his) ->
  py_index los i = inr lo -> py_index his i = inr hi ->
  (lo <? hi) = true ->
  exists F g, inside_i lib f i = inr F /\
    (forall ST, cdf_i lib f ST i = inr (map g ST)) /\
    (forall st, clamped lo hi F st (g st)).
Proof.
  intros C B Hlo Hhi V. apply created_inv in C.
  destruct f as [o|o|o|o|o|o]; try discriminate B; injection B as <- <-.
  - apply kumaraswami_init_inv in C. destruct C as (L0 & L1 & L2 & L3).
    destruct (py_index_aligned (_kumaraswami_rSAS.ST_min o) (_kumaraswami_rSAS.a o) i lo) as [a Ha]; [congruence|assumption|].
    destruct (py_index_aligned (_kumaraswami_rSAS.ST_min o) (_kumaraswami_rSAS.b o) i lo) as [b Hb]; [congruence|assumption|].
    exists (_kumaraswami_rSAS.inside lib lo hi a b), (_kumaraswami_rSAS.cdf1 lib lo hi a b).
    split; [|split].
    + cbn. rewrite Hlo, Hhi, Ha, Hb. reflexivity.
    + intros ST. cbn. unfold _kumaraswami_rSAS.cdf_i. rewrite Hlo, Hhi, Ha, Hb. reflexivity.
    + intros st. now apply kumaraswami_cdf1_clamped.
  - apply uniform_init_inv in C. destruct C as (L0 & L1 & L2).
    assert (Hl : py_index (_uniform_rSAS.lam o) i = inr (1 / (hi - lo))).
    { rewrite L2. apply (py_index_zipWith (fun hi lo => 1 / (hi - lo))); [congruence|assumption..]. }
    exists (_uniform_rSAS.inside lo (1 / (hi - lo))), (_uniform_rSAS.cdf1 lo hi (1 / (hi - lo))).
    split; [|split].
    + cbn. rewrite Hlo, Hl. reflexivity.
    + intros ST. cbn. unfold _uniform_rSAS.cdf_i. rewrite Hlo, Hhi, Hl. reflexivity.
    + intros st. now apply uniform_cdf1_clamped.
  - apply gamma_init_inv in C. destruct C as (L0 & L1 & L2 & L3 & L4 & L5).
    destruct (py_index_aligned (_gamma_rSAS.ST_min o) (_gamma_rSAS.a o) i lo) as [a Ha]; [congruence|assumption|].
    destruct (py_index_aligned (_gamma_rSAS.ST_min o) (_gamma_rSAS.lam o) i lo) as [l Hl];
      [rewrite L4, length_map; congruence|assumption|].
    destruct (py_index_aligned (_gamma_rSAS.ST_min o) (_gamma_rSAS.rescale o) i lo) as [r Hr];
      [|assumption|].
    { rewrite L5, zipWith_length, !length_combine, L4, length_map. lia. }
    exists (_gamma_rSAS.inside lib lo a l r), (_gamma_rSAS.cdf1 lib lo hi a l r).
    split; [|split].
    + cbn. rewrite Hlo, Ha, Hl, Hr. reflexivity.
    + intros ST. cbn. unfold _gamma_rSAS.cdf_i. rewrite Hlo, Hhi, Ha, Hl, Hr. reflexivity.
    + intros st. now apply gamma_cdf1_clamped.
Qed.

(** [cdf_all] on a query of one value per timestep: position [k] is answered
    from row [k], and on a row with [ST_min < ST_max] the answer is clamped. *)
Lemma cdf_all_clamped lib tag params f los his ST :
  create_function lib tag params = inr f ->
  bounds f = Some (los, his) ->
  List.length ST = shape0 params ->
  exists out, cdf_all lib f ST = inr out /\ List.length out = List.length ST /\
    forall k st lo hi,
      nth_error ST k = Some st -> nth_error los k = Some lo -> nth_error his k = Some hi ->
      (lo <? hi) = true ->
      exists F y, nth_error out k = Some y /\ clamped lo hi F st y.
Proof.
  intros C B LST. apply created_inv in C.
  destruct f as [o|o|o|o|o|o]; try discriminate B; injection B as <- <-.
  - apply kumaraswami_init_inv in C. destruct C as (L0 & L1 & L2 & L3).
    cbn. unfold _kumaraswami_rSAS.cdf_all.
    rewrite broadcast_same by (rewrite !length_combine; lia).
    eexists; split; [reflexivity|]. split.
    { rewrite length_map, !length_combine. lia. }
    intros k st lo hi Hst Hlo Hhi V.
    destruct (nth_error_aligned (_kumaraswami_rSAS.ST_min o) (_kumaraswami_rSAS.a o) k lo) as [a Ha];
      [congruence|assumption|].
    destruct (nth_error_aligned (_kumaraswami_rSAS.ST_min o) (_kumaraswami_rSAS.b o) k lo) as [b Hb];
      [congruence|assumption|].
    exists (_kumaraswami_rSAS.inside lib lo hi a b), (_kumaraswami_rSAS.cdf1 lib lo hi a b st).
    split; [|now apply kumaraswami_cdf1_clamped].
    rewrite nth_error_map, !nth_error_combine, Hst, Hlo, Hhi, Ha, Hb. reflexivity.
  - apply uniform_init_inv in C. destruct C as (L0 & L1 & L2).
    assert (Ll : List.length (_uniform_rSAS.lam o) = shape0 params).
    { rewrite L2, zipWith_length. lia. }
    cbn. unfold _uniform_rSAS.cdf_all.
    rewrite broadcast_same by (rewrite !length_combine; lia).
    eexists; split; [reflexivity|]. split.
    { rewrite length_map, !length_combine. lia. }
    intros k st lo hi Hst Hlo Hhi V.
    destruct (nth_error_aligned (_uniform_rSAS.ST_min o) (_uniform_rSAS.lam o) k lo) as [l Hl];
      [congruence|assumption|].
    exists (_uniform_rSAS.inside lo l), (_uniform_rSAS.cdf1 lo hi l st).
    split; [|now apply uniform_cdf1_clamped].
    rewrite nth_error_map, !nth_error_combine, Hst, Hlo, Hhi, Hl. reflexivity.
  - apply gamma_init_inv in C. destruct C as (L0 & L1 & L2 & L3 & L4 & L5).
    assert (Ll : List.length (_gamma_rSAS.lam o) = shape0 params).
    { rewrite L4, length_map. assumption. }
    assert (Lr : List.length (_gamma_rSAS.rescale o) = shape0 params).
    { rewrite L5, zipWith_length, !length_combine. lia. }
    cbn. unfold _gamma_rSAS.cdf_all.
    rewrite broadcast_same by (rewrite !length_combine; lia).
    eexists; split; [reflexivity|]. split.
    { rewrite length_map, !length_combine. lia. }
    intros k st lo hi Hst Hlo Hhi V.
    destruct (nth_error_aligned (_gamma_rSAS.ST_min o) (_gamma_rSAS.a o) k lo) as [a Ha];
      [congruence|assumption|].
    destruct (nth_error_aligned (_gamma_rSAS.ST_min o) (_gamma_rSAS.lam o) k lo) as [l Hl];
      [congruence|assumption|].
    destruct (nth_error_aligned (_gamma_rSAS.ST_min o) (_gamma_rSAS.rescale o) k lo) as [r Hr];
      [congruence|assumption|].
    exists (_gamma_rSAS.inside lib lo a l r), (_gamma_rSAS.cdf1 lib lo hi a l r st).
    split; [|now apply gamma_cdf1_clamped].
    rewrite nth_error_map, !nth_error_combine, Hst, Hlo, Hhi, Ha, Hl, Hr. reflexivity.
Qed.

(** C1 (amended).  For an object created as uniform, gamma or kumaraswami and
    a row [i] with [ST_min[i] < ST_max[i]]: [cdf_i] answers 0 at every queried
    value at or below [ST_min[i]] and 1 at every value at or above
    [ST_max[i]], so [ST_min[i]] itself gives 0 and [ST_max[i]] itself gives 1;
    and [cdf_all], on one queried value per timestep, does the same at every
    position whose row has [ST_min < ST_max]. *)
Theorem clamping_outside_the_range lib tag params f los his :
  create_function lib tag params = inr f ->
  bounds f = Some (los, his) ->
  (forall i lo hi ST,
      py_index los i = inr lo -> py_index his i = inr hi -> (lo <? hi) = true ->
      cdf_i lib f [lo; hi] i = inr [0; 1] /\
      exists out, cdf_i lib f ST i = inr out /\
        Forall2 (fun st y => ((st <=? lo) = true -> y = 0) /\
                             ((hi <=? st) = true -> y = 1)) ST out) /\
  (forall ST, List.length ST = shape0 params ->
      exists out, cdf_all lib f ST = inr out /\
        forall k st lo hi,
          nth_error ST k = Some st ->
          nth_error los k = Some lo -> nth_error his k = Some hi ->
          (lo <? hi) = true ->
          exists y, nth_error out k = Some y /\
            ((st <=? lo) = true -> y = 0) /\ ((hi <=? st) = true -> y = 1)).
Proof.
  intros C B. split.
  - intros i lo hi ST Hlo Hhi V.
    destruct (cdf_i_clamped _ _ _ _ _ _ _ _ _ C B Hlo Hhi V) as (F & g & _ & Hg & Hc).
    split.
    + rewrite Hg. cbn [map].
      destruct (Hc lo) as (Z0 & _ & _). destruct (Hc hi) as (_ & _ & Z1).
      rewrite Z0, Z1; [reflexivity| |].
      * apply (le_refl_r lo hi). now apply lt_le.
      * apply (le_refl_l lo hi). now apply lt_le.
    + exists (map g ST). split; [apply Hg|].
      induction ST as [|st ST IH]; constructor; [|exact IH].
      destruct (Hc st) as (Z0 & _ & Z1). auto.
  - intros ST LST.
    destruct (cdf_all_clamped _ _ _ _ _ _ _ C B LST) as (out & E & _ & H).
    exists out. split; [assumption|].
    intros k st lo hi Hst Hlo Hhi V.
    destruct (H k st lo hi Hst Hlo Hhi V) as (F & y & Hy & Z0 & _ & Z1).
    exists y. auto.
Qed.

Lemma lt_trans x y z : (x <? y) = true -> (y <? z) = true -> (x <? z) = true.
Proof. intros H1 H2. apply (lt_le_trans x y z H1). now apply lt_le. Qed.

(** A comparable value lies at or below [lo], strictly inside, or at or above [hi]. *)
Lemma three_regions lo hi st :
  (lo <? hi) = true -> (st <=? st) = true ->
  (st <=? lo) = true \/ strictly_inside lo hi st = true \/ (hi <=? st) = true.
Proof.
  intros V N. unfold strictly_inside.
  assert (Nlo : (lo <=? lo) = true) by (apply (le_refl_l lo hi); now apply lt_le).
  assert (Nhi : (hi <=? hi) = true) by (apply (le_refl_r lo hi); now apply lt_le).
  destruct (lt_or_ge lo st Nlo N) as [A|A]; [|now left].
  destruct (lt_or_ge st hi N Nhi) as [B|B]; [|now right; right].
  right; left. now rewrite A, B.
Qed.

(** ** Rounding keeps the order

    Every result of [binary_round_aux] is the rounding of an exact value, and
    rounding is monotone; this holds for any precision and exponent range. *)

Module RoundingFacts.

Import Rounding.

Local Open Scope Z_scope.

Lemma sc_mono N1 N2 D : 0 < D -> N1 <= N2 -> sc N1 D <= sc N2 D.
Proof.
  intros HD H. unfold sc.
  destruct (Z.eqb_spec (N1 mod D) 0), (Z.eqb_spec (N2 mod D) 0);
    Z.div_mod_to_equations; nia.
Qed.

Lemma sc_sc N D E : 0 < D -> 0 < E -> sc (sc N D) (2 * E) = sc N (D * E).
Proof.
  intros HD HE. unfold sc.
  assert (Q : N / (D * E) = N / D / E) by (rewrite Z.div_div; lia).
  assert (M : N mod (D * E) = N mod D + D * ((N / D) mod E)).
  { rewrite Z.rem_mul_r by lia. reflexivity. }
  pose proof (Z.mod_pos_bound N D HD) as B1.
  pose proof (Z.mod_pos_bound (N / D) E HE) as B2.
  set (q := N / D) in *. set (r := N mod D) in *.
  rewrite Q, M.
  set (b := if r =? 0 then 0 else 1).
  assert (Hb : 0 <= b <= 1 /\ (b = 0 <-> r = 0)).
  { unfold b. destruct (Z.eqb_spec r 0); lia. }
  assert (D1 : (2 * q + b) / (2 * E) = q / E).
  { symmetry. apply Z.div_unique with (r := 2 * (q mod E) + b); [lia|].
    pose proof (Z.div_mod q E). lia. }
  assert (M1 : (2 * q + b) mod (2 * E) = 2 * (q mod E) + b).
  { symmetry. apply Z.mod_unique with (q := q / E); [lia|].
    pose proof (Z.div_mod q E). lia. }
  rewrite D1, M1.
  destruct (Z.eqb_spec (2 * (q mod E) + b) 0), (Z.eqb_spec (r + D * (q mod E)) 0); nia.
Qed.

Lemma sc_scale k N D : 0 < k -> 0 < D -> sc (k * N) (k * D) = sc N D.
Proof.
  intros Hk HD. unfold sc.
  rewrite Z.div_mul_cancel_l by lia. rewrite Z.mul_mod_distr_l by lia.
  destruct (Z.eqb_spec (k * (N mod D)) 0), (Z.eqb_spec (N mod D) 0); nia.
Qed.

Lemma sc_two u : sc u 2 = u.
Proof. unfold sc. destruct (Z.eqb_spec (u mod 2) 0); Z.div_mod_to_equations; lia. Qed.

Lemma sc_quarter N D : 0 < D -> sc (2 * N) D / 4 = N / D.
Proof.
  intros HD. unfold sc.
  assert (E : 2 * N / D / 2 = N / D).
  { rewrite Z.div_div by lia. rewrite (Z.mul_comm D 2).
    apply Z.div_mul_cancel_l; lia. }
  rewrite <- E.
  destruct (Z.eqb_spec ((2 * N) mod D) 0); Z.div_mod_to_equations; lia.
Qed.

Lemma rne_bounds u : u / 4 <= rne u <= u / 4 + 1.
Proof.
  unfold rne.
  destruct (Z.ltb_spec (u mod 4) 2), (Z.eqb_spec (u mod 4) 2), (Z.even (u / 4)); lia.
Qed.

Lemma rne_mono u v : u <= v -> rne u <= rne v.
Proof.
  intros H.
  destruct (Z.eq_dec (u / 4) (v / 4)) as [E|E].
  - assert (M : u mod 4 <= v mod 4) by (Z.div_mod_to_equations; lia).
    unfold rne. rewrite <- E.
    destruct (Z.ltb_spec (u mod 4) 2), (Z.ltb_spec (v mod 4) 2),
      (Z.eqb_spec (u mod 4) 2), (Z.eqb_spec (v mod 4) 2), (Z.even (u / 4)); lia.
  - assert (L : u / 4 + 1 <= v / 4) by (Z.div_mod_to_equations; lia).
    pose proof (rne_bounds u). pose proof (rne_bounds v). lia.
Qed.

Lemma rne_exact m : rne (4 * m) = m.
Proof.
  unfold rne.
  replace ((4 * m) mod 4) with 0 by (Z.div_mod_to_equations; lia).
  replace (4 * m / 4) with m by (Z.div_mod_to_equations; lia). reflexivity.
Qed.


(** *** Digits *)

Lemma digits2_pos_spec p :
  2 ^ (Zpos (digits2_pos p) - 1) <= Zpos p < 2 ^ Zpos (digits2_pos p).
Proof.
  induction p as [p IH|p IH|]; simpl digits2_pos.
  - rewrite Pos2Z.inj_succ.
    replace (Z.succ (Zpos (digits2_pos p)) - 1) with (Z.succ (Zpos (digits2_pos p) - 1)) by lia.
    rewrite !Z.pow_succ_r by lia. lia.
  - rewrite Pos2Z.inj_succ.
    replace (Z.succ (Zpos (digits2_pos p)) - 1) with (Z.succ (Zpos (digits2_pos p) - 1)) by lia.
    rewrite !Z.pow_succ_r by lia. lia.
  - simpl. lia.
Qed.

Lemma Zdigits2_spec m : 0 < m -> 2 ^ (Zdigits2 m - 1) <= m < 2 ^ Zdigits2 m.
Proof. destruct m; try lia. intros _. apply digits2_pos_spec. Qed.

Lemma Zdigits2_pos m : 0 < m -> 0 < Zdigits2 m.
Proof. destruct m; simpl; lia. Qed.

Lemma Zdigits2_nonneg m : 0 <= Zdigits2 m.
Proof. destruct m; simpl; lia. Qed.

Lemma Zdigits2_unique m d : 0 < d -> 2 ^ (d - 1) <= m < 2 ^ d -> Zdigits2 m = d.
Proof.
  intros Hd H.
  assert (Hm : 0 < m) by (pose proof (Z.pow_pos_nonneg 2 (d - 1)); lia).
  pose proof (Zdigits2_spec m Hm) as S. pose proof (Zdigits2_pos m Hm) as P.
  destruct (Z.lt_trichotomy (Zdigits2 m) d) as [L|[E|G]]; [|assumption|].
  - assert (2 ^ Zdigits2 m <= 2 ^ (d - 1)) by (apply Z.pow_le_mono_r; lia). lia.
  - assert (2 ^ d <= 2 ^ (Zdigits2 m - 1)) by (apply Z.pow_le_mono_r; lia). lia.
Qed.

Lemma Zdigits2_mono m n : 0 <= m <= n -> Zdigits2 m <= Zdigits2 n.
Proof.
  intros H.
  destruct (Z.eq_dec m 0) as [->|Hm]; [apply Zdigits2_nonneg|].
  assert (Pm : 0 < m) by lia. assert (Pn : 0 < n) by lia.
  pose proof (Zdigits2_spec m Pm). pose proof (Zdigits2_spec n Pn).
  pose proof (Zdigits2_pos m Pm). pose proof (Zdigits2_pos n Pn).
  destruct (Z.le_gt_cases (Zdigits2 m) (Zdigits2 n)) as [L|G]; [assumption|].
  assert (2 ^ Zdigits2 n <= 2 ^ (Zdigits2 m - 1)) by (apply Z.pow_le_mono_r; lia). lia.
Qed.

Lemma Zdigits2_shift m k : 0 < m -> 0 <= k -> Zdigits2 (m * 2 ^ k) = Zdigits2 m + k.
Proof.
  intros Hm Hk. pose proof (Zdigits2_spec m Hm). pose proof (Zdigits2_pos m Hm).
  apply Zdigits2_unique; [lia|].
  replace (Zdigits2 m + k - 1) with (Zdigits2 m - 1 + k) by lia.
  rewrite !Z.pow_add_r by lia.
  pose proof (Z.pow_pos_nonneg 2 k). nia.
Qed.

(** The digits of a quotient by a power of two. *)
Lemma Zdigits2_div m k : 0 < m -> 0 <= k -> k < Zdigits2 m ->
  Zdigits2 (m / 2 ^ k) = Zdigits2 m - k.
Proof.
  intros Hm Hk L. pose proof (Zdigits2_spec m Hm) as S.
  apply Zdigits2_unique; [lia|].
  assert (P : 0 < 2 ^ k) by (apply Z.pow_pos_nonneg; lia).
  assert (E1 : 2 ^ (Zdigits2 m - 1) = 2 ^ (Zdigits2 m - k - 1) * 2 ^ k).
  { rewrite <- Z.pow_add_r by lia. f_equal. lia. }
  assert (E2 : 2 ^ Zdigits2 m = 2 ^ (Zdigits2 m - k) * 2 ^ k).
  { rewrite <- Z.pow_add_r by lia. f_equal. lia. }
  split.
  - apply Z.div_le_lower_bound; [lia|]. lia.
  - apply Z.div_lt_upper_bound; [lia|]. lia.
Qed.


(** *** Shifting with a round bit and a sticky bit *)

Lemma code_of_loc m l : code (shr_record_of_loc m l) = lcode m l.
Proof. destruct l as [|[]]; unfold code, lcode; simpl; lia. Qed.

Lemma shr_m_of_loc m l : shr_m (shr_record_of_loc m l) = m.
Proof. destruct l as [|[]]; reflexivity. Qed.

Lemma quarters_div m t : 0 <= t < 4 -> (4 * m + t) / 4 = m.
Proof. intros. Z.div_mod_to_equations; lia. Qed.

Lemma quarters_mod m t : 0 <= t < 4 -> (4 * m + t) mod 4 = t.
Proof. intros. Z.div_mod_to_equations; lia. Qed.

Lemma rne_lcode m l : round_nearest_even m l = rne (lcode m l).
Proof.
  unfold rne, lcode.
  destruct l as [|[]]; rewrite quarters_div, quarters_mod by lia; reflexivity.
Qed.

Lemma loc_of_shr_record_code r : lcode (shr_m r) (loc_of_shr_record r) = code r.
Proof. destruct r as [m [] []]; unfold lcode, code; simpl; lia. Qed.

Lemma rne_code r :
  round_nearest_even (shr_m r) (loc_of_shr_record r) = rne (code r).
Proof. rewrite rne_lcode, loc_of_shr_record_code. reflexivity. Qed.

Lemma shr_1_code r :
  0 <= shr_m r -> 0 <= shr_m (shr_1 r) /\ code (shr_1 r) = sc (code r) 4.
Proof.
  destruct r as [m r s]. simpl shr_m. intros Hm.
  assert (B : forall t, 0 <= t < 4 ->
            sc (4 * m + t) 4 = 2 * m + (if t =? 0 then 0 else 1)).
  { intros t Ht. unfold sc.
    replace ((4 * m + t) / 4) with m by (Z.div_mod_to_equations; lia).
    replace ((4 * m + t) mod 4) with t by (Z.div_mod_to_equations; lia).
    reflexivity. }
  unfold code. simpl shr_m; simpl shr_r; simpl shr_s.
  replace (4 * m + (if r then 2 else 0) + (if s then 1 else 0))
    with (4 * m + ((if r then 2 else 0) + (if s then 1 else 0))) by lia.
  rewrite B by (destruct r, s; lia).
  destruct m as [|[p|p|]|p]; try lia; destruct r, s; simpl; split; lia.
Qed.

Lemma pow2_xO n : 2 ^ Zpos n~0 = 2 ^ Zpos n * 2 ^ Zpos n.
Proof.
  replace (Zpos n~0) with (Zpos n + Zpos n) by lia.
  apply Z.pow_add_r; lia.
Qed.

Lemma pow2_xI n : 2 ^ Zpos n~1 = 2 * (2 ^ Zpos n * 2 ^ Zpos n).
Proof.
  replace (Zpos n~1) with (Z.succ (Zpos n + Zpos n)) by lia.
  rewrite Z.pow_succ_r, Z.pow_add_r by lia. reflexivity.
Qed.

Lemma iter_pos_code n r :
  0 <= shr_m r ->
  0 <= shr_m (iter_pos shr_1 n r) /\
  code (iter_pos shr_1 n r) = sc (code r) (2 * 2 ^ Zpos n).
Proof.
  revert r. induction n as [n IH|n IH|]; intros r Hr; simpl iter_pos.
  - destruct (shr_1_code r Hr) as (H1 & C1).
    destruct (IH _ H1) as (H2 & C2). destruct (IH _ H2) as (H3 & C3).
    split; [assumption|]. rewrite C3, C2, C1.
    assert (P : 0 < 2 ^ Zpos n) by (apply Z.pow_pos_nonneg; lia).
    rewrite sc_sc by lia.
    replace (2 * 2 ^ Zpos n * 2 ^ Zpos n) with (2 * (2 ^ Zpos n * 2 ^ Zpos n)) by lia.
    rewrite sc_sc by lia. f_equal. rewrite pow2_xI. lia.
  - destruct (IH _ Hr) as (H2 & C2). destruct (IH _ H2) as (H3 & C3).
    split; [assumption|]. rewrite C3, C2.
    assert (P : 0 < 2 ^ Zpos n) by (apply Z.pow_pos_nonneg; lia).
    rewrite !sc_sc by lia. f_equal. rewrite pow2_xO. lia.
  - apply shr_1_code, Hr.
Qed.

Lemma shr_code r e n :
  0 <= shr_m r -> 0 <= n ->
  snd (shr r e n) = e + n /\ 0 <= shr_m (fst (shr r e n)) /\
  code (fst (shr r e n)) = sc (code r) (2 * 2 ^ n).
Proof.
  intros Hr Hn. destruct n as [|n|n]; try lia; simpl shr; simpl fst; simpl snd.
  - repeat split; [lia|assumption|]. symmetry. apply sc_two.
  - destruct (iter_pos_code n r Hr) as (H & C). repeat split; assumption.
Qed.

(** Where the rest of a division lies. *)
Lemma new_location_code D q r :
  0 < D -> 0 <= r < D -> lcode q (new_location D r) = sc (2 * (q * D + r)) D.
Proof.
  intros HD Hr.
  assert (S : sc (2 * (q * D + r)) D
              = 4 * q + (if r =? 0 then 0 else
                         match 2 * r ?= D with Lt => 1 | Eq => 2 | Gt => 3 end)).
  { unfold sc. destruct (Z.eqb_spec r 0) as [->|R].
    - replace (2 * (q * D + 0)) with ((2 * q) * D) by lia.
      rewrite Z.div_mul, Z.mod_mul by lia.
      change (if 0 =? 0 then 0 else 1) with 0. lia.
    - destruct (Z.compare_spec (2 * r) D) as [E|L|G].
      + replace (2 * (q * D + r)) with ((2 * q + 1) * D) by lia.
        rewrite Z.div_mul, Z.mod_mul by lia.
      change (if 0 =? 0 then 0 else 1) with 0. lia.
      + replace (2 * (q * D + r)) with (2 * r + (2 * q) * D) by lia.
        rewrite Z.div_add, Z.mod_add by lia.
        rewrite Z.div_small, Z.mod_small by lia.
        destruct (Z.eqb_spec (2 * r) 0); lia.
      + replace (2 * (q * D + r)) with ((2 * r - D) + (2 * q + 1) * D) by lia.
        rewrite Z.div_add, Z.mod_add by lia.
        rewrite Z.div_small, Z.mod_small by lia.
        destruct (Z.eqb_spec (2 * r - D) 0); lia. }
  rewrite S. unfold lcode, new_location, new_location_even, new_location_odd.
  destruct (Z.even D) eqn:Ev; destruct (Z.eqb_spec r 0) as [->|R]; try reflexivity.
  assert (O : Z.odd D = true) by (rewrite <- Z.negb_even, Ev; reflexivity).
  apply Z.odd_spec in O. destruct O as [k O].
  destruct (Z.compare_spec (2 * r + 1) D), (Z.compare_spec (2 * r) D); try lia; reflexivity.
Qed.


(** *** Rounding to a format *)

Section Format.
Variables prec emax : Z.
Hypothesis prec_gt_0 : 0 < prec.
Hypothesis prec_lt_emax : prec < emax.

Local Abbreviation emin := (SpecFloat.emin prec emax).
Local Abbreviation fexp := (SpecFloat.fexp prec emax).
Local Abbreviation finish := (Rounding.finish prec emax).
Local Abbreviation overflow_or := (Rounding.overflow_or prec emax).
Local Abbreviation rounded := (Rounding.rounded prec emax).
Local Abbreviation cexp := (Rounding.cexp prec emax).
Local Abbreviation round_ratio := (Rounding.round_ratio prec emax).
Local Abbreviation Zv := (Rounding.Zv prec emax).

Lemma emin_le_0 : emin <= 0.
Proof. unfold SpecFloat.emin. lia. Qed.

Lemma fexp_ge_emin x : emin <= fexp x.
Proof. unfold SpecFloat.fexp. lia. Qed.

Lemma fexp_mono x y : x <= y -> fexp x <= fexp y.
Proof. unfold SpecFloat.fexp. lia. Qed.

Lemma finish_rounded s q c :
  rounded q c ->
  finish s q c
  = if q =? 0 then S754_zero s
    else if q =? 2 ^ prec then overflow_or s (Z.to_pos (2 ^ (prec - 1))) (c + 1)
    else overflow_or s (Z.to_pos q) c.
Proof.
  intros (Hc & Hq & Hn).
  assert (P1 : 0 < 2 ^ (prec - 1)) by (apply Z.pow_pos_nonneg; lia).
  assert (P2 : 2 ^ prec = 2 * 2 ^ (prec - 1)).
  { rewrite <- Z.pow_succ_r by lia. f_equal. lia. }
  unfold finish, shr_fexp.
  destruct (Z.eqb_spec q 0) as [->|Q0].
  - assert (c = emin) by lia. subst c.
    replace (fexp (Zdigits2 0 + emin) - emin) with 0
      by (unfold SpecFloat.fexp; simpl Zdigits2; lia).
    reflexivity.
  - assert (Qp : 0 < q) by lia.
    pose proof (Zdigits2_spec q Qp) as D. pose proof (Zdigits2_pos q Qp) as Dp.
    destruct (Z.eqb_spec q (2 ^ prec)) as [E|NE].
    + assert (Dq : Zdigits2 q = prec + 1).
      { apply Zdigits2_unique; [lia|]. replace (prec + 1 - 1) with prec by lia.
        rewrite Z.pow_add_r by lia. change (2 ^ 1) with 2. lia. }
      rewrite Dq.
      replace (fexp (prec + 1 + c) - c) with 1 by (unfold SpecFloat.fexp; lia).
      change (shr (shr_record_of_loc q loc_Exact) c 1)
        with (shr_1 (shr_record_of_loc q loc_Exact), c + 1).
      cbv iota beta.
      destruct (shr_1_code (shr_record_of_loc q loc_Exact)) as (M & C).
      { simpl. lia. }
      rewrite code_of_loc in C. unfold lcode in C.
      replace (sc (4 * q + 0) 4) with (2 * q) in C.
      2:{ unfold sc. replace (4 * q + 0) with ((q) * 4) by lia.
          rewrite Z.div_mul, Z.mod_mul by lia.
          change (if 0 =? 0 then 0 else 1) with 0. lia. }
      unfold code in C.
      assert (Sm : shr_m (shr_1 (shr_record_of_loc q loc_Exact)) = 2 ^ (prec - 1)).
      { destruct (shr_r _), (shr_s _); lia. }
      rewrite Sm. destruct (2 ^ (prec - 1)) eqn:Epow; try lia.
      unfold overflow_or. simpl Z.to_pos. reflexivity.
    + assert (Dq : Zdigits2 q <= prec).
      { destruct (Z.le_gt_cases (Zdigits2 q) prec) as [L|G]; [assumption|].
        assert (2 ^ prec <= 2 ^ (Zdigits2 q - 1)) by (apply Z.pow_le_mono_r; lia). lia. }
      assert (Dn : emin < c -> Zdigits2 q = prec).
      { intros L. specialize (Hn L).
        destruct (Z.eq_dec (Zdigits2 q) prec) as [|N]; [assumption|].
        assert (2 ^ Zdigits2 q <= 2 ^ (prec - 1)) by (apply Z.pow_le_mono_r; lia). lia. }
      replace (fexp (Zdigits2 q + c) - c) with 0 by (unfold SpecFloat.fexp; lia).
      change (shr (shr_record_of_loc q loc_Exact) c 0)
        with (shr_record_of_loc q loc_Exact, c).
      cbv iota beta. rewrite shr_m_of_loc.
      destruct q; try lia. reflexivity.
Qed.

Lemma SFleb_finite m1 e1 m2 e2 :
  e1 < e2 \/ (e1 = e2 /\ (m1 <= m2)%positive) ->
  SFleb (S754_finite false m1 e1) (S754_finite false m2 e2) = true.
Proof.
  unfold SFleb, SFcompare. intros [L|(E & L)].
  - destruct (Z.compare_spec e1 e2); try lia; reflexivity.
  - subst. rewrite Z.compare_refl.
    change (Pos.compare_cont Eq m1 m2) with (Pos.compare m1 m2).
    destruct (Pos.compare_spec m1 m2); try lia; reflexivity.
Qed.

Lemma SFleb_overflow_or m1 e1 m2 e2 :
  e1 < e2 \/ (e1 = e2 /\ (m1 <= m2)%positive) ->
  SFleb (overflow_or false m1 e1) (overflow_or false m2 e2) = true.
Proof.
  intros H. unfold overflow_or.
  destruct (Z.leb_spec e1 (emax - prec)), (Z.leb_spec e2 (emax - prec)); try reflexivity.
  - now apply SFleb_finite.
  - lia.
Qed.

Lemma SFleb_zero_overflow_or s m e : SFleb (S754_zero s) (overflow_or false m e) = true.
Proof. unfold overflow_or. destruct (e <=? emax - prec); reflexivity. Qed.

(** The order of two rounded mantissas is the order of the results. *)
Lemma finish_le q1 c1 q2 c2 :
  rounded q1 c1 -> rounded q2 c2 ->
  c1 < c2 \/ (c1 = c2 /\ q1 <= q2) ->
  SFleb (finish false q1 c1) (finish false q2 c2) = true.
Proof.
  intros R1 R2 H. rewrite !finish_rounded by assumption.
  destruct R1 as (Hc1 & Hq1 & Hn1), R2 as (Hc2 & Hq2 & Hn2).
  assert (P1 : 0 < 2 ^ (prec - 1)) by (apply Z.pow_pos_nonneg; lia).
  assert (P2 : 2 ^ prec = 2 * 2 ^ (prec - 1)).
  { rewrite <- Z.pow_succ_r by lia. f_equal. lia. }
  destruct (Z.eqb_spec q1 0) as [Z1|Z1], (Z.eqb_spec q2 0) as [Z2|Z2].
  - reflexivity.
  - destruct (Z.eqb_spec q2 (2 ^ prec)); apply SFleb_zero_overflow_or.
  - exfalso. lia.
  - destruct (Z.eqb_spec q1 (2 ^ prec)) as [E1|E1], (Z.eqb_spec q2 (2 ^ prec)) as [E2|E2];
      apply SFleb_overflow_or.
    + destruct H as [L|(E & L)]; [left; lia|right; split; [lia|]]. lia.
    + destruct H as [L|(E & L)]; [|exfalso; lia].
      destruct (Z.eq_dec (c1 + 1) c2) as [E|NE]; [right|left; lia].
      split; [assumption|]. specialize (Hn2 ltac:(lia)).
      lia.
    + left. lia.
    + destruct H as [L|(E & L)]; [left; lia|right; split; [assumption|]].
      lia.
Qed.

Lemma rounded_ratio N D E :
  0 <= N -> 0 < D -> E <= emin ->
  rounded (rne (sc (2 * N) (D * 2 ^ (cexp N D E - E)))) (cexp N D E).
Proof.
  intros HN HD HE. unfold cexp.
  set (m := N / D). set (c := fexp (Zdigits2 m + E)).
  pose proof (fexp_ge_emin (Zdigits2 m + E)) as Hc. fold c in Hc.
  set (n := c - E). assert (Hn : 0 <= n) by (unfold n; lia).
  assert (Pn : 0 < 2 ^ n) by (apply Z.pow_pos_nonneg; lia).
  pose proof (rne_bounds (sc (2 * N) (D * 2 ^ n))) as B.
  rewrite sc_quarter in B by nia.
  rewrite <- Z.div_div in B by lia. fold m in B.
  assert (Hm : 0 <= m) by (apply Z.div_pos; lia).
  assert (Q0 : 0 <= m / 2 ^ n) by (apply Z.div_pos; lia).
  assert (P1 : 0 < 2 ^ prec) by (apply Z.pow_pos_nonneg; lia).
  split; [assumption|]. split.
  - split; [lia|].
    destruct (Z.eq_dec m 0) as [M0|M0].
    + rewrite M0, Z.div_0_l in B by lia. lia.
    + assert (Mp : 0 < m) by lia. pose proof (Zdigits2_spec m Mp) as S.
      pose proof (Zdigits2_pos m Mp) as Dp.
      assert (L : m / 2 ^ n < 2 ^ prec).
      { apply Z.div_lt_upper_bound; [assumption|].
        rewrite <- Z.pow_add_r by lia.
        assert (2 ^ Zdigits2 m <= 2 ^ (n + prec)).
        { apply Z.pow_le_mono_r; [lia|]. unfold n, c, SpecFloat.fexp. lia. }
        lia. }
      lia.
  - intros L.
    assert (Mp : 0 < m).
    { destruct (Z.eq_dec m 0) as [M0|M0]; [|lia].
      exfalso. unfold c in L. rewrite M0 in L. simpl Zdigits2 in L.
      unfold SpecFloat.fexp in L. lia. }
    pose proof (Zdigits2_spec m Mp) as S. pose proof (Zdigits2_pos m Mp) as Dp.
    assert (En : n = Zdigits2 m - prec) by (unfold n, c, SpecFloat.fexp in *; lia).
    assert (G : 2 ^ (prec - 1) <= m / 2 ^ n).
    { apply Z.div_le_lower_bound; [assumption|].
      rewrite <- Z.pow_add_r by lia.
      replace (n + (prec - 1)) with (Zdigits2 m - 1) by lia. lia. }
    lia.
Qed.

(** Rounding is monotone. *)
Lemma round_ratio_mono N1 N2 D E :
  0 < D -> E <= emin -> 0 <= N1 <= N2 ->
  SFleb (round_ratio false N1 D E) (round_ratio false N2 D E) = true.
Proof.
  intros HD HE H. unfold round_ratio.
  apply finish_le; try (apply rounded_ratio; lia).
  assert (M : 0 <= N1 / D <= N2 / D).
  { split; [apply Z.div_pos; lia|apply Z.div_le_mono; lia]. }
  assert (C : cexp N1 D E <= cexp N2 D E).
  { unfold cexp. apply fexp_mono. pose proof (Zdigits2_mono _ _ M). lia. }
  destruct (Z.eq_dec (cexp N1 D E) (cexp N2 D E)) as [Ec|Nc]; [right|left; lia].
  split; [assumption|]. rewrite Ec.
  apply rne_mono, sc_mono; [|lia].
  pose proof (fexp_ge_emin (Zdigits2 (N2 / D) + E)) as Hc. fold (cexp N2 D E) in Hc.
  assert (0 < 2 ^ (cexp N2 D E - E)) by (apply Z.pow_pos_nonneg; lia). nia.
Qed.


(** [binary_round_aux] on a quotient and the location of its rest. *)
Lemma binary_round_aux_ratio s N D e :
  0 <= N -> 0 < D -> e <= cexp N D e ->
  binary_round_aux prec emax s (N / D) e (new_location D (N mod D))
  = round_ratio s N D e.
Proof.
  intros HN HD He. unfold binary_round_aux, round_ratio.
  unfold shr_fexp at 1. fold (cexp N D e).
  set (c := cexp N D e) in *.
  set (r0 := shr_record_of_loc (N / D) (new_location D (N mod D))).
  assert (H0 : 0 <= shr_m r0).
  { unfold r0. rewrite shr_m_of_loc. apply Z.div_pos; lia. }
  destruct (shr_code r0 e (c - e) H0 ltac:(lia)) as (S1 & S2 & S3).
  destruct (shr r0 e (c - e)) as [r1 e1]. simpl fst in *; simpl snd in *. subst e1.
  rewrite rne_code, S3. unfold r0. rewrite code_of_loc.
  rewrite new_location_code by (try apply Z.mod_pos_bound; lia).
  replace (N / D * D + N mod D) with N by (pose proof (Z.div_mod N D); lia).
  assert (0 < 2 ^ (c - e)) by (apply Z.pow_pos_nonneg; lia).
  rewrite sc_sc by lia.
  replace (e + (c - e)) with c by lia. reflexivity.
Qed.

Lemma binary_round_aux_exact s m e :
  0 <= m -> e <= fexp (Zdigits2 m + e) ->
  binary_round_aux prec emax s m e loc_Exact = round_ratio s m 1 e.
Proof.
  intros Hm He.
  rewrite <- binary_round_aux_ratio; try lia.
  - rewrite Z.div_1_r, Z.mod_1_r. reflexivity.
  - unfold cexp. rewrite Z.div_1_r. assumption.
Qed.

(** The result depends on the value only, not on how it is scaled. *)
Lemma cexp_shift N D E k :
  0 <= N -> 0 < D -> 0 <= k -> E <= cexp N D E ->
  cexp (N * 2 ^ k) D (E - k) = cexp N D E.
Proof.
  intros HN HD Hk He. unfold cexp in *.
  assert (Pk : 0 < 2 ^ k) by (apply Z.pow_pos_nonneg; lia).
  destruct (Z.eq_dec (N / D) 0) as [Z0|NZ].
  - rewrite Z0 in *. simpl Zdigits2 in *.
    assert (E <= emin) by (unfold SpecFloat.fexp in He; lia).
    assert (ND : N < D).
    { destruct (Z.lt_ge_cases N D) as [L|G]; [assumption|].
      assert (1 <= N / D) by (apply Z.div_le_lower_bound; lia). lia. }
    assert (L : Zdigits2 (N * 2 ^ k / D) <= k).
    { destruct (Z.eq_dec (N * 2 ^ k / D) 0) as [->|NZ]; [simpl; lia|].
      assert (Q : 0 <= N * 2 ^ k / D) by (apply Z.div_pos; nia).
      assert (Qp : 0 < N * 2 ^ k / D) by lia.
      pose proof (Zdigits2_spec _ Qp) as S.
      assert (U : N * 2 ^ k / D < 2 ^ k) by (apply Z.div_lt_upper_bound; nia).
      destruct (Z.le_gt_cases (Zdigits2 (N * 2 ^ k / D)) k) as [|G]; [assumption|].
      assert (2 ^ k <= 2 ^ (Zdigits2 (N * 2 ^ k / D) - 1)) by (apply Z.pow_le_mono_r; lia).
      lia. }
    pose proof (Zdigits2_nonneg (N * 2 ^ k / D)).
    unfold SpecFloat.fexp. lia.
  - assert (Q : 0 <= N / D) by (apply Z.div_pos; lia).
    assert (Qp : 0 < N / D) by lia.
    pose proof (Zdigits2_spec _ Qp) as S. pose proof (Zdigits2_pos _ Qp) as Dp.
    set (d := Zdigits2 (N / D)) in *.
    assert (L1 : D * 2 ^ (d - 1) <= N) by (pose proof (Z.mul_div_le N D HD); nia).
    assert (L2 : N < D * 2 ^ d).
    { pose proof (Z.mod_pos_bound N D HD). pose proof (Z.div_mod N D). nia. }
    assert (Dk : Zdigits2 (N * 2 ^ k / D) = d + k).
    { apply Zdigits2_unique; [lia|]. split.
      - apply Z.div_le_lower_bound; [lia|].
        replace (d + k - 1) with (d - 1 + k) by lia. rewrite Z.pow_add_r by lia. nia.
      - apply Z.div_lt_upper_bound; [lia|]. rewrite Z.pow_add_r by lia. nia. }
    rewrite Dk. f_equal. lia.
Qed.

Lemma round_ratio_shift s N D E k :
  0 <= N -> 0 < D -> 0 <= k -> E <= cexp N D E ->
  round_ratio s (N * 2 ^ k) D (E - k) = round_ratio s N D E.
Proof.
  intros HN HD Hk He. unfold round_ratio. rewrite cexp_shift by assumption.
  set (c := cexp N D E) in *.
  replace (c - (E - k)) with (c - E + k) by lia.
  rewrite Z.pow_add_r by lia.
  assert (Pk : 0 < 2 ^ k) by (apply Z.pow_pos_nonneg; lia).
  assert (Pc : 0 < 2 ^ (c - E)) by (apply Z.pow_pos_nonneg; lia).
  replace (2 * (N * 2 ^ k)) with (2 ^ k * (2 * N)) by lia.
  replace (D * (2 ^ (c - E) * 2 ^ k)) with (2 ^ k * (D * 2 ^ (c - E))) by lia.
  rewrite sc_scale by nia. reflexivity.
Qed.

Lemma round_ratio_cancel s k N D E :
  0 < k -> 0 < D -> round_ratio s (k * N) (k * D) E = round_ratio s N D E.
Proof.
  intros Hk HD. unfold round_ratio, cexp.
  rewrite Z.div_mul_cancel_l by lia.
  set (c := fexp (Zdigits2 (N / D) + E)).
  replace (2 * (k * N)) with (k * (2 * N)) by lia.
  replace (k * D * 2 ^ (c - E)) with (k * (D * 2 ^ (c - E))) by lia.
  pose proof (Z.pow_nonneg 2 (c - E)).
  destruct (Z.eq_dec (2 ^ (c - E)) 0) as [Z0|NZ].
  - rewrite Z0, !Z.mul_0_r. do 2 f_equal. unfold sc.
    rewrite !Z.div_0_r, !Z.mod_0_r.
    destruct (Z.eqb_spec (k * (2 * N)) 0), (Z.eqb_spec (2 * N) 0); nia.
  - rewrite sc_scale by nia. reflexivity.
Qed.

(** Results are never negative when the sign is [false]. *)
Lemma finish_sign q c :
  rounded q c ->
  finish false q c = S754_zero false \/
  (exists m e, finish false q c = S754_finite false m e) \/
  finish false q c = S754_infinity false.
Proof.
  intros R. rewrite finish_rounded by assumption. unfold overflow_or.
  destruct (q =? 0); [now left|].
  destruct (q =? 2 ^ prec).
  - destruct (c + 1 <=? emax - prec); [right; left; eauto|now right; right].
  - destruct (c <=? emax - prec); [right; left; eauto|now right; right].
Qed.

(** *** The values of the format *)

Lemma bounded_inv m e :
  bounded prec emax m e = true ->
  emin <= e <= emax - prec /\ fexp (Zpos (digits2_pos m) + e) = e.
Proof.
  unfold bounded, canonical_mantissa. intros H.
  apply andb_true_iff in H. destruct H as (H1 & H2).
  apply Z.eqb_eq in H1. apply Z.leb_le in H2.
  pose proof (fexp_ge_emin (Zpos (digits2_pos m) + e)). lia.
Qed.

Lemma bounded_rounded m e : bounded prec emax m e = true -> rounded (Zpos m) e.
Proof.
  intros H. apply bounded_inv in H. destruct H as (He & Hc).
  pose proof (digits2_pos_spec m) as S.
  unfold SpecFloat.fexp in Hc.
  assert (Dp : Zpos (digits2_pos m) <= prec) by lia.
  assert (2 ^ Zpos (digits2_pos m) <= 2 ^ prec) by (apply Z.pow_le_mono_r; lia).
  repeat split; try lia.
  intros L. replace (prec - 1) with (Zpos (digits2_pos m) - 1) by lia. lia.
Qed.

(** A value of the format rounds to itself. *)
Lemma round_ratio_representable s m e :
  bounded prec emax m e = true ->
  round_ratio s (Zpos m * 2 ^ (e - emin)) 1 emin = S754_finite s m e.
Proof.
  intros B. pose proof (bounded_rounded m e B) as R.
  destruct (bounded_inv m e B) as (He & Hc).
  replace emin with (e - (e - emin)) at 2 by lia.
  rewrite round_ratio_shift; try lia.
  2:{ unfold cexp. rewrite Z.div_1_r. simpl Zdigits2. lia. }
  unfold round_ratio, cexp. rewrite Z.div_1_r. simpl Zdigits2. rewrite Hc.
  rewrite Z.sub_diag. change (2 ^ 0) with 1.
  replace (sc (2 * Zpos m) (1 * 1)) with (4 * Zpos m).
  2:{ unfold sc. change (1 * 1) with 1. rewrite Z.div_1_r, Z.mod_1_r.
      change (if 0 =? 0 then 0 else 1) with 0. lia. }
  rewrite rne_exact, finish_rounded by assumption.
  destruct R as (_ & Hq & _).
  pose proof (digits2_pos_spec m) as S. unfold SpecFloat.fexp in Hc.
  assert (Zpos m < 2 ^ prec).
  { assert (2 ^ Zpos (digits2_pos m) <= 2 ^ prec) by (apply Z.pow_le_mono_r; lia). lia. }
  destruct (Z.eqb_spec (Zpos m) 0); [lia|].
  destruct (Z.eqb_spec (Zpos m) (2 ^ prec)); [lia|].
  unfold overflow_or. simpl Z.to_pos.
  destruct (Z.leb_spec e (emax - prec)); [reflexivity|lia].
Qed.


Lemma bounded_lt m e : bounded prec emax m e = true -> Zpos m < 2 ^ prec.
Proof.
  intros B. destruct (bounded_inv m e B) as (He & Hc).
  pose proof (digits2_pos_spec m) as S. unfold SpecFloat.fexp in Hc.
  assert (2 ^ Zpos (digits2_pos m) <= 2 ^ prec) by (apply Z.pow_le_mono_r; lia). lia.
Qed.

Lemma Zv_pos m e : bounded prec emax m e = true -> 0 < Zpos m * 2 ^ (e - emin).
Proof.
  intros B. destruct (bounded_inv m e B) as (He & _).
  assert (0 < 2 ^ (e - emin)) by (apply Z.pow_pos_nonneg; lia). nia.
Qed.

(** Numbers in canonical form are ordered by their exponents first. *)
Lemma canonical_lt m1 e1 m2 e2 :
  bounded prec emax m1 e1 = true -> bounded prec emax m2 e2 = true -> e1 < e2 ->
  Zpos m1 * 2 ^ (e1 - emin) < Zpos m2 * 2 ^ (e2 - emin).
Proof.
  intros B1 B2 L.
  pose proof (bounded_lt m1 e1 B1) as L1.
  destruct (bounded_inv m1 e1 B1) as (He1 & _).
  destruct (bounded_rounded m2 e2 B2) as (_ & _ & G2). specialize (G2 ltac:(lia)).
  assert (P : 0 < 2 ^ (e1 - emin)) by (apply Z.pow_pos_nonneg; lia).
  assert (E : 2 ^ (e2 - emin) = 2 ^ (e1 - emin) * 2 ^ (e2 - e1)).
  { rewrite <- Z.pow_add_r by lia. f_equal. lia. }
  assert (T : 2 ^ 1 <= 2 ^ (e2 - e1)) by (apply Z.pow_le_mono_r; lia).
  change (2 ^ 1) with 2 in T.
  assert (P2 : 2 ^ prec = 2 * 2 ^ (prec - 1)).
  { rewrite <- Z.pow_succ_r by lia. f_equal. lia. }
  rewrite E. nia.
Qed.

Lemma canonical_le m1 m2 e :
  emin <= e -> (m1 <= m2)%positive ->
  Zpos m1 * 2 ^ (e - emin) <= Zpos m2 * 2 ^ (e - emin).
Proof.
  intros He L. assert (0 < 2 ^ (e - emin)) by (apply Z.pow_pos_nonneg; lia). nia.
Qed.

(** The order of the format is the order of the values. *)
Lemma SFleb_Zv x y :
  SpecFloat.valid_binary prec emax x = true -> SpecFloat.valid_binary prec emax y = true ->
  is_fin x = true -> is_fin y = true ->
  SFleb x y = true -> Zv x <= Zv y.
Proof.
  intros Vx Vy Fx Fy.
  destruct x as [sx| | |sx mx ex], y as [sy| | |sy my ey]; try discriminate;
    simpl in Vx, Vy; unfold SFleb, SFcompare; cbv beta iota delta [Zv].
  - pose proof (Zv_pos my ey Vy). destruct sy; cbv beta iota delta [cond_Zopp CompOpp]; [discriminate|lia].
  - pose proof (Zv_pos mx ex Vx). destruct sx; cbv beta iota delta [cond_Zopp CompOpp]; [lia|discriminate].
  - pose proof (Zv_pos my ey Vy). pose proof (Zv_pos mx ex Vx).
    destruct (bounded_inv mx ex Vx) as (Hex & _).
    destruct sx, sy; cbv beta iota delta [cond_Zopp CompOpp]; try lia; try discriminate.
    + destruct (Z.compare_spec ex ey) as [E|L|G]; try discriminate.
      * subst. change (Pos.compare_cont Eq mx my) with (Pos.compare mx my).
        destruct (Pos.compare_spec mx my) as [E|L|G]; cbv beta iota delta [cond_Zopp CompOpp]; try discriminate; intros _.
        -- subst. lia.
        -- pose proof (canonical_le my mx ey ltac:(lia) ltac:(lia)). lia.
      * intros _. pose proof (canonical_lt my ey mx ex Vy Vx G). lia.
    + destruct (Z.compare_spec ex ey) as [E|L|G]; try discriminate.
      * subst. change (Pos.compare_cont Eq mx my) with (Pos.compare mx my).
        destruct (Pos.compare_spec mx my) as [E|L|G]; cbv beta iota delta [cond_Zopp CompOpp]; try discriminate; intros _.
        -- subst. lia.
        -- pose proof (canonical_le mx my ey ltac:(lia) ltac:(lia)). lia.
      * intros _. pose proof (canonical_lt mx ex my ey Vx Vy L). lia.
Qed.

Lemma SFltb_Zv x y :
  SpecFloat.valid_binary prec emax x = true -> SpecFloat.valid_binary prec emax y = true ->
  is_fin x = true -> is_fin y = true ->
  SFltb x y = true -> Zv x < Zv y.
Proof.
  intros Vx Vy Fx Fy.
  destruct x as [sx| | |sx mx ex], y as [sy| | |sy my ey]; try discriminate;
    simpl in Vx, Vy; unfold SFltb, SFcompare; cbv beta iota delta [Zv].
  - pose proof (Zv_pos my ey Vy). destruct sy; cbv beta iota delta [cond_Zopp CompOpp]; [discriminate|lia].
  - pose proof (Zv_pos mx ex Vx). destruct sx; cbv beta iota delta [cond_Zopp CompOpp]; [lia|discriminate].
  - pose proof (Zv_pos my ey Vy). pose proof (Zv_pos mx ex Vx).
    destruct (bounded_inv mx ex Vx) as (Hex & _).
    assert (P : 0 < 2 ^ (ex - emin)) by (apply Z.pow_pos_nonneg; lia).
    destruct sx, sy; cbv beta iota delta [cond_Zopp CompOpp]; try lia; try discriminate.
    + destruct (Z.compare_spec ex ey) as [E|L|G]; try discriminate.
      * subst. change (Pos.compare_cont Eq mx my) with (Pos.compare mx my).
        destruct (Pos.compare_spec mx my) as [E|L|G]; cbv beta iota delta [cond_Zopp CompOpp]; try discriminate; intros _.
        nia.
      * intros _. pose proof (canonical_lt my ey mx ex Vy Vx G). lia.
    + destruct (Z.compare_spec ex ey) as [E|L|G]; try discriminate.
      * subst. change (Pos.compare_cont Eq mx my) with (Pos.compare mx my).
        destruct (Pos.compare_spec mx my) as [E|L|G]; cbv beta iota delta [cond_Zopp CompOpp]; try discriminate; intros _.
        nia.
      * intros _. pose proof (canonical_lt mx ex my ey Vx Vy L). lia.
Qed.

(** *** Sums and differences *)

Lemma Pos_iter_xO m d : Zpos (Pos.iter xO m d) = Zpos m * 2 ^ Zpos d.
Proof.
  induction d as [|d IH] using Pos.peano_ind.
  - simpl. lia.
  - rewrite Pos.iter_succ, Pos2Z.inj_succ, Z.pow_succ_r by lia.
    rewrite Pos2Z.inj_xO, IH. lia.
Qed.

Lemma shl_align_le m e e' :
  e' <= e -> Zpos (fst (shl_align m e e')) = Zpos m * 2 ^ (e - e') /\
             snd (shl_align m e e') = e'.
Proof.
  intros L. unfold shl_align.
  destruct (e' - e) as [|d|d] eqn:E; try lia; simpl fst; simpl snd.
  - replace (e - e') with 0 by lia. change (2 ^ 0) with 1. lia.
  - rewrite Pos_iter_xO. replace (e - e') with (Zpos d) by lia. lia.
Qed.

Lemma shl_align_ge m e e' : e <= e' -> shl_align m e e' = (m, e).
Proof.
  intros L. unfold shl_align. destruct (e' - e) as [|d|d] eqn:E; try lia; reflexivity.
Qed.

Lemma binary_round_ratio s p e :
  emin <= e ->
  binary_round prec emax s p e = round_ratio s (Zpos p * 2 ^ (e - emin)) 1 emin.
Proof.
  intros He. unfold binary_round.
  set (c0 := fexp (Zpos (digits2_pos p) + e)).
  pose proof (fexp_ge_emin (Zpos (digits2_pos p) + e)) as Hc. fold c0 in Hc.
  destruct (Z.le_gt_cases e c0) as [L|G].
  - rewrite shl_align_ge by assumption.
    rewrite binary_round_aux_exact by (simpl Zdigits2; fold c0; lia).
    assert (C : e <= cexp (Zpos p) 1 e).
    { unfold cexp. rewrite Z.div_1_r. simpl Zdigits2. fold c0. assumption. }
    rewrite <- (round_ratio_shift s (Zpos p) 1 e (e - emin)) by lia.
    f_equal. lia.
  - destruct (shl_align_le p e c0 ltac:(lia)) as (E1 & E2).
    destruct (shl_align p e c0) as [mz ez]. simpl fst in E1. simpl snd in E2. subst ez.
    assert (Dz : Zdigits2 (Zpos mz) + c0 = Zpos (digits2_pos p) + e).
    { rewrite E1. rewrite Zdigits2_shift by lia. simpl Zdigits2. lia. }
    rewrite binary_round_aux_exact by (try rewrite Dz; fold c0; lia).
    assert (C : c0 <= cexp (Zpos mz) 1 c0).
    { unfold cexp. rewrite Z.div_1_r, Dz. fold c0. lia. }
    rewrite <- (round_ratio_shift s (Zpos mz) 1 c0 (c0 - emin)) by lia.
    f_equal; [|lia].
    rewrite E1, <- Z.mul_assoc, <- Z.pow_add_r by lia. do 2 f_equal. lia.
Qed.

Lemma binary_normalize_ratio M e :
  emin <= e -> M <> 0 ->
  binary_normalize prec emax M e false
  = round_ratio (M <? 0) (Z.abs M * 2 ^ (e - emin)) 1 emin.
Proof.
  intros He HM. destruct M as [|p|p]; try lia; simpl binary_normalize.
  - apply binary_round_ratio, He.
  - apply binary_round_ratio, He.
Qed.

Lemma Zv_aligned s m e ez :
  emin <= ez -> ez <= e ->
  cond_Zopp s (Zpos (fst (shl_align m e ez))) * 2 ^ (ez - emin)
  = Zv (S754_finite s m e).
Proof.
  intros H1 H2. destruct (shl_align_le m e ez H2) as (E & _). rewrite E.
  unfold Zv.
  assert (P : 2 ^ (e - emin) = 2 ^ (e - ez) * 2 ^ (ez - emin)).
  { rewrite <- Z.pow_add_r by lia. f_equal. lia. }
  rewrite P. destruct s; cbv beta iota delta [cond_Zopp]; lia.
Qed.

(** A difference of two finite numbers is the rounded difference of their
    values. *)
Lemma SFsub_fin x z :
  SpecFloat.valid_binary prec emax x = true -> SpecFloat.valid_binary prec emax z = true ->
  is_fin x = true -> is_fin z = true ->
  (Zv x - Zv z = 0 -> exists s, SFsub prec emax x z = S754_zero s) /\
  (0 < Zv x - Zv z ->
   SFsub prec emax x z = round_ratio false (Zv x - Zv z) 1 emin).
Proof.
  intros Vx Vz Fx Fz.
  destruct x as [sx| | |sx mx ex], z as [sz| | |sz mz ez]; try discriminate;
    simpl in Vx, Vz.
  - split; [|simpl; lia]. intros _. destruct sx, sz; simpl; eauto.
  - pose proof (Zv_pos mz ez Vz). unfold Zv. split.
    + destruct sz; cbv beta iota delta [cond_Zopp]; lia.
    + destruct sz; cbv beta iota delta [cond_Zopp]; [intros _|lia].
      cbn [SFsub negb].
      rewrite <- (round_ratio_representable false mz ez Vz). f_equal. lia.
  - pose proof (Zv_pos mx ex Vx). unfold Zv. split.
    + destruct sx; cbv beta iota delta [cond_Zopp]; lia.
    + destruct sx; cbv beta iota delta [cond_Zopp]; [lia|intros _].
      cbn [SFsub].
      rewrite <- (round_ratio_representable false mx ex Vx). f_equal. lia.
  - destruct (bounded_inv mx ex Vx) as (Hex & _).
    destruct (bounded_inv mz ez Vz) as (Hez & _).
    set (e0 := Z.min ex ez).
    assert (A1 := Zv_aligned sx mx ex e0 ltac:(lia) ltac:(lia)).
    assert (A2 := Zv_aligned sz mz ez e0 ltac:(lia) ltac:(lia)).
    assert (P : 0 < 2 ^ (e0 - emin)) by (apply Z.pow_pos_nonneg; lia).
    unfold SFsub. fold e0.
    set (M := cond_Zopp sx (Zpos (fst (shl_align mx ex e0)))
              - cond_Zopp sz (Zpos (fst (shl_align mz ez e0)))) in *.
    assert (EM : M * 2 ^ (e0 - emin) = Zv (S754_finite sx mx ex) - Zv (S754_finite sz mz ez)).
    { unfold M. rewrite Z.mul_sub_distr_r. lia. }
    rewrite <- EM. split.
    + intros Z0. assert (M = 0) by nia. exists false. rewrite H. reflexivity.
    + intros Pos. assert (0 < M) by nia.
      rewrite binary_normalize_ratio by lia.
      replace (M <? 0) with false by (symmetry; apply Z.ltb_ge; lia).
      rewrite Z.abs_eq by lia. reflexivity.
Qed.

Lemma round_ratio_nonneg N D E s :
  0 <= N -> 0 < D -> E <= emin ->
  SFleb (S754_zero s) (round_ratio false N D E) = true.
Proof.
  intros HN HD HE. unfold round_ratio.
  destruct (finish_sign _ _ (rounded_ratio N D E HN HD HE)) as [->|[(m & e & ->)| ->]];
    reflexivity.
Qed.

(** Subtraction is monotone in the exact difference. *)
Lemma SFsub_le x1 z1 x2 z2 :
  SpecFloat.valid_binary prec emax x1 = true -> SpecFloat.valid_binary prec emax z1 = true ->
  SpecFloat.valid_binary prec emax x2 = true -> SpecFloat.valid_binary prec emax z2 = true ->
  is_fin x1 = true -> is_fin z1 = true -> is_fin x2 = true -> is_fin z2 = true ->
  0 <= Zv x1 - Zv z1 <= Zv x2 - Zv z2 ->
  SFleb (SFsub prec emax x1 z1) (SFsub prec emax x2 z2) = true.
Proof.
  intros V1 V2 V3 V4 F1 F2 F3 F4 H.
  destruct (SFsub_fin x1 z1 V1 V2 F1 F2) as (Z1 & P1).
  destruct (SFsub_fin x2 z2 V3 V4 F3 F4) as (Z2 & P2).
  destruct (Z.eq_dec (Zv x1 - Zv z1) 0) as [E1|N1].
  - destruct (Z1 E1) as (s1 & ->).
    destruct (Z.eq_dec (Zv x2 - Zv z2) 0) as [E2|N2].
    + destruct (Z2 E2) as (s2 & ->). reflexivity.
    + rewrite P2 by lia. apply round_ratio_nonneg; lia.
  - rewrite P1, P2 by lia. apply round_ratio_mono; lia.
Qed.


(** *** Products *)

Lemma Zdigits2_mul_ge a b :
  0 < a -> 0 < b -> Zdigits2 a + Zdigits2 b - 1 <= Zdigits2 (a * b).
Proof.
  intros Ha Hb.
  pose proof (Zdigits2_spec a Ha) as Sa. pose proof (Zdigits2_spec b Hb) as Sb.
  pose proof (Zdigits2_pos a Ha) as Pa. pose proof (Zdigits2_pos b Hb) as Pb.
  assert (Hab : 0 < a * b) by nia.
  pose proof (Zdigits2_spec _ Hab) as Sab.
  destruct (Z.le_gt_cases (Zdigits2 a + Zdigits2 b - 1) (Zdigits2 (a * b))) as [|G];
    [assumption|].
  assert (2 ^ Zdigits2 (a * b) <= 2 ^ (Zdigits2 a - 1 + (Zdigits2 b - 1)))
    by (apply Z.pow_le_mono_r; lia).
  rewrite Z.pow_add_r in H by lia.
  assert (0 < 2 ^ (Zdigits2 a - 1)) by (apply Z.pow_pos_nonneg; lia).
  assert (0 < 2 ^ (Zdigits2 b - 1)) by (apply Z.pow_pos_nonneg; lia).
  nia.
Qed.

(** A product of two finite numbers is the rounded product of their values. *)
Lemma SFmul_fin x y :
  SpecFloat.valid_binary prec emax x = true -> SpecFloat.valid_binary prec emax y = true ->
  is_fin x = true -> is_fin y = true ->
  (Zv x * Zv y = 0 -> exists s, SFmul prec emax x y = S754_zero s) /\
  (0 < Zv x * Zv y ->
   SFmul prec emax x y = round_ratio false (Zv x * Zv y) 1 (2 * emin)).
Proof.
  intros Vx Vy Fx Fy.
  destruct x as [sx| | |sx mx ex], y as [sy| | |sy my ey]; try discriminate;
    simpl in Vx, Vy.
  - split; [|simpl; lia]. intros _. simpl. eauto.
  - split; [|simpl; lia]. intros _. simpl. eauto.
  - split; [|unfold Zv; lia]. intros _. simpl. eauto.
  - pose proof (Zv_pos mx ex Vx) as Px. pose proof (Zv_pos my ey Vy) as Py.
    destruct (bounded_inv mx ex Vx) as (Hex & Cx).
    destruct (bounded_inv my ey Vy) as (Hey & Cy).
    pose proof emin_le_0 as E0.
    assert (V : Zv (S754_finite sx mx ex) * Zv (S754_finite sy my ey)
                = cond_Zopp (xorb sx sy) (Zpos (mx * my) * 2 ^ (ex + ey - 2 * emin))).
    { unfold Zv. replace (ex + ey - 2 * emin) with ((ex - emin) + (ey - emin)) by lia.
      rewrite Z.pow_add_r, Pos2Z.inj_mul by lia.
      destruct sx, sy; cbv beta iota delta [cond_Zopp xorb]; lia. }
    assert (P : 0 < Zpos (mx * my) * 2 ^ (ex + ey - 2 * emin)).
    { assert (0 < 2 ^ (ex + ey - 2 * emin)) by (apply Z.pow_pos_nonneg; lia). nia. }
    rewrite V. split.
    + destruct (xorb sx sy); cbv beta iota delta [cond_Zopp]; lia.
    + destruct (xorb sx sy) eqn:X; cbv beta iota delta [cond_Zopp]; [lia|intros _].
      unfold SFmul. rewrite X.
      pose proof (Zdigits2_mul_ge (Zpos mx) (Zpos my) ltac:(lia) ltac:(lia)) as DG.
      rewrite <- Pos2Z.inj_mul in DG. simpl Zdigits2 in DG.
      pose proof (digits2_pos_spec mx). pose proof (digits2_pos_spec my).
      assert (C : ex + ey <= cexp (Zpos (mx * my)) 1 (ex + ey)).
      { unfold cexp. rewrite Z.div_1_r. simpl Zdigits2.
        unfold SpecFloat.fexp in *. lia. }
      rewrite binary_round_aux_exact.
      2: lia.
      2:{ unfold cexp in C. rewrite Z.div_1_r in C. exact C. }
      rewrite <- (round_ratio_shift false (Zpos (mx * my)) 1 (ex + ey) (ex + ey - 2 * emin))
        by lia.
      f_equal. lia.
Qed.

Lemma SFmul_le x1 y1 x2 y2 :
  SpecFloat.valid_binary prec emax x1 = true -> SpecFloat.valid_binary prec emax y1 = true ->
  SpecFloat.valid_binary prec emax x2 = true -> SpecFloat.valid_binary prec emax y2 = true ->
  is_fin x1 = true -> is_fin y1 = true -> is_fin x2 = true -> is_fin y2 = true ->
  0 <= Zv x1 * Zv y1 <= Zv x2 * Zv y2 ->
  SFleb (SFmul prec emax x1 y1) (SFmul prec emax x2 y2) = true.
Proof.
  intros V1 V2 V3 V4 F1 F2 F3 F4 H. pose proof emin_le_0 as E0.
  destruct (SFmul_fin x1 y1 V1 V2 F1 F2) as (Z1 & P1).
  destruct (SFmul_fin x2 y2 V3 V4 F3 F4) as (Z2 & P2).
  destruct (Z.eq_dec (Zv x1 * Zv y1) 0) as [E1|N1].
  - destruct (Z1 E1) as (s1 & ->).
    destruct (Z.eq_dec (Zv x2 * Zv y2) 0) as [E2|N2].
    + destruct (Z2 E2) as (s2 & ->). reflexivity.
    + rewrite P2 by lia. apply round_ratio_nonneg; lia.
  - rewrite P1, P2 by lia. apply round_ratio_mono; lia.
Qed.

(** *** Quotients *)

Lemma SFdiv_core_binary_eq mx ex my ey :
  let e' := Z.min (fexp (Zpos (digits2_pos mx) + ex - (Zpos (digits2_pos my) + ey)))
                  (ex - ey) in
  let m' := Zpos mx * 2 ^ (ex - ey - e') in
  SFdiv_core_binary prec emax (Zpos mx) ex (Zpos my) ey
  = (m' / Zpos my, e', new_location (Zpos my) (m' mod Zpos my)).
Proof.
  intros e' m'. unfold SFdiv_core_binary. simpl Zdigits2. fold e'.
  assert (S : 0 <= ex - ey - e') by (unfold e'; lia).
  assert (M : match ex - ey - e' with
              | Z0 => Zpos mx
              | Zpos _ => Z.shiftl (Zpos mx) (ex - ey - e')
              | Zneg _ => 0
              end = m').
  { unfold m'. destruct (ex - ey - e') as [|p|p] eqn:E; try lia.
    apply Z.shiftl_mul_pow2. lia. }
  rewrite M. unfold Z.div, Z.modulo.
  destruct (Z.div_eucl m' (Zpos my)) as [q r]. reflexivity.
Qed.

(** A quotient by a positive finite number is the rounded quotient of the
    values. *)
Lemma SFdiv_fin x my ey :
  SpecFloat.valid_binary prec emax x = true -> bounded prec emax my ey = true ->
  is_fin x = true ->
  (Zv x = 0 -> exists s, SFdiv prec emax x (S754_finite false my ey) = S754_zero s) /\
  (0 < Zv x ->
   SFdiv prec emax x (S754_finite false my ey)
   = round_ratio false (Zv x * 2 ^ (- emin)) (Zpos my) (2 * emin - ey)).
Proof.
  intros Vx Vy Fx.
  destruct x as [sx| | |sx mx ex]; try discriminate; simpl in Vx.
  - split; [|simpl; lia]. intros _. simpl. eauto.
  - pose proof (Zv_pos mx ex Vx) as Px.
    destruct (bounded_inv mx ex Vx) as (Hex & Cx).
    destruct (bounded_inv my ey Vy) as (Hey & Cy).
    pose proof emin_le_0 as E0.
    unfold Zv. split; [destruct sx; cbv beta iota delta [cond_Zopp]; lia|].
    destruct sx; cbv beta iota delta [cond_Zopp]; [lia|intros _].
    unfold SFdiv. rewrite SFdiv_core_binary_eq.
    set (e' := Z.min (fexp (Zpos (digits2_pos mx) + ex - (Zpos (digits2_pos my) + ey)))
                     (ex - ey)).
    set (s := ex - ey - e').
    assert (Hs : 0 <= s) by (unfold s, e'; lia).
    assert (Ps : 0 < 2 ^ s) by (apply Z.pow_pos_nonneg; lia).
    cbv beta iota zeta. change (xorb false false) with false.
    pose proof (digits2_pos_spec mx) as Sx. pose proof (digits2_pos_spec my) as Sy.
    set (dx := Zpos (digits2_pos mx)) in *. set (dy := Zpos (digits2_pos my)) in *.
    assert (DQ : dx + s - dy <= Zdigits2 (Zpos mx * 2 ^ s / Zpos my)).
    { destruct (Z.le_gt_cases (dx + s - dy) 0) as [L|G].
      - pose proof (Zdigits2_nonneg (Zpos mx * 2 ^ s / Zpos my)). lia.
      - set (t := dx + s - dy) in *.
        assert (T : 2 ^ (t - 1) <= Zpos mx * 2 ^ s / Zpos my).
        { apply Z.div_le_lower_bound; [lia|].
          assert (E : 2 ^ (dx - 1) * 2 ^ s = 2 ^ dy * 2 ^ (t - 1)).
          { rewrite <- !Z.pow_add_r by (unfold dx, dy in *; lia). f_equal. unfold t. lia. }
          assert (0 < 2 ^ (t - 1)) by (apply Z.pow_pos_nonneg; lia).
          nia. }
        assert (Dt : Zdigits2 (2 ^ (t - 1)) = t).
        { apply Zdigits2_unique; [lia|]. split; [lia|].
          apply Z.pow_lt_mono_r; lia. }
        rewrite <- Dt at 1. apply Zdigits2_mono. split; [|assumption].
        apply Z.pow_nonneg. lia. }
    assert (C : e' <= cexp (Zpos mx * 2 ^ s) (Zpos my) e').
    { unfold cexp.
      apply Z.le_trans with (fexp (dx + ex - (dy + ey))); [unfold e'; lia|].
      apply fexp_mono. unfold s in DQ. fold s in DQ. unfold s in *. lia. }
    rewrite binary_round_aux_ratio by (try nia; try lia; exact C).
    rewrite <- (round_ratio_shift false (Zpos mx * 2 ^ s) (Zpos my) e' (e' - (2 * emin - ey))).
    + f_equal; [|lia].
      rewrite <- !Z.mul_assoc, <- !Z.pow_add_r by (unfold e', SpecFloat.fexp; lia).
      do 2 f_equal. unfold s. lia.
    + nia.
    + lia.
    + unfold e', SpecFloat.fexp. lia.
    + exact C.
Qed.

Lemma SFdiv_le x1 x2 my ey :
  SpecFloat.valid_binary prec emax x1 = true -> SpecFloat.valid_binary prec emax x2 = true ->
  bounded prec emax my ey = true ->
  is_fin x1 = true -> is_fin x2 = true ->
  0 <= Zv x1 <= Zv x2 ->
  SFleb (SFdiv prec emax x1 (S754_finite false my ey))
        (SFdiv prec emax x2 (S754_finite false my ey)) = true.
Proof.
  intros V1 V2 Vy F1 F2 H. pose proof emin_le_0 as E0.
  destruct (bounded_inv my ey Vy) as (Hey & _).
  destruct (SFdiv_fin x1 my ey V1 Vy F1) as (Z1 & P1).
  destruct (SFdiv_fin x2 my ey V2 Vy F2) as (Z2 & P2).
  assert (Pe : 0 < 2 ^ (- emin)) by (apply Z.pow_pos_nonneg; lia).
  destruct (Z.eq_dec (Zv x1) 0) as [E1|N1].
  - destruct (Z1 E1) as (s1 & ->).
    destruct (Z.eq_dec (Zv x2) 0) as [E2|N2].
    + destruct (Z2 E2) as (s2 & ->). reflexivity.
    + rewrite P2 by lia. apply round_ratio_nonneg; nia.
  - rewrite P1, P2 by lia. apply round_ratio_mono; nia.
Qed.

(** A positive finite number divided by itself is one. *)
Lemma SFdiv_self my ey m1 e1 :
  bounded prec emax my ey = true -> bounded prec emax m1 e1 = true ->
  Zpos m1 * 2 ^ (e1 - emin) = 2 ^ (- emin) ->
  SFdiv prec emax (S754_finite false my ey) (S754_finite false my ey)
  = S754_finite false m1 e1.
Proof.
  intros Vy V1 One. pose proof emin_le_0 as E0.
  destruct (bounded_inv my ey Vy) as (Hey & _).
  destruct (SFdiv_fin (S754_finite false my ey) my ey Vy Vy eq_refl) as (_ & P).
  pose proof (Zv_pos my ey Vy) as Py.
  rewrite P by exact Py.
  rewrite <- (round_ratio_representable false m1 e1 V1), One.
  unfold Zv, cond_Zopp.
  replace (Zpos my * 2 ^ (ey - emin) * 2 ^ (- emin))
    with (Zpos my * (2 ^ (- emin) * 2 ^ (ey - emin))) by lia.
  replace (Zpos my) with (Zpos my * 1) at 2 by lia.
  rewrite round_ratio_cancel by lia.
  replace (2 * emin - ey) with (emin - (ey - emin)) by lia.
  assert (Pe : 0 < 2 ^ (- emin)) by (apply Z.pow_pos_nonneg; lia).
  apply round_ratio_shift; try lia.
  apply fexp_ge_emin.
Qed.


(** *** Signs of the results *)

Lemma round_ratio_pos N :
  0 < N -> SFltb (S754_zero false) (round_ratio false N 1 emin) = true.
Proof.
  intros HN. unfold round_ratio.
  pose proof (rounded_ratio N 1 emin ltac:(lia) ltac:(lia) ltac:(lia)) as R.
  rewrite finish_rounded by exact R.
  set (c := cexp N 1 emin) in *.
  set (q := rne (sc (2 * N) (1 * 2 ^ (c - emin)))) in *.
  assert (Q : 0 < q).
  { destruct R as (Hc & Hq & Hn).
    destruct (Z.eq_dec c emin) as [E|NE].
    - unfold q. rewrite E, Z.sub_diag. change (1 * 2 ^ 0) with 1.
      replace (sc (2 * N) 1) with (4 * N).
      2:{ unfold sc. rewrite Z.div_1_r, Z.mod_1_r.
          change (if 0 =? 0 then 0 else 1) with 0. lia. }
      rewrite rne_exact. lia.
    - specialize (Hn ltac:(lia)).
      assert (0 < 2 ^ (prec - 1)) by (apply Z.pow_pos_nonneg; lia). lia. }
  destruct (Z.eqb_spec q 0); [lia|].
  unfold overflow_or.
  destruct (q =? 2 ^ prec); [destruct (c + 1 <=? emax - prec)|destruct (c <=? emax - prec)];
    reflexivity.
Qed.

Lemma SFsub_nonneg x z :
  SpecFloat.valid_binary prec emax x = true -> SpecFloat.valid_binary prec emax z = true ->
  is_fin x = true -> is_fin z = true ->
  0 <= Zv x - Zv z -> SFleb (S754_zero false) (SFsub prec emax x z) = true.
Proof.
  intros Vx Vz Fx Fz H. destruct (SFsub_fin x z Vx Vz Fx Fz) as (Z0 & P).
  destruct (Z.eq_dec (Zv x - Zv z) 0) as [E|N].
  - destruct (Z0 E) as (s & ->). reflexivity.
  - rewrite P by lia. apply round_ratio_nonneg; lia.
Qed.

Lemma SFsub_pos x z :
  SpecFloat.valid_binary prec emax x = true -> SpecFloat.valid_binary prec emax z = true ->
  is_fin x = true -> is_fin z = true ->
  0 < Zv x - Zv z -> SFltb (S754_zero false) (SFsub prec emax x z) = true.
Proof.
  intros Vx Vz Fx Fz H. destruct (SFsub_fin x z Vx Vz Fx Fz) as (_ & P).
  rewrite P by lia. apply round_ratio_pos. lia.
Qed.

Lemma SFmul_nonneg x y :
  SpecFloat.valid_binary prec emax x = true -> SpecFloat.valid_binary prec emax y = true ->
  is_fin x = true -> is_fin y = true ->
  0 <= Zv x * Zv y -> SFleb (S754_zero false) (SFmul prec emax x y) = true.
Proof.
  intros Vx Vy Fx Fy H. pose proof emin_le_0.
  destruct (SFmul_fin x y Vx Vy Fx Fy) as (Z0 & P).
  destruct (Z.eq_dec (Zv x * Zv y) 0) as [E|N].
  - destruct (Z0 E) as (s & ->). reflexivity.
  - rewrite P by lia. apply round_ratio_nonneg; lia.
Qed.

Lemma SFdiv_nonneg x my ey :
  SpecFloat.valid_binary prec emax x = true -> bounded prec emax my ey = true ->
  is_fin x = true -> 0 <= Zv x ->
  SFleb (S754_zero false) (SFdiv prec emax x (S754_finite false my ey)) = true.
Proof.
  intros Vx Vy Fx H. pose proof emin_le_0.
  destruct (bounded_inv my ey Vy) as (Hey & _).
  destruct (SFdiv_fin x my ey Vx Vy Fx) as (Z0 & P).
  assert (Pe : 0 < 2 ^ (- emin)) by (apply Z.pow_pos_nonneg; lia).
  destruct (Z.eq_dec (Zv x) 0) as [E|N].
  - destruct (Z0 E) as (s & ->). reflexivity.
  - rewrite P by lia. apply round_ratio_nonneg; nia.
Qed.

End Format.

End RoundingFacts.

(** ** Binary64 arithmetic keeps the order *)

Module B64.

Import Rounding RoundingFacts.

Lemma prec64_gt_0 : (0 < prec)%Z.
Proof. reflexivity. Qed.

Lemma prec64_lt_emax : (prec < emax)%Z.
Proof. reflexivity. Qed.

Local Abbreviation val x := (Zv prec emax (Prim2SF x)).

Ltac format :=
  first [ exact prec64_gt_0 | exact prec64_lt_emax | apply Prim2SF_valid | assumption ].

Lemma fin_SF x : is_finite x = true -> is_fin (Prim2SF x) = true.
Proof.
  unfold is_finite, is_nan, is_infinity. rewrite !eqb_spec, abs_spec, Prim2SF_infinity.
  destruct (Prim2SF x) as [s|[]| |s m e]; cbn; try discriminate; reflexivity.
Qed.

Lemma SF_fin x : is_fin (Prim2SF x) = true -> is_finite x = true.
Proof.
  unfold is_finite, is_nan, is_infinity. rewrite !eqb_spec, abs_spec, Prim2SF_infinity.
  intros F. unfold SFeqb at 1.
  rewrite SFcompare_refl by (intros E; rewrite E in F; discriminate).
  destruct (Prim2SF x) as [s|[]| |s m e]; try discriminate; reflexivity.
Qed.

Lemma val_zero : val 0 = 0%Z.
Proof. rewrite Prim2SF_zero. reflexivity. Qed.

Lemma zero_finite : is_finite 0 = true.
Proof. reflexivity. Qed.

Lemma one_finite : is_finite 1 = true.
Proof. reflexivity. Qed.

(** The order of finite numbers is the order of their values. *)
Lemma le_val x y :
  is_finite x = true -> is_finite y = true -> (x <=? y) = true -> (val x <= val y)%Z.
Proof.
  intros Fx Fy. rewrite leb_spec. apply fin_SF in Fx, Fy.
  apply SFleb_Zv; format.
Qed.

Lemma lt_val x y :
  is_finite x = true -> is_finite y = true -> (x <? y) = true -> (val x < val y)%Z.
Proof.
  intros Fx Fy. rewrite ltb_spec. apply fin_SF in Fx, Fy.
  apply SFltb_Zv; format.
Qed.

(** A number between two finite numbers is finite. *)
Lemma between_finite a x b :
  is_finite a = true -> is_finite b = true ->
  (a <=? x) = true -> (x <=? b) = true -> is_finite x = true.
Proof.
  intros Fa Fb. rewrite !leb_spec. apply fin_SF in Fa, Fb. intros A B.
  apply SF_fin.
  destruct (Prim2SF a) as [?|?| |? ? ?], (Prim2SF b) as [?|?| |? ? ?]; try discriminate;
    destruct (Prim2SF x) as [?|[]| |? ? ?]; try discriminate; reflexivity.
Qed.

Lemma strictly_between_finite a x b :
  (a <? x) = true -> (x <? b) = true -> is_finite x = true.
Proof.
  rewrite !ltb_spec. intros A B. apply SF_fin.
  destruct (Prim2SF x) as [?|[]| |? ? ?]; try reflexivity.
  - destruct (Prim2SF a) as [?|[]| |[] ? ?]; discriminate.
  - destruct (Prim2SF b) as [?|[]| |[] ? ?]; discriminate.
  - destruct (Prim2SF a) as [?|[]| |[] ? ?]; discriminate.
Qed.

Lemma le_infinity x : (x <=? x) = true -> (x <=? infinity) = true.
Proof.
  rewrite !leb_spec, Prim2SF_infinity.
  destruct (Prim2SF x) as [?|[]| |[] ? ?]; try discriminate; reflexivity.
Qed.

(** *** Differences *)

Lemma sub_le x1 z1 x2 z2 :
  is_finite x1 = true -> is_finite z1 = true ->
  is_finite x2 = true -> is_finite z2 = true ->
  (0 <= val x1 - val z1 <= val x2 - val z2)%Z ->
  (x1 - z1 <=? x2 - z2) = true.
Proof.
  intros F1 F2 F3 F4 H. apply fin_SF in F1, F2, F3, F4.
  rewrite leb_spec, !sub_spec. apply SFsub_le; format.
Qed.

Lemma sub_mono_l z x y :
  is_finite z = true -> is_finite x = true -> is_finite y = true ->
  (z <=? x) = true -> (x <=? y) = true -> (x - z <=? y - z) = true.
Proof.
  intros Fz Fx Fy A B.
  pose proof (le_val _ _ Fz Fx A). pose proof (le_val _ _ Fx Fy B).
  apply sub_le; try assumption. lia.
Qed.

Lemma sub_mono_r x y z :
  is_finite x = true -> is_finite y = true -> is_finite z = true ->
  (x <=? y) = true -> (y <=? z) = true -> (z - y <=? z - x) = true.
Proof.
  intros Fx Fy Fz A B.
  pose proof (le_val _ _ Fx Fy A). pose proof (le_val _ _ Fy Fz B).
  apply sub_le; try assumption. lia.
Qed.

Lemma sub_nonneg z x :
  is_finite z = true -> is_finite x = true -> (z <=? x) = true -> (0 <=? x - z) = true.
Proof.
  intros Fz Fx A. pose proof (le_val _ _ Fz Fx A).
  apply fin_SF in Fz, Fx.
  rewrite leb_spec, sub_spec, Prim2SF_zero. apply SFsub_nonneg; try format. lia.
Qed.

Lemma sub_pos z x :
  is_finite z = true -> is_finite x = true -> (z <? x) = true -> (0 <? x - z) = true.
Proof.
  intros Fz Fx A. pose proof (lt_val _ _ Fz Fx A).
  apply fin_SF in Fz, Fx.
  rewrite ltb_spec, sub_spec, Prim2SF_zero. apply SFsub_pos; try format. lia.
Qed.

(** A difference is finite only if both operands are. *)
Lemma sub_finite_inv x y :
  is_finite (x - y) = true -> is_finite x = true /\ is_finite y = true.
Proof.
  intros F. apply fin_SF in F. rewrite sub_spec in F.
  split; apply SF_fin;
    destruct (Prim2SF x) as [?|[]| |? ? ?], (Prim2SF y) as [?|[]| |? ? ?];
    try reflexivity; discriminate.
Qed.

Lemma sub_zero_r x : x - 0 = x.
Proof.
  apply Prim2SF_inj. rewrite sub_spec, Prim2SF_zero.
  destruct (Prim2SF x) as [[]|[]| |? ? ?]; reflexivity.
Qed.

(** *** Products *)

Lemma mul_comm x y : x * y = y * x.
Proof.
  apply Prim2SF_inj. rewrite !mul_spec.
  destruct (Prim2SF x) as [[]|[]| |sx mx ex], (Prim2SF y) as [[]|[]| |sy my ey];
    try reflexivity; try (destruct sx; reflexivity); try (destruct sy; reflexivity).
  unfold SF64mul, SFmul.
  rewrite (Pos.mul_comm mx my), (Z.add_comm ex ey), (xorb_comm sx sy). reflexivity.
Qed.

Lemma mul_le x1 y1 x2 y2 :
  is_finite x1 = true -> is_finite y1 = true ->
  is_finite x2 = true -> is_finite y2 = true ->
  (0 <= val x1 * val y1 <= val x2 * val y2)%Z ->
  (x1 * y1 <=? x2 * y2) = true.
Proof.
  intros F1 F2 F3 F4 H. apply fin_SF in F1, F2, F3, F4.
  rewrite leb_spec, !mul_spec. apply SFmul_le; format.
Qed.

Lemma nonneg_val x : is_finite x = true -> (0 <=? x) = true -> (0 <= val x)%Z.
Proof.
  intros F H. pose proof (le_val 0 x zero_finite F H) as L.
  rewrite val_zero in L. exact L.
Qed.

Lemma mul_mono_l c x y :
  is_finite c = true -> is_finite x = true -> is_finite y = true ->
  (0 <=? c) = true -> (0 <=? x) = true -> (x <=? y) = true ->
  (c * x <=? c * y) = true.
Proof.
  intros Fc Fx Fy C X L.
  pose proof (nonneg_val c Fc C). pose proof (nonneg_val x Fx X).
  pose proof (le_val _ _ Fx Fy L).
  apply mul_le; try assumption. nia.
Qed.

Lemma mul_mono_r c x y :
  is_finite c = true -> is_finite x = true -> is_finite y = true ->
  (0 <=? c) = true -> (0 <=? x) = true -> (x <=? y) = true ->
  (x * c <=? y * c) = true.
Proof. intros. rewrite (mul_comm x c), (mul_comm y c). now apply mul_mono_l. Qed.

Lemma mul_nonneg c x :
  is_finite c = true -> is_finite x = true ->
  (0 <=? c) = true -> (0 <=? x) = true -> (0 <=? c * x) = true.
Proof.
  intros Fc Fx C X.
  pose proof (nonneg_val c Fc C). pose proof (nonneg_val x Fx X).
  apply fin_SF in Fc, Fx.
  rewrite leb_spec, mul_spec, Prim2SF_zero. apply SFmul_nonneg; try format. nia.
Qed.

(** A positive finite number. *)
Lemma SF_positive_finite d :
  is_finite d = true -> (0 <? d) = true ->
  exists m e, Prim2SF d = S754_finite false m e /\ bounded prec emax m e = true.
Proof.
  intros F P. apply fin_SF in F. rewrite ltb_spec, Prim2SF_zero in P.
  pose proof (Prim2SF_valid d) as V.
  destruct (Prim2SF d) as [?|?| |[] m e]; try discriminate. eauto.
Qed.

(** The factor may exceed every finite number when the other one is
    positive. *)
Lemma mul_mono_pos c x y :
  is_finite c = true -> (0 <? c) = true -> (0 <=? x) = true -> (x <=? y) = true ->
  (0 <=? c * x) = true /\ (c * x <=? c * y) = true.
Proof.
  intros Fc C X L.
  assert (C0 : (0 <=? c) = true) by now apply F64Facts.lt_le.
  assert (Y : (0 <=? y) = true) by (apply (F64Facts.le_trans 0 x y); assumption).
  assert (N : forall v, (0 <=? v) = true -> is_finite v = false ->
              Prim2SF v = S754_infinity false).
  { intros v V F. rewrite leb_spec, Prim2SF_zero in V.
    destruct (Prim2SF v) as [?|[]| |[] ? ?] eqn:E; try discriminate; try reflexivity;
      exfalso; assert (is_finite v = true) by (apply SF_fin; rewrite E; reflexivity);
      congruence. }
  assert (I : forall v, Prim2SF v = S754_infinity false ->
              Prim2SF (c * v) = S754_infinity false).
  { intros v E. rewrite mul_spec, E.
    destruct (SF_positive_finite c Fc C) as (m & e & -> & _). reflexivity. }
  destruct (is_finite y) eqn:Fy.
  - assert (Fx : is_finite x = true).
    { apply (between_finite 0 x y); auto using zero_finite. }
    split; [now apply mul_nonneg|now apply mul_mono_l].
  - pose proof (I y (N y Y Fy)) as Iy.
    destruct (is_finite x) eqn:Fx.
    + assert (P : (0 <=? c * x) = true) by now apply mul_nonneg.
      split; [assumption|].
      rewrite leb_spec, Iy. rewrite leb_spec, Prim2SF_zero in P.
      destruct (Prim2SF (c * x)) as [?|[]| |[] ? ?]; try discriminate; reflexivity.
    + pose proof (I x (N x X Fx)) as Ix.
      rewrite !leb_spec, Ix, Iy, Prim2SF_zero. split; reflexivity.
Qed.

(** *** Quotients *)

Lemma div_mono d x y :
  is_finite d = true -> (0 <? d) = true ->
  is_finite x = true -> is_finite y = true ->
  (0 <=? x) = true -> (x <=? y) = true -> (x / d <=? y / d) = true.
Proof.
  intros Fd D Fx Fy X L.
  destruct (SF_positive_finite d Fd D) as (m & e & E & B).
  pose proof (nonneg_val x Fx X). pose proof (le_val _ _ Fx Fy L).
  apply fin_SF in Fx, Fy.
  rewrite leb_spec, !div_spec, E. apply SFdiv_le; try format. lia.
Qed.

Lemma div_nonneg d x :
  is_finite d = true -> (0 <? d) = true ->
  is_finite x = true -> (0 <=? x) = true -> (0 <=? x / d) = true.
Proof.
  intros Fd D Fx X.
  destruct (SF_positive_finite d Fd D) as (m & e & E & B).
  pose proof (nonneg_val x Fx X). apply fin_SF in Fx.
  rewrite leb_spec, div_spec, E, Prim2SF_zero. apply SFdiv_nonneg; format.
Qed.

Lemma div_self d : is_finite d = true -> (0 <? d) = true -> d / d = 1.
Proof.
  intros Fd D. destruct (SF_positive_finite d Fd D) as (m & e & E & B).
  apply Prim2SF_inj. rewrite div_spec, E, Prim2SF_one.
  apply SFdiv_self; try format; reflexivity.
Qed.

(** *** A product with a reciprocal that does not exceed one *)

Lemma top_forms g r :
  (0 <=? g) = true -> (g * r <=? 1) = true -> r = 1 \/ r = 1 / g ->
  is_finite g = true /\ is_finite r = true /\ (0 <=? r) = true.
Proof.
  intros G T [->| ->].
  - split; [|split; reflexivity].
    rewrite !leb_spec, mul_spec, Prim2SF_one in T. rewrite leb_spec, Prim2SF_zero in G.
    apply SF_fin.
    destruct (Prim2SF g) as [?|[]| |[] ? ?]; try discriminate; reflexivity.
  - assert (Fg : is_finite g = true /\ (0 <? g) = true).
    { rewrite leb_spec, mul_spec, div_spec, Prim2SF_one in T.
      rewrite leb_spec, Prim2SF_zero in G. rewrite ltb_spec, Prim2SF_zero.
      split; [apply SF_fin|];
        destruct (Prim2SF g) as [[]|[]| |[] ? ?]; try discriminate; reflexivity. }
    destruct Fg as (Fg & Pg). split; [assumption|].
    assert (R : (0 <=? 1 / g) = true) by (apply div_nonneg; auto using one_finite).
    split; [|assumption].
    destruct (SF_positive_finite g Fg Pg) as (m & e & E & B).
    rewrite leb_spec, mul_spec, E, Prim2SF_one in T.
    rewrite leb_spec, Prim2SF_zero in R. apply SF_fin.
    destruct (Prim2SF (1 / g)) as [?|[]| |[] ? ?]; try discriminate; reflexivity.
Qed.

End B64.

(** ** The in-range formulas keep the order *)

(** A reciprocal times its argument is comparable with 1 only for a finite
    argument. *)
Lemma reciprocal_top_finite d : (1 / d * d <=? 1) = true -> is_finite d = true.
Proof.
  rewrite leb_spec, mul_spec, div_spec, Prim2SF_one. intros T. apply B64.SF_fin.
  destruct (Prim2SF d) as [[]|[]| |? ? ?]; try discriminate; reflexivity.
Qed.

(** The uniform ramp [lam * (ST - ST_min)] between the bounds. *)
Lemma uniform_inside_ordered lo hi st1 st2 :
  (lo <? hi) = true -> (1 / (hi - lo) * (hi - lo) <=? 1) = true ->
  (lo <? st1) = true -> (st1 <=? st2) = true -> (st2 <? hi) = true ->
  (0 <=? _uniform_rSAS.inside lo (1 / (hi - lo)) st1) = true /\
  (_uniform_rSAS.inside lo (1 / (hi - lo)) st1
   <=? _uniform_rSAS.inside lo (1 / (hi - lo)) st2) = true /\
  (_uniform_rSAS.inside lo (1 / (hi - lo)) st2 <=? 1) = true.
Proof.
  intros V T L1 L12 L2. unfold _uniform_rSAS.inside.
  pose proof (reciprocal_top_finite _ T) as Fd.
  destruct (B64.sub_finite_inv _ _ Fd) as (Fhi & Flo).
  assert (D0 : (0 <=? hi - lo) = true) by (apply B64.sub_nonneg; auto using lt_le).
  rewrite B64.mul_comm in T.
  destruct (B64.top_forms _ _ D0 T (or_intror eq_refl)) as (_ & Fl & L0).
  rewrite B64.mul_comm in T.
  assert (F1 : is_finite st1 = true).
  { apply (B64.strictly_between_finite lo st1 hi); [assumption|].
    now apply (le_lt_trans st1 st2 hi). }
  assert (F2 : is_finite st2 = true).
  { apply (B64.strictly_between_finite lo st2 hi); [|assumption].
    now apply (lt_le_trans lo st1 st2). }
  assert (A1 : (0 <=? st1 - lo) = true) by (apply B64.sub_nonneg; auto using lt_le).
  assert (A2 : (st1 - lo <=? st2 - lo) = true) by (apply B64.sub_mono_l; auto using lt_le).
  assert (A3 : (st2 - lo <=? hi - lo) = true).
  { apply B64.sub_mono_l; auto using lt_le. apply lt_le. now apply (lt_le_trans lo st1 st2). }
  assert (A0 : (0 <=? st2 - lo) = true) by now apply (le_trans 0 (st1 - lo)).
  assert (X2 : is_finite (st2 - lo) = true).
  { apply (B64.between_finite 0 _ (hi - lo)); auto using B64.zero_finite. }
  assert (X1 : is_finite (st1 - lo) = true).
  { apply (B64.between_finite 0 _ (st2 - lo)); auto using B64.zero_finite. }
  split; [|split].
  - now apply B64.mul_nonneg.
  - now apply B64.mul_mono_l.
  - apply (le_trans _ (1 / (hi - lo) * (hi - lo))); [|assumption].
    now apply B64.mul_mono_l.
Qed.

(** An upper bound that is not finite is [+inf], and so is its distance to a
    finite lower bound. *)
Lemma infinite_range lo hi :
  is_finite lo = true -> (lo <? hi) = true -> is_finite hi = false ->
  Prim2SF (hi - lo) = S754_infinity false.
Proof.
  intros Flo V Fhi. apply B64.fin_SF in Flo. rewrite ltb_spec in V. rewrite sub_spec.
  destruct (Prim2SF hi) as [?|[]| |? ? ?] eqn:E.
  - exfalso. assert (is_finite hi = true) by (apply B64.SF_fin; rewrite E; reflexivity).
    congruence.
  - destruct (Prim2SF lo) as [?|[]| |[] ? ?]; discriminate.
  - destruct (Prim2SF lo) as [?|[]| |[] ? ?]; try discriminate; reflexivity.
  - destruct (Prim2SF lo) as [?|[]| |[] ? ?]; discriminate.
  - exfalso. assert (is_finite hi = true) by (apply B64.SF_fin; rewrite E; reflexivity).
    congruence.
Qed.

(** Above a lower bound that is not finite, so [-inf], every distance is
    [+inf]. *)
Lemma sub_infinite_lower lo x :
  is_finite lo = false -> (lo <? x) = true -> Prim2SF (x - lo) = S754_infinity false.
Proof.
  intros Flo V. rewrite ltb_spec in V. rewrite sub_spec.
  destruct (Prim2SF lo) as [?|[]| |? ? ?] eqn:E.
  - exfalso. assert (is_finite lo = true) by (apply B64.SF_fin; rewrite E; reflexivity).
    congruence.
  - destruct (Prim2SF x) as [?|[]| |[] ? ?]; try discriminate; reflexivity.
  - destruct (Prim2SF x) as [?|[]| |[] ? ?]; discriminate.
  - discriminate.
  - exfalso. assert (is_finite lo = true) by (apply B64.SF_fin; rewrite E; reflexivity).
    congruence.
Qed.

(** The distances of two queried values and of the upper bound to the lower
    bound, in their order. *)
Lemma distances_ordered lo hi st1 st2 :
  (lo <? hi) = true ->
  (lo <? st1) = true -> (st1 <=? st2) = true -> (st2 <? hi) = true ->
  (0 <=? st1 - lo) = true /\ (st1 - lo <=? st2 - lo) = true /\
  (st2 - lo <=? hi - lo) = true.
Proof.
  intros V L1 L12 L2.
  assert (L02 : (lo <? st2) = true) by now apply (lt_le_trans lo st1 st2).
  destruct (is_finite lo) eqn:Flo.
  - assert (F1 : is_finite st1 = true).
    { apply (B64.strictly_between_finite lo st1 hi); [assumption|].
      now apply (le_lt_trans st1 st2 hi). }
    assert (F2 : is_finite st2 = true)
      by now apply (B64.strictly_between_finite lo st2 hi).
    assert (A1 : (0 <=? st1 - lo) = true) by (apply B64.sub_nonneg; auto using lt_le).
    assert (A2 : (st1 - lo <=? st2 - lo) = true)
      by (apply B64.sub_mono_l; auto using lt_le).
    repeat split; try assumption.
    destruct (is_finite hi) eqn:Fhi.
    + apply B64.sub_mono_l; auto using lt_le.
    + assert (A0 : (0 <=? st2 - lo) = true) by now apply (le_trans 0 (st1 - lo)).
      rewrite leb_spec, (infinite_range lo hi Flo V Fhi).
      rewrite leb_spec, Prim2SF_zero in A0.
      destruct (Prim2SF (st2 - lo)) as [?|[]| |[] ? ?]; try discriminate; reflexivity.
  - rewrite !leb_spec, Prim2SF_zero.
    rewrite (sub_infinite_lower lo st1 Flo L1), (sub_infinite_lower lo st2 Flo L02),
      (sub_infinite_lower lo hi Flo V).
    repeat split.
Qed.

(** The gamma formula [gammainc(a, lam*(ST - ST_min)) * rescale] between the
    bounds. *)
Lemma gamma_inside_ordered lib lo hi a lam st1 st2 :
  (lo <? hi) = true ->
  is_finite lam = true -> (0 <? lam) = true ->
  non_decreasing_from_zero (gammainc lib a) ->
  (gammainc lib a (lam * (hi - lo)) * _gamma_rSAS.rescale1 lib lo hi a lam <=? 1) = true ->
  (lo <? st1) = true -> (st1 <=? st2) = true -> (st2 <? hi) = true ->
  (0 <=? _gamma_rSAS.inside lib lo a lam (_gamma_rSAS.rescale1 lib lo hi a lam) st1) = true /\
  (_gamma_rSAS.inside lib lo a lam (_gamma_rSAS.rescale1 lib lo hi a lam) st1
   <=? _gamma_rSAS.inside lib lo a lam (_gamma_rSAS.rescale1 lib lo hi a lam) st2) = true /\
  (_gamma_rSAS.inside lib lo a lam (_gamma_rSAS.rescale1 lib lo hi a lam) st2 <=? 1) = true.
Proof.
  intros V Fl Pl G T L1 L12 L2. unfold _gamma_rSAS.inside.
  set (r := _gamma_rSAS.rescale1 lib lo hi a lam) in *.
  destruct (distances_ordered lo hi st1 st2 V L1 L12 L2) as (A1 & A2 & A3).
  assert (A0 : (0 <=? st2 - lo) = true) by now apply (le_trans 0 (st1 - lo)).
  destruct (B64.mul_mono_pos lam _ _ Fl Pl A1 A2) as (M1 & M12).
  destruct (B64.mul_mono_pos lam _ _ Fl Pl A0 A3) as (M2 & M23).
  destruct (G _ _ M1 M12) as (G1 & G12).
  destruct (G _ _ M2 M23) as (G2 & G23).
  set (g1 := gammainc lib a (lam * (st1 - lo))) in *.
  set (g2 := gammainc lib a (lam * (st2 - lo))) in *.
  set (gd := gammainc lib a (lam * (hi - lo))) in *.
  assert (Gd : (0 <=? gd) = true) by now apply (le_trans 0 g2).
  assert (R : r = 1 \/ r = 1 / gd).
  { unfold r, _gamma_rSAS.rescale1, np_where. destruct (np_isfinite hi); auto. }
  destruct (B64.top_forms gd r Gd T R) as (Fgd & Fr & R0).
  assert (Fg2 : is_finite g2 = true).
  { apply (B64.between_finite 0 g2 gd); auto using B64.zero_finite. }
  assert (Fg1 : is_finite g1 = true).
  { apply (B64.between_finite 0 g1 g2); auto using B64.zero_finite. }
  split; [|split].
  - now apply B64.mul_nonneg.
  - now apply B64.mul_mono_r.
  - apply (le_trans _ (gd * r)); [|assumption]. now apply B64.mul_mono_r.
Qed.

(** The kumaraswami formula
    [1 - (1 - ((ST - ST_min)/(ST_max - ST_min))**a)**b] between the bounds. *)
Lemma kumaraswami_inside_ordered lib lo hi a b st1 st2 :
  (lo <? hi) = true -> is_finite (hi - lo) = true ->
  non_decreasing_on_unit (fun x => np_power lib x a) ->
  non_decreasing_on_unit (fun x => np_power lib x b) ->
  (lo <? st1) = true -> (st1 <=? st2) = true -> (st2 <? hi) = true ->
  (0 <=? _kumaraswami_rSAS.inside lib lo hi a b st1) = true /\
  (_kumaraswami_rSAS.inside lib lo hi a b st1
   <=? _kumaraswami_rSAS.inside lib lo hi a b st2) = true /\
  (_kumaraswami_rSAS.inside lib lo hi a b st2 <=? 1) = true.
Proof.
  intros V Fd Pa Pb L1 L12 L2. unfold _kumaraswami_rSAS.inside.
  destruct (B64.sub_finite_inv _ _ Fd) as (Fhi & Flo).
  assert (Dp : (0 <? hi - lo) = true) by now apply B64.sub_pos.
  assert (F1 : is_finite st1 = true).
  { apply (B64.strictly_between_finite lo st1 hi); [assumption|].
    now apply (le_lt_trans st1 st2 hi). }
  assert (F2 : is_finite st2 = true).
  { apply (B64.strictly_between_finite lo st2 hi); [|assumption].
    now apply (lt_le_trans lo st1 st2). }
  assert (L02 : (lo <=? st2) = true).
  { apply lt_le. now apply (lt_le_trans lo st1 st2). }
  assert (A1 : (0 <=? st1 - lo) = true) by (apply B64.sub_nonneg; auto using lt_le).
  assert (A2 : (st1 - lo <=? st2 - lo) = true) by (apply B64.sub_mono_l; auto using lt_le).
  assert (A0 : (0 <=? st2 - lo) = true) by now apply (le_trans 0 (st1 - lo)).
  assert (A3 : (st2 - lo <=? hi - lo) = true) by (apply B64.sub_mono_l; auto using lt_le).
  assert (X2 : is_finite (st2 - lo) = true).
  { apply (B64.between_finite 0 _ (hi - lo)); auto using B64.zero_finite. }
  assert (X1 : is_finite (st1 - lo) = true).
  { apply (B64.between_finite 0 _ (st2 - lo)); auto using B64.zero_finite. }
  assert (D0 : (0 <=? hi - lo) = true) by now apply lt_le.
  (* the ratios *)
  assert (T1 : (0 <=? (st1 - lo) / (hi - lo)) = true) by now apply B64.div_nonneg.
  assert (T12 : ((st1 - lo) / (hi - lo) <=? (st2 - lo) / (hi - lo)) = true)
    by now apply B64.div_mono.
  assert (T2 : ((st2 - lo) / (hi - lo) <=? 1) = true).
  { rewrite <- (B64.div_self (hi - lo) Fd Dp). now apply B64.div_mono. }
  destruct (Pa _ _ T1 T12 T2) as (P1 & P12 & P2).
  set (p1 := np_power lib ((st1 - lo) / (hi - lo)) a) in *.
  set (p2 := np_power lib ((st2 - lo) / (hi - lo)) a) in *.
  assert (P02 : (0 <=? p2) = true) by now apply (le_trans 0 p1).
  assert (P11 : (p1 <=? 1) = true) by now apply (le_trans p1 p2).
  assert (Fp1 : is_finite p1 = true).
  { apply (B64.between_finite 0 p1 1); auto using B64.zero_finite, B64.one_finite. }
  assert (Fp2 : is_finite p2 = true).
  { apply (B64.between_finite 0 p2 1); auto using B64.zero_finite, B64.one_finite. }
  (* the complements *)
  assert (U2 : (0 <=? 1 - p2) = true) by (apply B64.sub_nonneg; auto using B64.one_finite).
  assert (U21 : (1 - p2 <=? 1 - p1) = true)
    by (apply B64.sub_mono_r; auto using B64.one_finite).
  assert (U1 : (1 - p1 <=? 1) = true).
  { rewrite <- (B64.sub_zero_r 1) at 2.
    apply B64.sub_mono_r; auto using B64.zero_finite, B64.one_finite. }
  destruct (Pb _ _ U2 U21 U1) as (W2 & W21 & W1).
  set (w1 := np_power lib (1 - p1) b) in *.
  set (w2 := np_power lib (1 - p2) b) in *.
  assert (W01 : (0 <=? w1) = true) by now apply (le_trans 0 w2).
  assert (W22 : (w2 <=? 1) = true) by now apply (le_trans w2 w1).
  assert (Fw1 : is_finite w1 = true).
  { apply (B64.between_finite 0 w1 1); auto using B64.zero_finite, B64.one_finite. }
  assert (Fw2 : is_finite w2 = true).
  { apply (B64.between_finite 0 w2 1); auto using B64.zero_finite, B64.one_finite. }
  split; [|split].
  - apply B64.sub_nonneg; auto using B64.one_finite.
  - apply B64.sub_mono_r; auto using B64.one_finite.
  - rewrite <- (B64.sub_zero_r 1) at 2.
    apply B64.sub_mono_r; auto using B64.zero_finite, B64.one_finite.
Qed.

(** ** Order between and across the clamps *)

(** A non-negative number is positive or equal to zero. *)
Lemma le_zero_cases x :
  (0 <=? x) = true ->
  (0 <? x) = true \/ ((0 <? x) = false /\ (x =? 0) = true).
Proof.
  rewrite leb_spec, ltb_spec, eqb_spec, Prim2SF_zero.
  destruct (Prim2SF x) as [?|[]| |[] ? ?]; try discriminate; auto.
Qed.

(** The step function has the order properties asked of [gammainc]. *)
Lemma Step_gammainc_law a : non_decreasing_from_zero (gammainc Step.lib a).
Proof.
  intros x y X L. cbn. unfold Step.gammainc.
  assert (Y : (0 <=? y) = true) by now apply (le_trans 0 x y).
  destruct (le_zero_cases x X) as [Px|(Nx & Zx)].
  - rewrite Px, (lt_le_trans 0 x y Px L). split; reflexivity.
  - rewrite Nx, Zx.
    destruct (le_zero_cases y Y) as [Py|(Ny & Zy)].
    + rewrite Py. split; reflexivity.
    + rewrite Ny, Zy. split; reflexivity.
Qed.

(** [x ** 1] is non-decreasing on the unit interval. *)
Lemma power_one_on_unit lib :
  power_one lib -> non_decreasing_on_unit (fun x => np_power lib x 1).
Proof.
  intros P x y X L Y. rewrite !P. repeat split; assumption.
Qed.

(** Two values of a clamped function are ordered as soon as its in-range
    formula is ordered and within [0, 1] between the bounds. *)
Lemma clamped_pair_ordered lo hi F g st1 st2 :
  (lo <? hi) = true -> (forall st, clamped lo hi F st (g st)) ->
  (forall st st', (lo <? st) = true -> (st <=? st') = true -> (st' <? hi) = true ->
     (0 <=? F st) = true /\ (F st <=? F st') = true /\ (F st' <=? 1) = true) ->
  (st1 <? st2) = true ->
  (g st1 <=? g st2) = true.
Proof.
  intros V Hc H L.
  assert (N1 : (st1 <=? st1) = true) by (apply (le_refl_l st1 st2); now apply lt_le).
  assert (N2 : (st2 <=? st2) = true) by (apply (le_refl_r st1 st2); now apply lt_le).
  destruct (Hc st1) as (A0 & AF & A1). destruct (Hc st2) as (C0 & CF & C1).
  assert (I : forall st, strictly_inside lo hi st = true ->
              (lo <? st) = true /\ (st <? hi) = true).
  { intros st S. unfold strictly_inside in S. now apply andb_true_iff in S. }
  destruct (three_regions lo hi st1 V N1) as [R1|[R1|R1]];
    destruct (three_regions lo hi st2 V N2) as [R2|[R2|R2]].
  - rewrite A0, C0 by assumption. reflexivity.
  - rewrite A0, CF by assumption. destruct (I _ R2) as (I1 & I2).
    now destruct (H st2 st2 I1 N2 I2).
  - rewrite A0, C1 by assumption. reflexivity.
  - exfalso. destruct (I _ R1) as (I1 & _).
    pose proof (le_not_gt _ _ R2) as X. rewrite (lt_trans _ _ _ I1 L) in X. discriminate.
  - rewrite AF, CF by assumption. destruct (I _ R1) as (I1 & _), (I _ R2) as (_ & I2).
    now destruct (H st1 st2 I1 (lt_le _ _ L) I2) as (_ & M & _).
  - rewrite AF, C1 by assumption. destruct (I _ R1) as (I1 & I2).
    now destruct (H st1 st1 I1 N1 I2) as (_ & _ & M).
  - exfalso. pose proof (le_lt_trans _ _ _ R1 L) as X.
    pose proof (lt_le_trans _ _ _ V (lt_le _ _ X)) as Y.
    pose proof (le_not_gt _ _ R2) as W. rewrite Y in W. discriminate.
  - exfalso. destruct (I _ R2) as (_ & I2).
    pose proof (le_lt_trans _ _ _ R1 L) as X.
    pose proof (le_not_gt _ _ (lt_le _ _ X)) as W. rewrite I2 in W. discriminate.
  - rewrite A1, C1 by assumption. reflexivity.
Qed.

(** The rate and the rescale factor a constructor stored for row [i]. *)
Lemma uniform_lam_row lib tag params o i lo hi :
  create_function lib tag params = inr (Uniform o) ->
  py_index (_uniform_rSAS.ST_min o) i = inr lo ->
  py_index (_uniform_rSAS.ST_max o) i = inr hi ->
  py_index (_uniform_rSAS.lam o) i = inr (1 / (hi - lo)).
Proof.
  intros C Hlo Hhi. apply created_inv in C. apply uniform_init_inv in C.
  destruct C as (L0 & L1 & L2). rewrite L2.
  apply (py_index_zipWith (fun hi lo => 1 / (hi - lo))); [congruence|assumption..].
Qed.

Lemma gamma_rescale_row lib tag params o i lo hi a lam :
  create_function lib tag params = inr (Gamma o) ->
  py_index (_gamma_rSAS.ST_min o) i = inr lo ->
  py_index (_gamma_rSAS.ST_max o) i = inr hi ->
  py_index (_gamma_rSAS.a o) i = inr a ->
  py_index (_gamma_rSAS.lam o) i = inr lam ->
  py_index (_gamma_rSAS.rescale o) i = inr (_gamma_rSAS.rescale1 lib lo hi a lam).
Proof.
  intros C Hlo Hhi Ha Hl. apply created_inv in C. apply gamma_init_inv in C.
  destruct C as (L0 & L1 & L2 & L3 & L4 & L5). rewrite L5.
  assert (Ll : List.length (_gamma_rSAS.lam o) = shape0 params).
  { rewrite L4, length_map. assumption. }
  apply (py_index_zipWith (fun hi '(a, (l, lo)) => _gamma_rSAS.rescale1 lib lo hi a l)
           (_gamma_rSAS.ST_max o) _ i hi (a, (lam, lo))).
  - rewrite !length_combine. lia.
  - assumption.
  - apply py_index_combine; [|assumption|].
    + rewrite length_combine. lia.
    + apply py_index_combine; [|assumption..]. congruence.
Qed.



(** ** The library laws hold in the table *)

Lemma Table_power_one : power_one Table.lib.
Proof.
  intros x. cbn. unfold Table.power.
  destruct (x =? 1) eqn:E; [|reflexivity].
  symmetry. now apply eqb_one.
Qed.

Lemma Table_erfc_nan : erfc_nan Table.lib.
Proof. reflexivity. Qed.

(** ** C1: clamping outside the range *)

(** Below its location the inverse-Gaussian formula takes the square root of a
    negative number: the value is a nan, whatever the library computes. *)
Lemma invgauss_nan_below_loc lib :
  erfc_nan lib -> cdf_i lib (Invgauss invgauss_unit) [-1] 0 = inr [nan].
Proof.
  intros E. red in E. cbn.
  repeat match goal with
  | |- context [erfc lib ?v] => change (erfc lib v) with (erfc lib nan); rewrite E
  end.
  do 2 f_equal. apply Prim2SF_inj.
  rewrite div_spec, add_spec, mul_spec, Prim2SF_nan.
  destruct (Prim2SF (np_exp lib 2)); reflexivity.
Qed.

(** C1, counterexample.  The invgauss object created from the row
    [(loc, scale, mu) = (0, 1, 1)] answers a nan, not 0, at -1 below its lower
    bound, and its [cdf_all] raises instead of returning. *)
Lemma invgauss_does_not_clamp :
  create_function Table.lib "invgauss" (matrix [[0; 1; 1]]) = inr (Invgauss invgauss_unit) /\
  cdf_i Table.lib (Invgauss invgauss_unit) [-1] 0 = inr [nan] /\
  cdf_all Table.lib (Invgauss invgauss_unit) [-1]
  = inl (NotImplementedError "cdf_all not implemented in derived rSASFunctionClass").
Proof.
  split; [reflexivity|]. split; [|reflexivity].
  apply invgauss_nan_below_loc, Table_erfc_nan.
Qed.

(** The amended C1 on the uniform row [(0, 10)]. *)
Lemma clamping_outside_the_range_witness :
  cdf_i Table.lib (Uniform uniform_0_10) [0; 10] 0 = inr [0; 1].
Proof.
  exact (proj1 (proj1 (clamping_outside_the_range Table.lib "uniform" (matrix [[0; 10]])
                         (Uniform uniform_0_10) [0] [10] eq_refl eq_refl)
                 0%Z 0 10 [] eq_refl eq_refl eq_refl)).
Defined.

(** ** C2: monotonicity *)

(** On the inverted row [(ST_min, ST_max, a, b) = (1, 0, 1, 1)] the value at 1
    is 0 and the value at 2 is -1, for every library with [x ** 1 = x]. *)
Lemma kumaraswami_inverted_values lib :
  power_one lib -> cdf_i lib (Kumaraswami kumaraswami_inverted) [1; 2] 0 = inr [0; -1].
Proof.
  intros P. cbn. unfold _kumaraswami_rSAS.cdf1, _kumaraswami_rSAS.inside, np_where.
  cbn. rewrite !P. reflexivity.
Qed.



(** ** C6: the inverted kumaraswami range *)

(** C6 (amended).  For a kumaraswami object and a row [i] with
    [ST_max[i] < ST_min[i]], [cdf_i] answers 0 at every queried value at or
    below [ST_min[i]], so at both [ST_min[i]] and [ST_max[i]], and the
    unclamped formula [1 - (1 - ((ST - ST_min)/(ST_max - ST_min))**a)**b] at
    every value above [ST_min[i]]; nothing confines that value to [0, 1]. *)
Theorem kumaraswami_inverted_range lib o i lo hi a b ST :
  py_index (_kumaraswami_rSAS.ST_min o) i = inr lo ->
  py_index (_kumaraswami_rSAS.ST_max o) i = inr hi ->
  py_index (_kumaraswami_rSAS.a o) i = inr a ->
  py_index (_kumaraswami_rSAS.b o) i = inr b ->
  (hi <? lo) = true ->
  cdf_i lib (Kumaraswami o) ST i
  = inr (map (fun st => np_where (F64.gtb st lo)
                          (_kumaraswami_rSAS.inside lib lo hi a b st) 0) ST) /\
  cdf_i lib (Kumaraswami o) [lo; hi] i = inr [0; 0].
Proof.
  intros Hlo Hhi Ha Hb V.
  assert (G : F64.geb hi lo = false) by (apply lt_not_ge; exact V).
  assert (K : forall Q, cdf_i lib (Kumaraswami o) Q i
            = inr (map (fun st => np_where (F64.gtb st lo)
                                    (_kumaraswami_rSAS.inside lib lo hi a b st) 0) Q)).
  { intros Q. cbn. unfold _kumaraswami_rSAS.cdf_i. rewrite Hlo, Hhi, Ha, Hb. cbn.
    f_equal. apply map_ext. intros st. unfold _kumaraswami_rSAS.cdf1. rewrite G.
    reflexivity. }
  split; [apply K|].
  rewrite K. cbn [map]. unfold F64.gtb.
  rewrite lt_irrefl, (le_not_gt _ _ (lt_le _ _ V)). reflexivity.
Qed.

Lemma kumaraswami_inverted_at_two lib :
  power_one lib -> cdf_i lib (Kumaraswami kumaraswami_inverted) [2] 0 = inr [-1].
Proof.
  intros P. cbn. unfold _kumaraswami_rSAS.cdf1, _kumaraswami_rSAS.inside, np_where.
  cbn. rewrite !P. reflexivity.
Qed.

(** C6, counterexample.  On the inverted row [(ST_min, ST_max, a, b) =
    (1, 0, 1, 1)] the value of [cdf_i] at 2 is -1, outside [0, 1]. *)
Lemma kumaraswami_inverted_leaves_unit_interval :
  create_function Table.lib "kumaraswami" (matrix [[1; 0; 1; 1]])
  = inr (Kumaraswami kumaraswami_inverted) /\
  (0 <? 1) = true /\
  cdf_i Table.lib (Kumaraswami kumaraswami_inverted) [2] 0 = inr [-1] /\
  (0 <=? -1) = false.
Proof.
  split; [reflexivity|]. split; [reflexivity|]. split; [|reflexivity].
  apply kumaraswami_inverted_at_two, Table_power_one.
Qed.

(** The amended C6 on the row [(1, 0, 1, 1)]. *)
Lemma kumaraswami_inverted_range_witness :
  cdf_i Table.lib (Kumaraswami kumaraswami_inverted) [1; 0] 0 = inr [0; 0].
Proof.
  exact (proj2 (kumaraswami_inverted_range Table.lib kumaraswami_inverted 0%Z 1 0 1 1 []
                  eq_refl eq_refl eq_refl eq_refl eq_refl)).
Defined.

(** ** C9: unsupported methods *)

(** C9 (amended).  [cdf_all] on an invgauss or catalog-backed object raises
    the not-implemented error of the base class; [invcdf_i] on a kumaraswami,
    invgauss, catalog-backed or lookuptable object raises an attribute error,
    because neither the class nor the base class defines it.  Every other
    call of the two methods runs the method of the object's own class. *)
Theorem unsupported_methods lib (f : rSAS_fun) (ST P : list float) (i : Z) :
  match f with
  | Invgauss _ | Stats _ =>
      cdf_all lib f ST
      = inl (NotImplementedError "cdf_all not implemented in derived rSASFunctionClass")
  | Kumaraswami o => cdf_all lib f ST = _kumaraswami_rSAS.cdf_all lib o ST
  | Uniform o => cdf_all lib f ST = _uniform_rSAS.cdf_all o ST
  | Gamma o => cdf_all lib f ST = _gamma_rSAS.cdf_all lib o ST
  | Lookup o => cdf_all lib f ST = _lookup_rSAS.cdf_all o ST
  end /\
  match f with
  | Uniform o => invcdf_i lib f P i = _uniform_rSAS.invcdf_i o P i
  | Gamma o => invcdf_i lib f P i = _gamma_rSAS.invcdf_i lib o P i
  | Kumaraswami _ | Invgauss _ | Stats _ | Lookup _ =>
      invcdf_i lib f P i = inl (AttributeError "invcdf_i")
  end.
Proof.
  split; destruct f; reflexivity.
Qed.

(** C9, counterexample.  [invcdf_i] on a kumaraswami object raises an
    attribute error, not the not-implemented error. *)
Lemma invcdf_i_is_not_an_attribute :
  invcdf_i Table.lib (Kumaraswami kumaraswami_inverted) [0.5] 0
  = inl (AttributeError "invcdf_i").
Proof. reflexivity. Qed.

(** ** C10: the lookup table ignores the timestep *)

(** C10.  For a lookuptable object, [cdf_i] gives the same result at every
    index, and that result is the one of [cdf_all]. *)
Theorem lookup_ignores_the_index lib (o : _lookup_rSAS.self) (ST : list float) (i j : Z) :
  cdf_i lib (Lookup o) ST i = cdf_i lib (Lookup o) ST j /\
  cdf_i lib (Lookup o) ST i = cdf_all lib (Lookup o) ST.
Proof. split; reflexivity. Qed.

(** ** C8: the endpoints of the lookup table *)

(** C8.  For a parameter matrix whose probability column has the first value
    [first] and the last value [last]: creating the lookuptable object fails
    with the invalid-lookup-table error exactly when [first] is not 0 or
    [last] is not 1, and succeeds exactly when [first] is 0 and [last] is 1. *)
Theorem lookup_table_endpoints lib params Omega first last :
  column 1 params = inr Omega ->
  py_index Omega 0 = inr first -> py_index Omega (-1) = inr last ->
  (create_function lib "lookuptable" params = inl _lookup_rSAS.invalid_table
   <-> ((first =? 0) && (last =? 1))%bool = false) /\
  (ok (create_function lib "lookuptable" params) = true
   <-> ((first =? 0) && (last =? 1))%bool = true).
Proof.
  intros C1 F L.
  assert (C0 : exists S_T, column 0 params = inr S_T).
  { unfold column in *. destruct (1 <? shape1 params)%nat eqn:E; [|discriminate].
    apply Nat.ltb_lt in E. assert (E0 : (0 <? shape1 params)%nat = true) by (apply Nat.ltb_lt; lia).
    rewrite E0. eexists. reflexivity. }
  destruct C0 as [S_T C0].
  assert (LS : List.length S_T = List.length Omega).
  { apply column_length in C0, C1. congruence. }
  destruct (py_index_aligned Omega S_T 0 first LS F) as [lo Hlo].
  destruct (py_index_aligned Omega S_T (-1) last LS L) as [hi Hhi].
  assert (R : create_function lib "lookuptable" params
              = if ((first =? 0) && (last =? 1))%bool
                then inr (Lookup {| _lookup_rSAS.S_T := S_T; _lookup_rSAS.Omega := Omega;
                                    _lookup_rSAS.ST_min := lo; _lookup_rSAS.ST_max := hi;
                                    _lookup_rSAS.interp1d :=
                                      {| scipy_interpolate.x := S_T;
                                         scipy_interpolate.y := Omega |} |})
                else inl _lookup_rSAS.invalid_table).
  { change (create_function lib "lookuptable" params)
      with (o <- _lookup_rSAS.__init__ params ;; ret (Lookup o)).
    unfold _lookup_rSAS.__init__, _lookup_rSAS.endpoints_ok.
    rewrite C0, C1. cbn. rewrite Hlo, Hhi, F. cbn.
    destruct (first =? 0); cbn; [|reflexivity].
    rewrite L. cbn. destruct (last =? 1); reflexivity. }
  rewrite R. destruct ((first =? 0) && (last =? 1))%bool; cbn; split; split; congruence.
Qed.

(** C8 on the table with [Omega = [0.2, 0.5, 1.0]]: construction fails. *)
Lemma lookup_table_endpoints_witness :
  create_function Table.lib "lookuptable" (matrix [[1; 0.2]; [2; 0.5]; [3; 1]])
  = inl _lookup_rSAS.invalid_table.
Proof.
  apply (proj1 (lookup_table_endpoints Table.lib (matrix [[1; 0.2]; [2; 0.5]; [3; 1]])
                  [0.2; 0.5; 1] 0.2 1 eq_refl eq_refl eq_refl)).
  reflexivity.
Defined.

(** ** C5: the lookup table outside its breakpoints *)

(** C5, on the code.  With breakpoints [S_T = [-1, 1]] and [Omega = [0, 1]],
    the query -2 below the first breakpoint is replaced by 0 and answered
    0.5, while the left-edge value is 0; with [S_T = [0, 1, 2]] and
    [Omega = [0, 0.5, 1]], the query 3 above the last breakpoint is
    replaced by 1 and answered 0.5, while the right-edge value is 1. *)
Theorem lookup_clamps_to_zero_and_one :
  create_function Table.lib "lookuptable" (matrix [[-1; 0]; [1; 1]])
  = inr (Lookup lookup_from_minus_one) /\
  map (_lookup_rSAS.clamp1 (-1) 1) [-2] = [0] /\
  cdf_i Table.lib (Lookup lookup_from_minus_one) [-2] 0 = inr [0.5] /\
  py_index (_lookup_rSAS.Omega lookup_from_minus_one) 0 = inr 0 /\
  create_function Table.lib "lookuptable" (matrix [[0; 0]; [1; 0.5]; [2; 1]])
  = inr (Lookup lookup_three_points) /\
  map (_lookup_rSAS.clamp1 0 2) [3] = [1] /\
  cdf_i Table.lib (Lookup lookup_three_points) [3] 0 = inr [0.5] /\
  py_index (_lookup_rSAS.Omega lookup_three_points) (-1) = inr 1.
Proof. repeat split. Qed.

(** What the clamp of the lookup table does on a table with
    [S_T[0] < S_T[-1]]: a query at or below the first breakpoint becomes 0,
    one at or above the last becomes 1, one strictly between them is kept. *)
Lemma lookup_clamp1_clamped lo hi st :
  (lo <? hi) = true -> clamped lo hi (fun v => v) st (_lookup_rSAS.clamp1 lo hi st).
Proof.
  intros V. unfold clamped, strictly_inside, _lookup_rSAS.clamp1, np_where, F64.gtb.
  repeat split.
  - intros H. rewrite (le_lt_trans _ _ _ H V), (le_not_gt _ _ H). reflexivity.
  - intros H. apply andb_true_iff in H. destruct H as [-> ->]. reflexivity.
  - intros H. rewrite (le_not_gt _ _ H). reflexivity.
Qed.

(** ** The gamma rows *)

(** The derived vectors of a created gamma object at row [i]. *)
Lemma gamma_row lib params o i lo hi a s :
  create_function lib "gamma" params = inr (Gamma o) ->
  py_index (_gamma_rSAS.ST_min o) i = inr lo ->
  py_index (_gamma_rSAS.ST_max o) i = inr hi ->
  py_index (_gamma_rSAS.a o) i = inr a ->
  py_index (_gamma_rSAS.scale o) i = inr s ->
  py_index (_gamma_rSAS.lam o) i = inr (1 / s) /\
  py_index (_gamma_rSAS.rescale o) i = inr (_gamma_rSAS.rescale1 lib lo hi a (1 / s)).
Proof.
  intros C Hlo Hhi Ha Hs. apply created_inv in C. apply gamma_init_inv in C.
  destruct C as (L0 & L1 & L2 & L3 & L4 & L5).
  assert (Hl : py_index (_gamma_rSAS.lam o) i = inr (1 / s)).
  { rewrite L4. now apply (py_index_map (fun s => 1 / s)). }
  split; [assumption|].
  rewrite L5.
  apply (py_index_zipWith (fun hi '(a, (l, lo)) => _gamma_rSAS.rescale1 lib lo hi a l)
           (_gamma_rSAS.ST_max o) _ i hi (a, (1 / s, lo))).
  - rewrite !length_combine, L4, length_map. lia.
  - assumption.
  - apply py_index_combine; [|assumption|].
    + rewrite length_combine, L4, length_map. lia.
    + apply py_index_combine; [|assumption..].
      rewrite L4, length_map. congruence.
Qed.

(** ** C3: the truncated gamma *)

(** In binary64 a number times its reciprocal need not be 1: were the
    unscaled value at [ST_max] 0.41, the rescaled formula there would fall
    short of 1. *)
Example reciprocal_does_not_cancel : 0.41 * (1 / 0.41) = 0.99999999999999989.
Proof. reflexivity. Qed.

(** C3 (amended).  For a created gamma object and a row [i] with parameters
    [(ST_min, ST_max, scale, a) = (lo, hi, s, a)]:
    - the rescale factor of the row is the value [r] the constructor
      computed from the row alone, [1/gammainc(a, (1/s)*(hi - lo))] for a
      finite [hi] and 1 otherwise, so 1 for an infinite [hi];
    - [cdf_i] at [hi] is exactly 1 when [lo < hi], by the constant of the
      [ST < ST_max] test, and exactly 0 otherwise;
    - at every queried value strictly between [lo] and [hi], [cdf_i] is
      [gammainc(a, (1/s)*(ST - lo)) * r], with the stored [r]. *)
Theorem gamma_truncation lib params o i lo hi a s :
  create_function lib "gamma" params = inr (Gamma o) ->
  py_index (_gamma_rSAS.ST_min o) i = inr lo ->
  py_index (_gamma_rSAS.ST_max o) i = inr hi ->
  py_index (_gamma_rSAS.a o) i = inr a ->
  py_index (_gamma_rSAS.scale o) i = inr s ->
  let r := if is_finite hi then 1 / gammainc lib a (1 / s * (hi - lo)) else 1 in
  py_index (_gamma_rSAS.rescale o) i = inr r /\
  (is_infinity hi = true -> r = 1) /\
  ((lo <? hi) = true -> cdf_i lib (Gamma o) [hi] i = inr [1]) /\
  ((lo <? hi) = false -> cdf_i lib (Gamma o) [hi] i = inr [0]) /\
  (forall st, (lo <? st) = true -> (st <? hi) = true ->
     cdf_i lib (Gamma o) [st] i = inr [gammainc lib a (1 / s * (st - lo)) * r]).
Proof.
  intros C Hlo Hhi Ha Hs r.
  destruct (gamma_row _ _ _ _ _ _ _ _ C Hlo Hhi Ha Hs) as (Hl & Hr).
  assert (Er : _gamma_rSAS.rescale1 lib lo hi a (1 / s) = r) by reflexivity.
  rewrite Er in Hr.
  assert (K : forall ST, cdf_i lib (Gamma o) ST i
              = inr (map (_gamma_rSAS.cdf1 lib lo hi a (1 / s) r) ST)).
  { intros ST. cbn. unfold _gamma_rSAS.cdf_i. rewrite Hlo, Hhi, Ha, Hl, Hr. reflexivity. }
  split; [assumption|]. split; [|split; [|split]].
  - intros Inf. unfold r, is_finite. rewrite Inf, orb_true_r. reflexivity.
  - intros V. rewrite K. cbn [map]. unfold _gamma_rSAS.cdf1, np_where, F64.gtb.
    rewrite V, lt_irrefl. reflexivity.
  - intros V. rewrite K. cbn [map]. unfold _gamma_rSAS.cdf1, np_where, F64.gtb.
    rewrite V. reflexivity.
  - intros st L1 L2. rewrite K. cbn [map].
    unfold _gamma_rSAS.cdf1, _gamma_rSAS.inside, np_where, F64.gtb.
    rewrite L1, L2. reflexivity.
Qed.

(** C3, counterexample.  Over the table, the gamma objects created from the
    rows [(5, 5, 2, 1)] and [(10, 0, 2, 1)] have a finite [ST_max] and answer
    0, not 1, at it. *)
Lemma gamma_bound_not_above :
  (create_function Table.lib "gamma" (matrix [[5; 5; 2; 1]]) = inr (Gamma gamma_point_range) /\
   is_finite 5 = true /\
   cdf_i Table.lib (Gamma gamma_point_range) [5] 0 = inr [0]) /\
  (create_function Table.lib "gamma" (matrix [[10; 0; 2; 1]]) = inr (Gamma gamma_inverted) /\
   is_finite 0 = true /\
   cdf_i Table.lib (Gamma gamma_inverted) [0] 0 = inr [0]).
Proof. repeat split. Qed.

(** The amended C3 on the row [(0, 10, 2, 1)] over the step function: the
    stored factor is [1/1 = 1], the value at 10 is 1 and the value at 4 is
    the product of the library's value at [(1/2)*(4 - 0)] and the factor.
    And on the row [(0, inf, 2, 1)] over the table: the stored factor is 1,
    the value at [inf] is 1 and the value at 4 is the library's value at
    [(1/2)*(4 - 0)] times 1. *)
Lemma gamma_truncation_witness :
  (py_index (_gamma_rSAS.rescale gamma_step_0_10) 0 = inr 1 /\
   cdf_i Step.lib (Gamma gamma_step_0_10) [10] 0 = inr [1] /\
   cdf_i Step.lib (Gamma gamma_step_0_10) [4] 0
   = inr [gammainc Step.lib 1 (1 / 2 * (4 - 0)) * 1]) /\
  (py_index (_gamma_rSAS.rescale gamma_two_rows) 1 = inr 1 /\
   cdf_i Table.lib (Gamma gamma_two_rows) [infinity] 1 = inr [1] /\
   cdf_i Table.lib (Gamma gamma_two_rows) [4] 1
   = inr [gammainc Table.lib 1 (1 / 2 * (4 - 0)) * 1]).
Proof.
  split.
  - destruct (gamma_truncation Step.lib (matrix [[0; 10; 2; 1]]) gamma_step_0_10
                0%Z 0 10 1 2 eq_refl eq_refl eq_refl eq_refl eq_refl)
      as (R & _ & T & _ & I).
    split; [exact R|]. split; [exact (T eq_refl)|exact (I 4 eq_refl eq_refl)].
  - destruct (gamma_truncation Table.lib
                (matrix [[0; 10; 2; 1]; [0; infinity; 2; 1]]) gamma_two_rows
                1%Z 0 infinity 1 2 eq_refl eq_refl eq_refl eq_refl eq_refl)
      as (R & _ & T & _ & I).
    split; [exact R|]. split; [exact (T eq_refl)|exact (I 4 eq_refl eq_refl)].
Defined.

(** ** C7: probabilities outside [0, 1] *)



(** ** The dispatcher *)

(** X1.  The object [create_function] returns is of the class its tag names:
    a built-in tag gives the built-in class, also when the catalog knows the
    same name, and a catalog-backed object is returned only for a tag that is
    no built-in and that the catalog has. *)
Theorem created_class_matches_tag lib tag params f :
  create_function lib tag params = inr f ->
  match builtin_tag f with
  | Some t => tag = t
  | None => ~ In tag builtin_tags /\ hasattr_stats lib tag = true
  end.
Proof.
  unfold create_function, function_dict, dict_get.
  destruct (String.eqb_spec tag "gamma") as [->|N1].
  { destruct (_gamma_rSAS.__init__ lib params); cbn; [discriminate|].
    intros [= <-]. reflexivity. }
  destruct (String.eqb_spec tag "uniform") as [->|N2].
  { destruct (_uniform_rSAS.__init__ params); cbn; [discriminate|].
    intros [= <-]. reflexivity. }
  destruct (String.eqb_spec tag "kumaraswami") as [->|N3].
  { destruct (_kumaraswami_rSAS.__init__ params); cbn; [discriminate|].
    intros [= <-]. reflexivity. }
  destruct (String.eqb_spec tag "invgauss") as [->|N4].
  { destruct (_invgauss_rSAS.__init__ params); cbn; [discriminate|].
    intros [= <-]. reflexivity. }
  destruct (String.eqb_spec tag "lookuptable") as [->|N5].
  { destruct (_lookup_rSAS.__init__ params); cbn; [discriminate|].
    intros [= <-]. reflexivity. }
  destruct (hasattr_stats lib tag) eqn:H; [|discriminate].
  destruct (_stats_rSAS.__init__ lib tag params); cbn; [discriminate|].
  intros [= <-]. cbn. split; [|reflexivity].
  intros [E|[E|[E|[E|[E|[]]]]]]; congruence.
Qed.

Lemma created_class_matches_tag_witness :
  match builtin_tag (Gamma gamma_two_rows) with
  | Some t => "gamma" = t
  | None => ~ In "gamma" builtin_tags /\ hasattr_stats Table.lib "gamma" = true
  end.
Proof.
  exact (created_class_matches_tag Table.lib "gamma"
           (matrix [[0; 10; 2; 1]; [0; infinity; 2; 1]]) (Gamma gamma_two_rows) eq_refl).
Defined.

(** X2.  A tag that is no key of [function_dict] and that the catalog does
    not have raises the unrecognised-type [ValueError], whatever the
    parameter matrix. *)
Theorem unknown_tag_raises lib tag params :
  ~ In tag builtin_tags -> scipy_stats lib tag = None ->
  create_function lib tag params = inl (ValueError "No such rSAS function type").
Proof.
  intros N H. unfold create_function, function_dict, dict_get, hasattr_stats.
  repeat match goal with
  | |- context [String.eqb tag ?s] =>
      destruct (String.eqb_spec tag s) as [E|_];
        [exfalso; apply N; subst; cbn; tauto|]
  end.
  rewrite H. reflexivity.
Qed.

Lemma unknown_tag_raises_witness :
  create_function Table.lib "nonexistent_dist" (matrix [[0; 10]])
  = inl (ValueError "No such rSAS function type").
Proof.
  apply unknown_tag_raises; [|reflexivity].
  intros [E|[E|[E|[E|[E|[]]]]]]; discriminate E.
Defined.

(** X3.  A built-in constructor other than the lookup table's succeeds
    exactly when the matrix has the columns it reads by index (2 for uniform
    and invgauss, 4 for kumaraswami and gamma), and otherwise raises
    [IndexError]. *)
Theorem construction_needs_columns lib tag params k :
  columns_read tag = Some k -> tag <> "lookuptable" ->
  ok (create_function lib tag params) = (k <=? shape1 params)%nat /\
  ((k <=? shape1 params)%nat = false -> create_function lib tag params = inl IndexError).
Proof.
  unfold columns_read.
  destruct (String.eqb_spec tag "uniform") as [->|N2].
  { intros [= <-] _. cbn. unfold _uniform_rSAS.__init__, column.
    destruct (shape1 params) as [|[|n]]; cbn; split; congruence. }
  destruct (String.eqb_spec tag "kumaraswami") as [->|N3].
  { intros [= <-] _. cbn. unfold _kumaraswami_rSAS.__init__, column.
    destruct (shape1 params) as [|[|[|[|n]]]]; cbn; split; congruence. }
  destruct (String.eqb_spec tag "gamma") as [->|N1].
  { intros [= <-] _. cbn. unfold _gamma_rSAS.__init__, column.
    destruct (shape1 params) as [|[|[|[|n]]]]; cbn; split; congruence. }
  destruct (String.eqb_spec tag "invgauss") as [->|N4].
  { intros [= <-] _. cbn. unfold _invgauss_rSAS.__init__, column.
    destruct (shape1 params) as [|[|n]]; cbn; split; congruence. }
  destruct (String.eqb_spec tag "lookuptable") as [->|N5]; [congruence|discriminate].
Qed.

Lemma construction_needs_columns_witness :
  ok (create_function Table.lib "kumaraswami" (matrix [[0; 10]])) = false /\
  create_function Table.lib "kumaraswami" (matrix [[0; 10]]) = inl IndexError.
Proof.
  assert (N : "kumaraswami" <> "lookuptable") by discriminate.
  destruct (construction_needs_columns Table.lib "kumaraswami" (matrix [[0; 10]]) 4
              eq_refl N) as [A B].
  split; [exact A|exact (B eq_refl)].
Defined.

(** ** Objects and their rows *)

Lemma traverse_length {A B} (f : A -> result B) xs ys :
  traverse f xs = inr ys -> List.length ys = List.length xs.
Proof.
  revert ys. induction xs as [|x xs IH]; intros ys; cbn.
  - intros [= <-]. reflexivity.
  - destruct (f x); cbn; [discriminate|].
    destruct (traverse f xs) as [|rs]; cbn; [discriminate|].
    intros [= <-]. cbn. f_equal. now apply IH.
Qed.

Lemma invgauss_init_inv params o :
  _invgauss_rSAS.__init__ params = inr o ->
  List.length (_invgauss_rSAS.loc o) = shape0 params /\
  List.length (_invgauss_rSAS.scale o) = shape0 params /\
  _invgauss_rSAS.mu o = columns_from 2 params.
Proof.
  unfold _invgauss_rSAS.__init__.
  destruct (column 0 params) as [|c0] eqn:E0; [discriminate|].
  destruct (column 1 params) as [|c1] eqn:E1; [discriminate|].
  cbn. intros [= <-]. cbn. apply column_length in E0, E1. auto.
Qed.

Lemma stats_init_inv lib tag params o :
  _stats_rSAS.__init__ lib tag params = inr o ->
  List.length (_stats_rSAS.loc o) = shape0 params /\
  List.length (_stats_rSAS.scale o) = shape0 params /\
  List.length (_stats_rSAS.dist o) = shape0 params.
Proof.
  unfold _stats_rSAS.__init__.
  destruct (scipy_stats lib tag) as [cls|]; cbn; [|discriminate].
  destruct (column 0 params) as [|c0] eqn:E0; [discriminate|].
  destruct (column 1 params) as [|c1] eqn:E1; [discriminate|].
  apply column_length in E0, E1. cbn.
  match goal with |- context [if ?c then _ else _] => destruct c end.
  - destruct (traverse _ _) as [|d] eqn:T; cbn; [discriminate|].
    intros [= <-]. cbn. apply traverse_length in T.
    rewrite T, !length_combine. unfold columns_from. rewrite length_map.
    unfold shape0 in *. repeat split; lia.
  - destruct (traverse _ _) as [|d] eqn:T; cbn; [discriminate|].
    intros [= <-]. cbn. apply traverse_length in T.
    rewrite T, !length_combine. repeat split; lia.
Qed.

Lemma lookup_init_inv params o :
  _lookup_rSAS.__init__ params = inr o ->
  List.length (_lookup_rSAS.S_T o) = shape0 params /\
  List.length (_lookup_rSAS.Omega o) = shape0 params /\
  py_index (_lookup_rSAS.S_T o) 0 = inr (_lookup_rSAS.ST_min o) /\
  py_index (_lookup_rSAS.S_T o) (-1) = inr (_lookup_rSAS.ST_max o) /\
  _lookup_rSAS.interp1d o
  = {| scipy_interpolate.x := _lookup_rSAS.S_T o;
       scipy_interpolate.y := _lookup_rSAS.Omega o |}.
Proof.
  unfold _lookup_rSAS.__init__.
  destruct (column 0 params) as [|c0] eqn:E0; [discriminate|].
  destruct (column 1 params) as [|c1] eqn:E1; [discriminate|].
  cbn -[_lookup_rSAS.endpoints_ok].
  destruct (py_index c0 0) as [|lo] eqn:P0; [discriminate|].
  destruct (py_index c0 (-1)) as [|hi] eqn:P1; [discriminate|].
  cbn -[_lookup_rSAS.endpoints_ok].
  destruct (_lookup_rSAS.endpoints_ok c1) as [|[]]; cbn; try discriminate.
  intros [= <-]. cbn. apply column_length in E0, E1. auto 10.
Qed.

(** X4.  Every per-timestep sequence of a created object has one entry per
    row of the parameter matrix. *)
Theorem created_vectors_aligned lib tag params f :
  create_function lib tag params = inr f ->
  Forall (fun n => n = shape0 params) (vector_lengths f).
Proof.
  intros C. apply created_inv in C. destruct f as [o|o|o|o|o|o]; cbn.
  - apply kumaraswami_init_inv in C. destruct C as (L0 & L1 & L2 & L3).
    repeat constructor; assumption.
  - apply uniform_init_inv in C. destruct C as (L0 & L1 & L2).
    repeat constructor; try assumption. rewrite L2, zipWith_length. lia.
  - apply invgauss_init_inv in C. destruct C as (L0 & L1 & L2).
    repeat constructor; try assumption. rewrite L2. unfold columns_from. apply length_map.
  - apply stats_init_inv in C. destruct C as (L0 & L1 & L2).
    repeat constructor; assumption.
  - pose proof C as C'. apply gamma_init_inv in C. destruct C as (L0 & L1 & L2 & L3 & L4 & L5).
    assert (Ll : List.length (_gamma_rSAS.lam o) = shape0 params)
      by (rewrite L4, length_map; assumption).
    repeat constructor; try assumption.
    + unfold _gamma_rSAS.__init__ in C'.
      destruct (column 0 params); [discriminate|]. destruct (column 1 params); [discriminate|].
      destruct (column 2 params) as [|c2] eqn:E2; [discriminate|].
      destruct (column 3 params) as [|c3] eqn:E3; [discriminate|].
      cbn in C'. injection C' as <-. cbn. apply column_length in E2, E3.
      rewrite zipWith_length, length_map. lia.
    + rewrite L5, zipWith_length, !length_combine. lia.
  - apply lookup_init_inv in C. destruct C as (L0 & L1 & _).
    repeat constructor; assumption.
Qed.

Lemma created_vectors_aligned_witness :
  Forall (fun n => n = 2%nat) (vector_lengths (Gamma gamma_two_rows)).
Proof.
  exact (created_vectors_aligned Table.lib "gamma"
           (matrix [[0; 10; 2; 1]; [0; infinity; 2; 1]]) (Gamma gamma_two_rows) eq_refl).
Defined.

(** ** Timestep indices *)

Lemma position_None n i : position n i = None <-> (i < - Z.of_nat n \/ Z.of_nat n <= i)%Z.
Proof.
  unfold position. destruct (i <? 0)%Z eqn:S;
    [apply Z.ltb_lt in S|apply Z.ltb_ge in S];
    destruct (_ && _)%bool eqn:E; split; try discriminate; try reflexivity.
  all: try (apply andb_true_iff in E; destruct E as [E1 E2];
            apply Z.leb_le in E1; apply Z.ltb_lt in E2; lia).
  all: apply andb_false_iff in E; destruct E as [E|E];
    [apply Z.leb_gt in E|apply Z.ltb_ge in E]; lia.
Qed.

Lemma position_of_nat n k : (k < n)%nat -> position n (Z.of_nat k) = Some k.
Proof.
  intros L. unfold position.
  destruct (Z.of_nat k <? 0)%Z eqn:S; [apply Z.ltb_lt in S; lia|].
  assert (E : ((0 <=? Z.of_nat k) && (Z.of_nat k <? Z.of_nat n))%Z%bool = true).
  { apply andb_true_iff. split; [apply Z.leb_le|apply Z.ltb_lt]; lia. }
  rewrite E, Nat2Z.id. reflexivity.
Qed.

(** An index below zero selects the entry counted from the end. *)
Lemma position_wrap n i :
  (0 <= i < Z.of_nat n)%Z -> position n (i - Z.of_nat n) = position n i.
Proof.
  intros R. unfold position.
  destruct (i - Z.of_nat n <? 0)%Z eqn:S; [|apply Z.ltb_ge in S; lia].
  destruct (i <? 0)%Z eqn:S'; [apply Z.ltb_lt in S'; lia|].
  replace (Z.of_nat n + (i - Z.of_nat n))%Z with i by lia. reflexivity.
Qed.

Lemma py_index_wrap {A} (xs : list A) n i :
  List.length xs = n -> (0 <= i < Z.of_nat n)%Z ->
  py_index xs (i - Z.of_nat n) = py_index xs i.
Proof. intros <- R. unfold py_index. rewrite position_wrap by assumption. reflexivity. Qed.

Lemma py_index_out_of_range {A} (xs : list A) n i :
  List.length xs = n -> position n i = None -> py_index xs i = inl IndexError.
Proof. intros <- P. unfold py_index. rewrite P. reflexivity. Qed.

Lemma py_index_in_range {A} (xs : list A) n i k :
  List.length xs = n -> position n i = Some k ->
  exists x, py_index xs i = inr x /\ nth_error xs k = Some x.
Proof.
  intros <- P. unfold py_index. rewrite P.
  destruct (nth_error xs k) as [x|] eqn:E; [exists x; split; reflexivity|].
  apply nth_error_None in E. apply position_lt in P. lia.
Qed.

Lemma py_index_of_nat {A} (xs : list A) k x :
  nth_error xs k = Some x -> py_index xs (Z.of_nat k) = inr x.
Proof.
  intros E. apply py_index_inr. exists k. split; [|assumption].
  apply position_of_nat. apply nth_error_Some. congruence.
Qed.

(** The four classes whose [cdf_i] only selects row [i] and maps over the
    query: out of range the call raises [IndexError], in range it maps one
    function over the query. *)
Lemma cdf_i_by_position lib tag params f i :
  create_function lib tag params = inr f ->
  match f with
  | Invgauss _ | Lookup _ => True
  | Kumaraswami _ | Uniform _ | Stats _ | Gamma _ =>
      (position (shape0 params) i = None ->
       forall ST, cdf_i lib f ST i = inl IndexError) /\
      (forall k, position (shape0 params) i = Some k ->
       exists g, forall ST, cdf_i lib f ST i = inr (map g ST))
  end.
Proof.
  intros C. pose proof (created_vectors_aligned _ _ _ _ C) as A.
  destruct f as [o|o|o|o|o|o]; try exact I; cbn in A.
  - inversion_clear A as [|? ? L0 A1]. inversion_clear A1 as [|? ? L1 A2].
    inversion_clear A2 as [|? ? L2 A3]. inversion_clear A3 as [|? ? L3 _].
    split.
    + intros P ST. cbn. unfold _kumaraswami_rSAS.cdf_i.
      rewrite (py_index_out_of_range _ _ _ L1 P). reflexivity.
    + intros k P.
      destruct (py_index_in_range _ _ _ _ L0 P) as (lo & Hlo & _).
      destruct (py_index_in_range _ _ _ _ L1 P) as (hi & Hhi & _).
      destruct (py_index_in_range _ _ _ _ L2 P) as (a & Ha & _).
      destruct (py_index_in_range _ _ _ _ L3 P) as (b & Hb & _).
      exists (_kumaraswami_rSAS.cdf1 lib lo hi a b). intros ST.
      cbn. unfold _kumaraswami_rSAS.cdf_i. rewrite Hlo, Hhi, Ha, Hb. reflexivity.
  - inversion_clear A as [|? ? L0 A1]. inversion_clear A1 as [|? ? L1 A2].
    inversion_clear A2 as [|? ? L2 _].
    split.
    + intros P ST. cbn. unfold _uniform_rSAS.cdf_i.
      rewrite (py_index_out_of_range _ _ _ L1 P). reflexivity.
    + intros k P.
      destruct (py_index_in_range _ _ _ _ L0 P) as (lo & Hlo & _).
      destruct (py_index_in_range _ _ _ _ L1 P) as (hi & Hhi & _).
      destruct (py_index_in_range _ _ _ _ L2 P) as (l & Hl & _).
      exists (_uniform_rSAS.cdf1 lo hi l). intros ST.
      cbn. unfold _uniform_rSAS.cdf_i. rewrite Hlo, Hhi, Hl. reflexivity.
  - inversion_clear A as [|? ? L0 A1]. inversion_clear A1 as [|? ? L1 A2].
    inversion_clear A2 as [|? ? L2 _].
    split.
    + intros P ST. cbn. unfold _stats_rSAS.cdf_i.
      rewrite (py_index_out_of_range _ _ _ L2 P). reflexivity.
    + intros k P.
      destruct (py_index_in_range _ _ _ _ L2 P) as (d & Hd & _).
      exists d. intros ST. cbn. unfold _stats_rSAS.cdf_i. rewrite Hd. reflexivity.
  - inversion_clear A as [|? ? L0 A1]. inversion_clear A1 as [|? ? L1 A2].
    inversion_clear A2 as [|? ? L2 A3]. inversion_clear A3 as [|? ? L3 A4].
    inversion_clear A4 as [|? ? L4 A5]. inversion_clear A5 as [|? ? L5 A6].
    inversion_clear A6 as [|? ? L6 _].
    split.
    + intros P ST. cbn. unfold _gamma_rSAS.cdf_i.
      rewrite (py_index_out_of_range _ _ _ L0 P). reflexivity.
    + intros k P.
      destruct (py_index_in_range _ _ _ _ L0 P) as (lo & Hlo & _).
      destruct (py_index_in_range _ _ _ _ L1 P) as (hi & Hhi & _).
      destruct (py_index_in_range _ _ _ _ L3 P) as (a & Ha & _).
      destruct (py_index_in_range _ _ _ _ L4 P) as (l & Hl & _).
      destruct (py_index_in_range _ _ _ _ L6 P) as (r & Hr & _).
      exists (_gamma_rSAS.cdf1 lib lo hi a l r). intros ST.
      cbn. unfold _gamma_rSAS.cdf_i. rewrite Hlo, Hhi, Ha, Hl, Hr. reflexivity.
Qed.



(** X6.  For a created object over N rows and [0 <= i < N], the index
    [i - N] selects the row that [i] selects: [cdf_i] gives the same result
    at both. *)
Theorem cdf_i_negative_index lib tag params f ST i :
  create_function lib tag params = inr f ->
  (0 <= i < Z.of_nat (shape0 params))%Z ->
  cdf_i lib f ST (i - Z.of_nat (shape0 params)) = cdf_i lib f ST i.
Proof.
  intros C R. pose proof (created_vectors_aligned _ _ _ _ C) as A.
  destruct f as [o|o|o|o|o|o]; cbn in A; cbn.
  - inversion_clear A as [|? ? L0 A1]. inversion_clear A1 as [|? ? L1 A2].
    inversion_clear A2 as [|? ? L2 A3]. inversion_clear A3 as [|? ? L3 _].
    unfold _kumaraswami_rSAS.cdf_i.
    rewrite (py_index_wrap _ _ _ L0 R), (py_index_wrap _ _ _ L1 R),
      (py_index_wrap _ _ _ L2 R), (py_index_wrap _ _ _ L3 R). reflexivity.
  - inversion_clear A as [|? ? L0 A1]. inversion_clear A1 as [|? ? L1 A2].
    inversion_clear A2 as [|? ? L2 _].
    unfold _uniform_rSAS.cdf_i.
    rewrite (py_index_wrap _ _ _ L0 R), (py_index_wrap _ _ _ L1 R),
      (py_index_wrap _ _ _ L2 R). reflexivity.
  - inversion_clear A as [|? ? L0 A1]. inversion_clear A1 as [|? ? L1 A2].
    inversion_clear A2 as [|? ? L2 _].
    unfold _invgauss_rSAS.cdf_i.
    rewrite (py_index_wrap _ _ _ L0 R), (py_index_wrap _ _ _ L1 R),
      (py_index_wrap _ _ _ L2 R). reflexivity.
  - inversion_clear A as [|? ? L0 A1]. inversion_clear A1 as [|? ? L1 A2].
    inversion_clear A2 as [|? ? L2 _].
    unfold _stats_rSAS.cdf_i. rewrite (py_index_wrap _ _ _ L2 R). reflexivity.
  - inversion_clear A as [|? ? L0 A1]. inversion_clear A1 as [|? ? L1 A2].
    inversion_clear A2 as [|? ? L2 A3]. inversion_clear A3 as [|? ? L3 A4].
    inversion_clear A4 as [|? ? L4 A5]. inversion_clear A5 as [|? ? L5 A6].
    inversion_clear A6 as [|? ? L6 _].
    unfold _gamma_rSAS.cdf_i.
    rewrite (py_index_wrap _ _ _ L0 R), (py_index_wrap _ _ _ L1 R),
      (py_index_wrap _ _ _ L3 R), (py_index_wrap _ _ _ L4 R),
      (py_index_wrap _ _ _ L6 R). reflexivity.
  - reflexivity.
Qed.

Lemma cdf_i_negative_index_witness :
  cdf_i Table.lib (Gamma gamma_two_rows) [1; 20] (1 - 2)
  = cdf_i Table.lib (Gamma gamma_two_rows) [1; 20] 1.
Proof.
  apply (cdf_i_negative_index Table.lib "gamma"
           (matrix [[0; 10; 2; 1]; [0; infinity; 2; 1]]) (Gamma gamma_two_rows)
           [1; 20] 1%Z eq_refl).
  cbn. lia.
Defined.

(** ** Queries *)

(** X7.  For a created kumaraswami, uniform, gamma or catalog-backed object
    and an index in range, [cdf_i] answers the query element by element: the
    answer has the length of the query, and the answer to two queries joined
    is the two answers joined. *)
Theorem cdf_i_elementwise lib tag params f ST1 ST2 i :
  create_function lib tag params = inr f ->
  (- Z.of_nat (shape0 params) <= i < Z.of_nat (shape0 params))%Z ->
  match f with
  | Invgauss _ | Lookup _ => True
  | Kumaraswami _ | Uniform _ | Stats _ | Gamma _ =>
      exists out1 out2,
        cdf_i lib f ST1 i = inr out1 /\ cdf_i lib f ST2 i = inr out2 /\
        cdf_i lib f (ST1 ++ ST2)%list i = inr (out1 ++ out2)%list /\
        List.length out1 = List.length ST1 /\ List.length out2 = List.length ST2
  end.
Proof.
  intros C R. pose proof (cdf_i_by_position lib tag params f i C) as H.
  destruct f; try exact I.
  all: destruct H as [_ HS];
    destruct (position (shape0 params) i) as [k|] eqn:P;
    [|apply position_None in P; lia];
    destruct (HS k eq_refl) as [g Hg];
    exists (map g ST1), (map g ST2);
    rewrite !Hg, map_app, !length_map; auto.
Qed.

Lemma cdf_i_elementwise_witness :
  exists out1 out2,
    cdf_i Table.lib (Uniform uniform_0_10) [5] 0 = inr out1 /\
    cdf_i Table.lib (Uniform uniform_0_10) [-1; 10] 0 = inr out2 /\
    cdf_i Table.lib (Uniform uniform_0_10) ([5] ++ [-1; 10])%list 0 = inr (out1 ++ out2)%list /\
    List.length out1 = 1%nat /\ List.length out2 = 2%nat.
Proof.
  apply (cdf_i_elementwise Table.lib "uniform" (matrix [[0; 10]]) (Uniform uniform_0_10)
           [5] [-1; 10] 0%Z eq_refl).
  cbn. lia.
Defined.

(** The rows of a clamping object as one list, the kernel of [cdf_all] on a
    paired query and row, and [cdf_i] at the row's own index. *)
Lemma row_view lib tag params f los his :
  create_function lib tag params = inr f ->
  bounds f = Some (los, his) ->
  exists (T : Type) (R : list T) (K : float * T -> float),
    List.length R = shape0 params /\
    (forall ST, cdf_all lib f ST = (rs <- broadcast ST R ;; ret (map K rs))) /\
    (forall k r, nth_error R k = Some r ->
       forall ST, cdf_i lib f ST (Z.of_nat k) = inr (map (fun st => K (st, r)) ST)).
Proof.
  intros C B. apply created_inv in C.
  destruct f as [o|o|o|o|o|o]; try discriminate B; clear B.
  - apply kumaraswami_init_inv in C. destruct C as (L0 & L1 & L2 & L3).
    eexists _, (combine (_kumaraswami_rSAS.ST_min o) (combine (_kumaraswami_rSAS.ST_max o)
                  (combine (_kumaraswami_rSAS.a o) (_kumaraswami_rSAS.b o)))),
      (fun '(st, (lo, (hi, (a, b)))) => _kumaraswami_rSAS.cdf1 lib lo hi a b st).
    split; [rewrite !length_combine; lia|]. split; [reflexivity|].
    intros k [lo [hi [a b]]] E ST. rewrite !nth_error_combine in E.
    destruct (nth_error (_kumaraswami_rSAS.ST_min o) k) eqn:E0; [|discriminate].
    destruct (nth_error (_kumaraswami_rSAS.ST_max o) k) eqn:E1; [|discriminate].
    destruct (nth_error (_kumaraswami_rSAS.a o) k) eqn:E2; [|discriminate].
    destruct (nth_error (_kumaraswami_rSAS.b o) k) eqn:E3; [|discriminate].
    injection E as -> -> -> ->.
    cbn. unfold _kumaraswami_rSAS.cdf_i.
    rewrite (py_index_of_nat _ _ _ E0), (py_index_of_nat _ _ _ E1),
      (py_index_of_nat _ _ _ E2), (py_index_of_nat _ _ _ E3). reflexivity.
  - apply uniform_init_inv in C. destruct C as (L0 & L1 & L2).
    assert (Ll : List.length (_uniform_rSAS.lam o) = shape0 params)
      by (rewrite L2, zipWith_length; lia).
    eexists _, (combine (_uniform_rSAS.ST_min o) (combine (_uniform_rSAS.ST_max o)
                  (_uniform_rSAS.lam o))),
      (fun '(st, (lo, (hi, l))) => _uniform_rSAS.cdf1 lo hi l st).
    split; [rewrite !length_combine; lia|]. split; [reflexivity|].
    intros k [lo [hi l]] E ST. rewrite !nth_error_combine in E.
    destruct (nth_error (_uniform_rSAS.ST_min o) k) eqn:E0; [|discriminate].
    destruct (nth_error (_uniform_rSAS.ST_max o) k) eqn:E1; [|discriminate].
    destruct (nth_error (_uniform_rSAS.lam o) k) eqn:E2; [|discriminate].
    injection E as -> -> ->.
    cbn. unfold _uniform_rSAS.cdf_i.
    rewrite (py_index_of_nat _ _ _ E0), (py_index_of_nat _ _ _ E1),
      (py_index_of_nat _ _ _ E2). reflexivity.
  - apply gamma_init_inv in C. destruct C as (L0 & L1 & L2 & L3 & L4 & L5).
    assert (Ll : List.length (_gamma_rSAS.lam o) = shape0 params)
      by (rewrite L4, length_map; assumption).
    assert (Lr : List.length (_gamma_rSAS.rescale o) = shape0 params)
      by (rewrite L5, zipWith_length, !length_combine; lia).
    eexists _, (combine (_gamma_rSAS.ST_min o) (combine (_gamma_rSAS.ST_max o)
                  (combine (_gamma_rSAS.a o) (combine (_gamma_rSAS.lam o)
                     (_gamma_rSAS.rescale o))))),
      (fun '(st, (lo, (hi, (a, (l, r))))) => _gamma_rSAS.cdf1 lib lo hi a l r st).
    split; [rewrite !length_combine; lia|]. split; [reflexivity|].
    intros k [lo [hi [a [l r]]]] E ST. rewrite !nth_error_combine in E.
    destruct (nth_error (_gamma_rSAS.ST_min o) k) eqn:E0; [|discriminate].
    destruct (nth_error (_gamma_rSAS.ST_max o) k) eqn:E1; [|discriminate].
    destruct (nth_error (_gamma_rSAS.a o) k) eqn:E2; [|discriminate].
    destruct (nth_error (_gamma_rSAS.lam o) k) eqn:E3; [|discriminate].
    destruct (nth_error (_gamma_rSAS.rescale o) k) eqn:E4; [|discriminate].
    injection E as -> -> -> -> ->.
    cbn. unfold _gamma_rSAS.cdf_i.
    rewrite (py_index_of_nat _ _ _ E0), (py_index_of_nat _ _ _ E1),
      (py_index_of_nat _ _ _ E2), (py_index_of_nat _ _ _ E3),
      (py_index_of_nat _ _ _ E4). reflexivity.
Qed.

Lemma nth_error_in_range {A} (xs : list A) k :
  (k < List.length xs)%nat -> exists x, nth_error xs k = Some x.
Proof.
  intros L. destruct (nth_error xs k) as [x|] eqn:E; [eauto|].
  apply nth_error_None in E. lia.
Qed.

(** X8.  For a created kumaraswami, uniform or gamma object over N rows and a
    query of N values, [cdf_all] returns N values, and the value at position
    [k] is the one [cdf_i] gives for the [k]-th queried value at index [k]. *)
Theorem cdf_all_row_by_row lib tag params f los his ST :
  create_function lib tag params = inr f ->
  bounds f = Some (los, his) ->
  List.length ST = shape0 params ->
  exists out, cdf_all lib f ST = inr out /\ List.length out = shape0 params /\
    forall k st, nth_error ST k = Some st ->
      exists y, nth_error out k = Some y /\ cdf_i lib f [st] (Z.of_nat k) = inr [y].
Proof.
  intros C B L. destruct (row_view _ _ _ _ _ _ C B) as (T & R & K & LR & Hall & Hi).
  rewrite Hall, broadcast_same by congruence.
  exists (map K (combine ST R)). split; [reflexivity|]. split.
  { rewrite length_map, length_combine. lia. }
  intros k st E.
  destruct (nth_error_in_range R k) as [r Er].
  { rewrite LR, <- L. apply nth_error_Some. congruence. }
  exists (K (st, r)). split.
  - rewrite nth_error_map, nth_error_combine, E, Er. reflexivity.
  - rewrite (Hi k r Er). reflexivity.
Qed.

Lemma cdf_all_row_by_row_witness :
  exists out, cdf_all Table.lib (Gamma gamma_two_rows) [10; 3] = inr out /\
    List.length out = 2%nat /\
    forall k st, nth_error [10; 3] k = Some st ->
      exists y, nth_error out k = Some y /\
        cdf_i Table.lib (Gamma gamma_two_rows) [st] (Z.of_nat k) = inr [y].
Proof.
  exact (cdf_all_row_by_row Table.lib "gamma"
           (matrix [[0; 10; 2; 1]; [0; infinity; 2; 1]]) (Gamma gamma_two_rows)
           [0; 0] [10; infinity] [10; 3] eq_refl eq_refl eq_refl).
Defined.

(** X9.  For a created kumaraswami, uniform or gamma object over N rows,
    [cdf_all] on a single queried value evaluates it against every row, and
    on a query whose length is neither N nor 1 (with N not 1) it raises the
    broadcasting [ValueError]. *)
Theorem cdf_all_broadcasting lib tag params f los his :
  create_function lib tag params = inr f ->
  bounds f = Some (los, his) ->
  (forall st, exists out, cdf_all lib f [st] = inr out /\
     List.length out = shape0 params /\
     forall k, (k < shape0 params)%nat ->
       exists y, nth_error out k = Some y /\ cdf_i lib f [st] (Z.of_nat k) = inr [y]) /\
  (forall ST, List.length ST <> shape0 params -> List.length ST <> 1%nat ->
     shape0 params <> 1%nat -> exists msg, cdf_all lib f ST = inl (ValueError msg)).
Proof.
  intros C B. destruct (row_view _ _ _ _ _ _ C B) as (T & R & K & LR & Hall & Hi).
  split.
  - intros st. rewrite Hall.
    assert (E : broadcast [st] R = inr (map (fun r => (st, r)) R)).
    { unfold broadcast. destruct (List.length [st] =? List.length R)%nat eqn:Q; [|reflexivity].
      apply Nat.eqb_eq in Q. destruct R as [|r [|r' R']]; try discriminate Q. reflexivity. }
    rewrite E. exists (map K (map (fun r => (st, r)) R)). split; [reflexivity|]. split.
    { rewrite !length_map. assumption. }
    intros k Lk. destruct (nth_error_in_range R k) as [r Er]; [lia|].
    exists (K (st, r)). split.
    + rewrite !nth_error_map, Er. reflexivity.
    + rewrite (Hi k r Er). reflexivity.
  - intros ST N1 N2 N3. rewrite Hall. unfold broadcast.
    destruct (List.length ST =? List.length R)%nat eqn:Q;
      [apply Nat.eqb_eq in Q; congruence|].
    destruct ST as [|s [|s' ST']]; [| cbn in N2; congruence |].
    + destruct R as [|r [|r' R']]; [cbn in Q; discriminate | cbn in LR; congruence |].
      eexists; reflexivity.
    + destruct R as [|r [|r' R']];
        [eexists; reflexivity | cbn in LR; congruence | eexists; reflexivity].
Qed.

Lemma cdf_all_broadcasting_witness :
  exists msg, cdf_all Table.lib (Gamma gamma_two_rows) [1; 2; 3] = inl (ValueError msg).
Proof.
  apply (proj2 (cdf_all_broadcasting Table.lib "gamma"
                  (matrix [[0; 10; 2; 1]; [0; infinity; 2; 1]]) (Gamma gamma_two_rows)
                  [0; 0] [10; infinity] eq_refl eq_refl)); cbn; lia.
Defined.

(** ** Edge rows and edge queries *)

Lemma is_nan_SF x : is_nan x = true -> Prim2SF x = S754_nan.
Proof.
  unfold is_nan. rewrite eqb_spec. unfold SFeqb. intros H.
  destruct (Prim2SF x) eqn:E; try reflexivity;
    rewrite SFcompare_refl in H by congruence; discriminate.
Qed.

(** A nan compares false with everything. *)
Lemma nan_compares_false x y :
  is_nan x = true ->
  (x <? y) = false /\ (y <? x) = false /\ (x <=? y) = false /\ (y <=? x) = false.
Proof.
  intros N. apply is_nan_SF in N. rewrite !ltb_spec, !leb_spec, N.
  unfold SFltb, SFleb. cbn. destruct (Prim2SF y); auto.
Qed.

(** The kernel of [cdf_i] of a clamping object at an index in range, with the
    bounds of the row. *)
Lemma cdf_i_kernel lib tag params f los his i :
  create_function lib tag params = inr f ->
  bounds f = Some (los, his) ->
  (- Z.of_nat (shape0 params) <= i < Z.of_nat (shape0 params))%Z ->
  exists lo hi, py_index los i = inr lo /\ py_index his i = inr hi /\
    match f with
    | Kumaraswami _ =>
        exists a b, forall ST,
          cdf_i lib f ST i = inr (map (_kumaraswami_rSAS.cdf1 lib lo hi a b) ST)
    | Uniform _ =>
        exists l, forall ST, cdf_i lib f ST i = inr (map (_uniform_rSAS.cdf1 lo hi l) ST)
    | Gamma _ =>
        exists a l r, forall ST,
          cdf_i lib f ST i = inr (map (_gamma_rSAS.cdf1 lib lo hi a l r) ST)
    | Invgauss _ | Stats _ | Lookup _ => True
    end.
Proof.
  intros C B R. pose proof (created_vectors_aligned _ _ _ _ C) as A.
  destruct (position (shape0 params) i) as [k|] eqn:P;
    [|apply position_None in P; lia].
  destruct f as [o|o|o|o|o|o]; try discriminate B; injection B as <- <-; cbn in A.
  - inversion_clear A as [|? ? L0 A1]. inversion_clear A1 as [|? ? L1 A2].
    inversion_clear A2 as [|? ? L2 A3]. inversion_clear A3 as [|? ? L3 _].
    destruct (py_index_in_range _ _ _ _ L0 P) as (lo & Hlo & _).
    destruct (py_index_in_range _ _ _ _ L1 P) as (hi & Hhi & _).
    destruct (py_index_in_range _ _ _ _ L2 P) as (a & Ha & _).
    destruct (py_index_in_range _ _ _ _ L3 P) as (b & Hb & _).
    exists lo, hi. split; [assumption|]. split; [assumption|]. exists a, b. intros ST.
    cbn. unfold _kumaraswami_rSAS.cdf_i. rewrite Hlo, Hhi, Ha, Hb. reflexivity.
  - inversion_clear A as [|? ? L0 A1]. inversion_clear A1 as [|? ? L1 A2].
    inversion_clear A2 as [|? ? L2 _].
    destruct (py_index_in_range _ _ _ _ L0 P) as (lo & Hlo & _).
    destruct (py_index_in_range _ _ _ _ L1 P) as (hi & Hhi & _).
    destruct (py_index_in_range _ _ _ _ L2 P) as (l & Hl & _).
    exists lo, hi. split; [assumption|]. split; [assumption|]. exists l. intros ST.
    cbn. unfold _uniform_rSAS.cdf_i. rewrite Hlo, Hhi, Hl. reflexivity.
  - inversion_clear A as [|? ? L0 A1]. inversion_clear A1 as [|? ? L1 A2].
    inversion_clear A2 as [|? ? L2 A3]. inversion_clear A3 as [|? ? L3 A4].
    inversion_clear A4 as [|? ? L4 A5]. inversion_clear A5 as [|? ? L5 A6].
    inversion_clear A6 as [|? ? L6 _].
    destruct (py_index_in_range _ _ _ _ L0 P) as (lo & Hlo & _).
    destruct (py_index_in_range _ _ _ _ L1 P) as (hi & Hhi & _).
    destruct (py_index_in_range _ _ _ _ L3 P) as (a & Ha & _).
    destruct (py_index_in_range _ _ _ _ L4 P) as (l & Hl & _).
    destruct (py_index_in_range _ _ _ _ L6 P) as (r & Hr & _).
    exists lo, hi. split; [assumption|]. split; [assumption|]. exists a, l, r. intros ST.
    cbn. unfold _gamma_rSAS.cdf_i. rewrite Hlo, Hhi, Ha, Hl, Hr. reflexivity.
Qed.

Lemma Forall2_map_r {A B} (R : A -> B -> Prop) (g : A -> B) xs :
  (forall x, R x (g x)) -> Forall2 R xs (map g xs).
Proof. intros H. induction xs; constructor; auto. Qed.

(** X10.  A nan in the query is never propagated by the clamping variants:
    for a created object and an index in range, [cdf_i] answers 1 at a nan
    for the uniform variant and 0 for the gamma and kumaraswami variants,
    whatever the row. *)
Theorem nan_query_is_clamped lib tag params f los his i ST :
  create_function lib tag params = inr f ->
  bounds f = Some (los, his) ->
  (- Z.of_nat (shape0 params) <= i < Z.of_nat (shape0 params))%Z ->
  exists out, cdf_i lib f ST i = inr out /\
    Forall2 (fun st y => is_nan st = true ->
                         y = match f with Uniform _ => 1 | _ => 0 end) ST out.
Proof.
  intros C B R.
  destruct (cdf_i_kernel _ _ _ _ _ _ _ C B R) as (lo & hi & _ & _ & H).
  destruct f as [o|o|o|o|o|o]; try discriminate B.
  - destruct H as (a & b & H). rewrite H. eexists; split; [reflexivity|].
    apply Forall2_map_r. intros st N.
    destruct (nan_compares_false st lo N) as (_ & G & _).
    unfold _kumaraswami_rSAS.cdf1, np_where, F64.gtb. rewrite G.
    destruct (F64.geb hi lo); reflexivity.
  - destruct H as (l & H). rewrite H. eexists; split; [reflexivity|].
    apply Forall2_map_r. intros st N.
    destruct (nan_compares_false st hi N) as (G & _).
    unfold _uniform_rSAS.cdf1, np_where. rewrite G. reflexivity.
  - destruct H as (a & l & r & H). rewrite H. eexists; split; [reflexivity|].
    apply Forall2_map_r. intros st N.
    destruct (nan_compares_false st lo N) as (_ & G & _).
    unfold _gamma_rSAS.cdf1, np_where, F64.gtb. rewrite G. reflexivity.
Qed.

Lemma nan_query_is_clamped_witness :
  exists out, cdf_i Table.lib (Uniform uniform_0_10) [nan; 5] 0 = inr out /\
    Forall2 (fun st y => is_nan st = true -> y = 1) [nan; 5] out.
Proof.
  apply (nan_query_is_clamped Table.lib "uniform" (matrix [[0; 10]]) (Uniform uniform_0_10)
           [0] [10] 0%Z [nan; 5] eq_refl eq_refl).
  cbn. lia.
Defined.

(** X11.  On a row with [ST_min = ST_max = v] the clamping variants are step
    functions that never select the in-range formula: the uniform variant
    answers 0 below [v] and 1 at and above it, the gamma and kumaraswami
    variants answer 0 at and below [v] and 1 above it.  At [v] itself the
    uniform variant gives 1 and the other two give 0. *)
Theorem degenerate_row_is_a_step lib tag params f los his i v ST :
  create_function lib tag params = inr f ->
  bounds f = Some (los, his) ->
  py_index los i = inr v -> py_index his i = inr v -> (v <=? v) = true ->
  exists out, cdf_i lib f ST i = inr out /\
    Forall2 (fun st y =>
               match f with
               | Uniform _ => ((st <? v) = true -> y = 0) /\ ((v <=? st) = true -> y = 1)
               | _ => ((st <=? v) = true -> y = 0) /\ ((v <? st) = true -> y = 1)
               end) ST out.
Proof.
  intros C B Hlo Hhi V.
  assert (R : (- Z.of_nat (shape0 params) <= i < Z.of_nat (shape0 params))%Z).
  { destruct (position (shape0 params) i) eqn:P.
    - assert (~ (i < - Z.of_nat (shape0 params) \/ Z.of_nat (shape0 params) <= i)%Z)
        by (intros X; apply position_None in X; congruence). lia.
    - pose proof (created_vectors_aligned _ _ _ _ C) as A.
      assert (L : List.length los = shape0 params).
      { destruct f; try discriminate B; injection B as <- <-; cbn in A;
          inversion_clear A; assumption. }
      rewrite (py_index_out_of_range _ _ _ L P) in Hlo. discriminate. }
  destruct (cdf_i_kernel _ _ _ _ _ _ _ C B R) as (lo & hi & Hlo' & Hhi' & H).
  rewrite Hlo in Hlo'. injection Hlo' as <-. rewrite Hhi in Hhi'. injection Hhi' as <-.
  destruct f as [o|o|o|o|o|o]; try discriminate B.
  - destruct H as (a & b & H). rewrite H. eexists; split; [reflexivity|].
    apply Forall2_map_r. intros st.
    unfold _kumaraswami_rSAS.cdf1, np_where, F64.gtb, F64.geb. rewrite V. split.
    + intros Le. rewrite (le_not_gt _ _ Le). reflexivity.
    + intros Gt. rewrite Gt, (le_not_gt _ _ (lt_le _ _ Gt)). reflexivity.
  - destruct H as (l & H). rewrite H. eexists; split; [reflexivity|].
    apply Forall2_map_r. intros st.
    unfold _uniform_rSAS.cdf1, np_where, F64.gtb. split.
    + intros Lt. rewrite Lt, (le_not_gt _ _ (lt_le _ _ Lt)). reflexivity.
    + intros Ge. rewrite (le_not_gt _ _ Ge). reflexivity.
  - destruct H as (a & l & r & H). rewrite H. eexists; split; [reflexivity|].
    apply Forall2_map_r. intros st.
    unfold _gamma_rSAS.cdf1, np_where, F64.gtb. split.
    + intros Le. rewrite (le_not_gt _ _ Le). reflexivity.
    + intros Gt. rewrite Gt, (le_not_gt _ _ (lt_le _ _ Gt)). reflexivity.
Qed.

Lemma degenerate_row_is_a_step_witness :
  exists out,
    (f <- create_function Table.lib "uniform" (matrix [[3; 3]]) ;; cdf_i Table.lib f [2; 3; 4] 0)
    = inr out /\ out = [0; 1; 1].
Proof.
  destruct (degenerate_row_is_a_step Table.lib "uniform" (matrix [[3; 3]])
              (Uniform {| _uniform_rSAS.ST_min := [3]; _uniform_rSAS.ST_max := [3];
                          _uniform_rSAS.lam := [infinity] |})
              [3] [3] 0%Z 3 [2; 3; 4] eq_refl eq_refl eq_refl eq_refl eq_refl)
    as (out & E & _).
  exists out. split; [exact E|].
  cbn in E. injection E as <-. reflexivity.
Defined.

(** ** The lookup table and its interpolant *)

Lemma lt_asym x y : (x <? y) = true -> (y <? x) = false.
Proof. intros H. apply le_not_gt. now apply lt_le. Qed.

Lemma existsb_map {A B} (p : B -> bool) (g : A -> B) xs :
  existsb p (map g xs) = existsb (fun x => p (g x)) xs.
Proof. induction xs as [|x xs IH]; cbn; [reflexivity|]. now rewrite IH. Qed.

Lemma existsb_false {A} (p : A -> bool) xs :
  (forall x, p x = false) -> existsb p xs = false.
Proof. intros H. induction xs as [|x xs IH]; cbn; [reflexivity|]. now rewrite H, IH. Qed.

(** A created lookup table has at least two breakpoints when its first one is
    below its last one. *)
Lemma lookup_two_breakpoints (S_T : list float) lo hi :
  py_index S_T 0 = inr lo -> py_index S_T (-1) = inr hi -> (lo <? hi) = true ->
  (2 <= List.length S_T)%nat.
Proof.
  intros H0 H1 V. destruct S_T as [|s0 [|s1 S]]; cbn; try lia.
  - discriminate H0.
  - cbn in H0, H1. injection H0 as <-. injection H1 as <-.
    rewrite lt_irrefl in V. discriminate.
Qed.

Lemma traverse_total {A B} (f : A -> result B) xs :
  (forall x, exists y, f x = inr y) ->
  exists ys, traverse f xs = inr ys /\ List.length ys = List.length xs.
Proof.
  intros H. induction xs as [|x xs (ys & E & L)]; cbn.
  - exists []. auto.
  - destruct (H x) as [y Hy]. rewrite Hy, E. cbn. exists (y :: ys). cbn. auto.
Qed.

(** With at least two breakpoints and as many values, [_call_linear] always
    finds its segment. *)
Lemma call_linear_total (f : scipy_interpolate.interp1d) v :
  (2 <= List.length (scipy_interpolate.x f))%nat ->
  List.length (scipy_interpolate.y f) = List.length (scipy_interpolate.x f) ->
  exists r, scipy_interpolate._call_linear f v = inr r.
Proof.
  intros L2 Ly. unfold scipy_interpolate._call_linear.
  set (n := List.length (scipy_interpolate.x f)) in *.
  set (hi := scipy_interpolate.clip _ 1 _).
  assert (Rh : (1 <= hi <= Z.of_nat n - 1)%Z).
  { unfold hi, scipy_interpolate.clip. lia. }
  assert (Ph : position n hi = Some (Z.to_nat hi)).
  { replace hi with (Z.of_nat (Z.to_nat hi)) at 1 by lia. apply position_of_nat. lia. }
  assert (Pl : position n (hi - 1) = Some (Z.to_nat (hi - 1))).
  { replace (hi - 1)%Z with (Z.of_nat (Z.to_nat (hi - 1))) at 1 by lia.
    apply position_of_nat. lia. }
  destruct (py_index_in_range (scipy_interpolate.x f) n _ _ eq_refl Pl) as (xl & -> & _).
  destruct (py_index_in_range (scipy_interpolate.x f) n _ _ eq_refl Ph) as (xh & -> & _).
  destruct (py_index_in_range (scipy_interpolate.y f) n _ _ Ly Pl) as (yl & -> & _).
  destruct (py_index_in_range (scipy_interpolate.y f) n _ _ Ly Ph) as (yh & -> & _).
  cbn. eauto.
Qed.

(** X12.  A created lookup table whose breakpoints run from [S_T[0] <= 0] to
    [S_T[-1] >= 1] never raises: [cdf_i] and [cdf_all] return one value per
    queried value, for every query, nan and infinities included. *)
Theorem lookup_total_over_unit_interval lib tag params o ST i :
  create_function lib tag params = inr (Lookup o) ->
  (_lookup_rSAS.ST_min o <=? 0) = true -> (1 <=? _lookup_rSAS.ST_max o) = true ->
  exists out, cdf_i lib (Lookup o) ST i = inr out /\
    cdf_all lib (Lookup o) ST = inr out /\ List.length out = List.length ST.
Proof.
  intros C Hlo Hhi. apply created_inv in C. apply lookup_init_inv in C.
  destruct C as (L0 & L1 & P0 & P1 & EI).
  set (lo := _lookup_rSAS.ST_min o) in *. set (hi := _lookup_rSAS.ST_max o) in *.
  assert (Z1 : (0 <? 1) = true) by reflexivity.
  assert (V : (lo <? hi) = true).
  { apply (le_lt_trans lo 0 hi Hlo). apply (lt_le_trans 0 1 hi Z1 Hhi). }
  assert (N2 := lookup_two_breakpoints _ _ _ P0 P1 V).
  cbn. unfold _lookup_rSAS.cdf_i, scipy_interpolate.call. fold lo hi.
  rewrite EI. cbn [scipy_interpolate.x]. rewrite P0, P1. cbn.
  rewrite !existsb_map.
  rewrite existsb_false, existsb_false.
  - destruct (traverse_total (scipy_interpolate._call_linear
                {| scipy_interpolate.x := _lookup_rSAS.S_T o;
                   scipy_interpolate.y := _lookup_rSAS.Omega o |})
                (map (_lookup_rSAS.clamp1 lo hi) ST)) as (out & E & L).
    { intros v. apply call_linear_total; cbn; [assumption|congruence]. }
    exists out. rewrite length_map in L. auto.
  - intros st. unfold _lookup_rSAS.clamp1, np_where, F64.gtb.
    destruct (st <? hi) eqn:A; [destruct (lo <? st) eqn:B|].
    + now apply lt_asym.
    + apply lt_asym. apply (lt_le_trans 0 1 hi Z1 Hhi).
    + now apply le_not_gt.
  - intros st. unfold _lookup_rSAS.clamp1, np_where, F64.gtb.
    destruct (st <? hi) eqn:A; [destruct (lo <? st) eqn:B|].
    + now apply lt_asym.
    + now apply le_not_gt.
    + apply lt_asym. apply (le_lt_trans lo 0 1 Hlo Z1).
Qed.

Lemma lookup_total_over_unit_interval_witness :
  exists out, cdf_i Table.lib (Lookup lookup_three_points) [nan; -5; 7] 0 = inr out /\
    cdf_all Table.lib (Lookup lookup_three_points) [nan; -5; 7] = inr out /\
    List.length out = 3%nat.
Proof.
  exact (lookup_total_over_unit_interval Table.lib "lookuptable"
           (matrix [[0; 0]; [1; 0.5]; [2; 1]]) lookup_three_points [nan; -5; 7] 0%Z
           eq_refl eq_refl eq_refl).
Defined.



(** ** Inverse CDFs outside the open unit interval *)

(** X14.  For a created gamma object and an index in range, [invcdf_i]
    returns a nan at every probability that is not above 0: at 0 itself, below
    0 and at a nan, whatever the row. *)
Theorem gamma_invcdf_i_not_positive lib params o P i :
  create_function lib "gamma" params = inr (Gamma o) ->
  (- Z.of_nat (shape0 params) <= i < Z.of_nat (shape0 params))%Z ->
  exists out, invcdf_i lib (Gamma o) P i = inr out /\
    Forall2 (fun p y => (0 <? p) = false -> y = nan) P out.
Proof.
  intros C R. pose proof (created_vectors_aligned _ _ _ _ C) as A. cbn in A.
  destruct (position (shape0 params) i) as [k|] eqn:Pk;
    [|apply position_None in Pk; lia].
  inversion_clear A as [|? ? L0 A1]. inversion_clear A1 as [|? ? L1 A2].
  inversion_clear A2 as [|? ? L2 A3]. inversion_clear A3 as [|? ? L3 A4].
  inversion_clear A4 as [|? ? L4 A5]. inversion_clear A5 as [|? ? L5 A6].
  inversion_clear A6 as [|? ? L6 _].
  destruct (py_index_in_range _ _ _ _ L0 Pk) as (lo & Hlo & _).
  destruct (py_index_in_range _ _ _ _ L3 Pk) as (a & Ha & _).
  destruct (py_index_in_range _ _ _ _ L4 Pk) as (l & Hl & _).
  destruct (py_index_in_range _ _ _ _ L6 Pk) as (r & Hr & _).
  exists (map (_gamma_rSAS.invcdf1 lib lo a l r) P). split.
  - cbn. unfold _gamma_rSAS.invcdf_i. rewrite Ha, Hr, Hl, Hlo. reflexivity.
  - apply Forall2_map_r. intros p N.
    unfold _gamma_rSAS.invcdf1, np_where, F64.gtb, np_nan. rewrite N.
    apply nan_div_plus.
Qed.

Lemma gamma_invcdf_i_not_positive_witness :
  exists out, invcdf_i Table.lib (Gamma gamma_two_rows) [0; nan; -3] 1 = inr out /\
    Forall2 (fun p y => (0 <? p) = false -> y = nan) [0; nan; -3] out.
Proof.
  apply (gamma_invcdf_i_not_positive Table.lib
           (matrix [[0; 10; 2; 1]; [0; infinity; 2; 1]]) gamma_two_rows
           [0; nan; -3] 1%Z eq_refl).
  cbn. lia.
Defined.

(** X15.  For a created uniform object and an index in range, with
    [lam = 1/(ST_max - ST_min)] of the row: [invcdf_i] returns
    [p/lam + ST_min] for [0 < p < 1], the value at 0, [0/lam + ST_min], for
    every [p <= 0], and the value at 1, [1/lam + ST_min], for every [p] that
    is not below 1, a nan included. *)
Theorem uniform_invcdf_i_saturates lib params o P i :
  create_function lib "uniform" params = inr (Uniform o) ->
  (- Z.of_nat (shape0 params) <= i < Z.of_nat (shape0 params))%Z ->
  exists lo hi out,
    py_index (_uniform_rSAS.ST_min o) i = inr lo /\
    py_index (_uniform_rSAS.ST_max o) i = inr hi /\
    invcdf_i lib (Uniform o) P i = inr out /\
    Forall2 (fun p y =>
               ((0 <? p) = true -> (p <? 1) = true -> y = p / (1 / (hi - lo)) + lo) /\
               ((p <=? 0) = true -> y = 0 / (1 / (hi - lo)) + lo) /\
               ((p <? 1) = false -> y = 1 / (1 / (hi - lo)) + lo)) P out.
Proof.
  intros C R. pose proof (created_vectors_aligned _ _ _ _ C) as A. cbn in A.
  apply created_inv in C. apply uniform_init_inv in C. destruct C as (_ & _ & EL).
  destruct (position (shape0 params) i) as [k|] eqn:Pk;
    [|apply position_None in Pk; lia].
  inversion_clear A as [|? ? L0 A1]. inversion_clear A1 as [|? ? L1 A2].
  inversion_clear A2 as [|? ? L2 _].
  destruct (py_index_in_range _ _ _ _ L0 Pk) as (lo & Hlo & _).
  destruct (py_index_in_range _ _ _ _ L1 Pk) as (hi & Hhi & _).
  assert (Hl : py_index (_uniform_rSAS.lam o) i = inr (1 / (hi - lo))).
  { rewrite EL. apply (py_index_zipWith (fun hi lo => 1 / (hi - lo))); [congruence|assumption..]. }
  exists lo, hi, (map (_uniform_rSAS.invcdf1 lo (1 / (hi - lo))) P).
  split; [assumption|]. split; [assumption|]. split.
  - cbn. unfold _uniform_rSAS.invcdf_i. rewrite Hl, Hlo. reflexivity.
  - apply Forall2_map_r. intros p.
    unfold _uniform_rSAS.invcdf1, np_where, F64.gtb. repeat split.
    + intros G L. rewrite L, G. reflexivity.
    + intros Le.
      assert (L : (p <? 1) = true) by (apply (le_lt_trans p 0 1 Le); reflexivity).
      rewrite L, (le_not_gt _ _ Le). reflexivity.
    + intros N. rewrite N. reflexivity.
Qed.

Lemma uniform_invcdf_i_saturates_witness :
  exists lo hi out,
    py_index (_uniform_rSAS.ST_min uniform_0_10) 0 = inr lo /\
    py_index (_uniform_rSAS.ST_max uniform_0_10) 0 = inr hi /\
    invcdf_i Table.lib (Uniform uniform_0_10) [0.5; -2; nan] 0 = inr out /\
    Forall2 (fun p y =>
               ((0 <? p) = true -> (p <? 1) = true -> y = p / (1 / (hi - lo)) + lo) /\
               ((p <=? 0) = true -> y = 0 / (1 / (hi - lo)) + lo) /\
               ((p <? 1) = false -> y = 1 / (1 / (hi - lo)) + lo)) [0.5; -2; nan] out.
Proof.
  apply (uniform_invcdf_i_saturates Table.lib (matrix [[0; 10]]) uniform_0_10
           [0.5; -2; nan] 0%Z eq_refl).
  cbn. lia.
Defined.

(** ** The catalog-backed variant *)

Lemma traverse_nth {A B} (f : A -> result B) xs ys k x :
  traverse f xs = inr ys -> nth_error xs k = Some x ->
  exists y, nth_error ys k = Some y /\ f x = inr y.
Proof.
  revert ys k. induction xs as [|x0 xs IH]; intros ys k; cbn.
  - intros _ E. destruct k; discriminate E.
  - destruct (f x0) as [|y0] eqn:F0; cbn; [discriminate|].
    destruct (traverse f xs) as [|rs]; cbn; [discriminate|].
    intros [= <-]. destruct k as [|k]; cbn.
    + intros [= <-]. eauto.
    + intros E. now apply IH.
Qed.

(** X16.  A created catalog-backed object holds one frozen distribution per
    row, built by the catalog's class of that tag from the row's [loc]
    (column 0), [scale] (column 1) and, when the matrix has more than two
    columns, the remaining columns as shape arguments; [cdf_i] at the row's
    index maps the [cdf] of that distribution over the query. *)
Theorem stats_one_distribution_per_row lib tag params o k row :
  create_function lib tag params = inr (Stats o) ->
  nth_error (rows params) k = Some row ->
  exists cls d,
    scipy_stats lib tag = Some cls /\
    cls (if (2 <? shape1 params)%nat then skipn 2 row else []) (nth 0 row 0) (nth 1 row 0)
    = inr d /\
    forall ST, cdf_i lib (Stats o) ST (Z.of_nat k) = inr (map d ST).
Proof.
  intros C E. apply created_inv in C. unfold _stats_rSAS.__init__ in C.
  assert (En : forall j, nth_error (map (fun r => nth j r 0) (rows params)) k
                         = Some (nth j row 0)).
  { intros j. rewrite nth_error_map, E. reflexivity. }
  assert (K : forall d, nth_error (_stats_rSAS.dist o) k = Some d ->
              forall ST, cdf_i lib (Stats o) ST (Z.of_nat k) = inr (map d ST)).
  { intros d Hd ST. cbn. unfold _stats_rSAS.cdf_i.
    rewrite (py_index_of_nat _ _ _ Hd). reflexivity. }
  destruct (2 <? shape1 params)%nat.
  all: destruct (scipy_stats lib tag) as [cls|]; [|discriminate]; cbn in C;
    unfold column in C;
    destruct (0 <? shape1 params)%nat; [|discriminate];
    destruct (1 <? shape1 params)%nat; [|discriminate]; cbn in C;
    exists cls;
    destruct (traverse _ _) as [|ds] eqn:T; [discriminate|]; cbn in C;
    injection C as <-.
  - destruct (traverse_nth _ _ _ k (skipn 2 row, (nth 0 row 0, nth 1 row 0)) T)
      as (d & Hd & Fd).
    { rewrite !nth_error_combine, !En. unfold columns_from.
      rewrite nth_error_map, E. reflexivity. }
    exists d. split; [reflexivity|]. split; [exact Fd|exact (K d Hd)].
  - destruct (traverse_nth _ _ _ k (nth 0 row 0, nth 1 row 0) T) as (d & Hd & Fd).
    { rewrite !nth_error_combine, !En. reflexivity. }
    exists d. split; [reflexivity|]. split; [exact Fd|exact (K d Hd)].
Qed.

Lemma stats_one_distribution_per_row_witness :
  exists o, create_function Table.lib "expon" (matrix [[0; 1]; [2; 4]]) = inr (Stats o) /\
    exists cls d,
      scipy_stats Table.lib "expon" = Some cls /\
      cls [] 2 4 = inr d /\
      forall ST, cdf_i Table.lib (Stats o) ST 1 = inr (map d ST).
Proof.
  eexists. split; [reflexivity|].
  exact (stats_one_distribution_per_row Table.lib "expon" (matrix [[0; 1]; [2; 4]]) _
           1%nat [2; 4] eq_refl eq_refl).
Defined.

(** ** The inverse-Gaussian variant *)

Lemma broadcast_scalar_r {A B} (xs : list A) (y : B) :
  broadcast xs [y] = inr (map (fun x => (x, y)) xs).
Proof.
  unfold broadcast. destruct xs as [|x [|x' xs]]; reflexivity.
Qed.

(** X17.  For a created invgauss object and a row of three columns
    [(loc, scale, mu)], [cdf_i] at the row's index evaluates the
    inverse-Gaussian formula at [(ST - loc)/scale] for every queried value,
    with no test of the value against [loc]. *)
Theorem invgauss_three_columns lib params o k row ST :
  create_function lib "invgauss" params = inr (Invgauss o) ->
  nth_error (rows params) k = Some row -> List.length row = 3%nat ->
  cdf_i lib (Invgauss o) ST (Z.of_nat k)
  = inr (map (fun st => _invgauss_rSAS.cdf1 lib ((st - nth 0 row 0) / nth 1 row 0)
                          (nth 2 row 0)) ST).
Proof.
  intros C E L. apply created_inv in C. unfold _invgauss_rSAS.__init__, column in C.
  destruct (0 <? shape1 params)%nat; [|discriminate].
  destruct (1 <? shape1 params)%nat; [|discriminate].
  cbn in C. injection C as <-.
  cbn. unfold _invgauss_rSAS.cdf_i. cbn.
  rewrite (py_index_of_nat _ k (nth 0 row 0)) by (rewrite nth_error_map, E; reflexivity).
  rewrite (py_index_of_nat _ k (nth 1 row 0)) by (rewrite nth_error_map, E; reflexivity).
  rewrite (py_index_of_nat _ k [nth 2 row 0]).
  - cbn. rewrite broadcast_scalar_r. cbn. rewrite !map_map. reflexivity.
  - unfold columns_from. rewrite nth_error_map, E. cbn.
    destruct row as [|r0 [|r1 [|r2 [|r3 row]]]]; try discriminate L. reflexivity.
Qed.

Lemma invgauss_three_columns_witness :
  cdf_i Table.lib (Invgauss invgauss_unit) [0.5; 2] 0
  = inr (map (fun st => _invgauss_rSAS.cdf1 Table.lib ((st - 0) / 1) 1) [0.5; 2]).
Proof.
  exact (invgauss_three_columns Table.lib (matrix [[0; 1; 1]]) invgauss_unit 0%nat
           [0; 1; 1] [0.5; 2] eq_refl eq_refl eq_refl).
Defined.

(** X18.  An invgauss object created from rows of only two columns has no
    shape value to evaluate: [cdf_i] at a row's index returns an empty array
    for a query of at most one value and raises the broadcasting [ValueError]
    for a longer query. *)
Theorem invgauss_two_columns lib params o k row ST :
  create_function lib "invgauss" params = inr (Invgauss o) ->
  nth_error (rows params) k = Some row -> List.length row = 2%nat ->
  ((List.length ST <= 1)%nat -> cdf_i lib (Invgauss o) ST (Z.of_nat k) = inr []) /\
  ((2 <= List.length ST)%nat ->
   exists msg, cdf_i lib (Invgauss o) ST (Z.of_nat k) = inl (ValueError msg)).
Proof.
  intros C E L. apply created_inv in C. unfold _invgauss_rSAS.__init__, column in C.
  destruct (0 <? shape1 params)%nat; [|discriminate].
  destruct (1 <? shape1 params)%nat; [|discriminate].
  cbn in C. injection C as <-.
  cbn. unfold _invgauss_rSAS.cdf_i. cbn.
  rewrite (py_index_of_nat _ k (nth 0 row 0)) by (rewrite nth_error_map, E; reflexivity).
  rewrite (py_index_of_nat _ k (nth 1 row 0)) by (rewrite nth_error_map, E; reflexivity).
  rewrite (py_index_of_nat _ k []).
  - cbn. destruct ST as [|s0 [|s1 ST]]; cbn; split; intros H;
      try reflexivity; try lia; eexists; reflexivity.
  - unfold columns_from. rewrite nth_error_map, E. cbn.
    destruct row as [|r0 [|r1 [|r2 row]]]; try discriminate L. reflexivity.
Qed.

Lemma invgauss_two_columns_witness :
  exists msg,
    (f <- create_function Table.lib "invgauss" (matrix [[0; 1]]) ;;
     cdf_i Table.lib f [0.5; 2] 0)
    = inl (ValueError msg).
Proof.
  apply (proj2 (invgauss_two_columns Table.lib (matrix [[0; 1]])
                  {| _invgauss_rSAS.loc := [0]; _invgauss_rSAS.scale := [1];
                     _invgauss_rSAS.mu := [[]] |} 0%nat [0; 1] [0.5; 2]
                  eq_refl eq_refl eq_refl)).
  cbn. lia.
Defined.

(** ** What [cdf_i] can raise *)

Lemma py_index_error {A} (xs : list A) i e : py_index xs i = inl e -> e = IndexError.
Proof.
  unfold py_index. destruct (position _ i) as [k|]; [|now intros [= <-]].
  destruct (nth_error xs k); [discriminate|now intros [= <-]].
Qed.

Lemma traverse_error {A B} (f : A -> result B) xs e :
  traverse f xs = inl e -> exists x, f x = inl e.
Proof.
  induction xs as [|x xs IH]; cbn; [discriminate|].
  destruct (f x) as [e0|y] eqn:F; cbn.
  - intros [= <-]. eauto.
  - destruct (traverse f xs) as [e1|rs]; cbn; [|discriminate].
    intros [= <-]. now apply IH.
Qed.

(** X19.  Every class overrides [cdf_i]: whatever the object, the query and
    the index, a [cdf_i] that raises raises [IndexError] or a [ValueError],
    never the not-implemented error of the base class. *)
Theorem cdf_i_raises_index_or_value_error lib f ST i e :
  cdf_i lib f ST i = inl e -> e = IndexError \/ exists msg, e = ValueError msg.
Proof.
  assert (PI : forall A (xs : list A) j e', py_index xs j = inl e' ->
               e' = IndexError \/ exists msg, e' = ValueError msg).
  { intros A xs j e' H. left. eapply py_index_error; eassumption. }
  destruct f as [o|o|o|o|o|o]; cbn.
  - unfold _kumaraswami_rSAS.cdf_i.
    destruct (py_index (_kumaraswami_rSAS.ST_max o) i) eqn:E1; cbn; [intros [= <-]; eauto|].
    destruct (py_index (_kumaraswami_rSAS.ST_min o) i) eqn:E2; cbn; [intros [= <-]; eauto|].
    destruct (py_index (_kumaraswami_rSAS.a o) i) eqn:E3; cbn; [intros [= <-]; eauto|].
    destruct (py_index (_kumaraswami_rSAS.b o) i) eqn:E4; cbn; [intros [= <-]; eauto|].
    discriminate.
  - unfold _uniform_rSAS.cdf_i.
    destruct (py_index (_uniform_rSAS.ST_max o) i) eqn:E1; cbn; [intros [= <-]; eauto|].
    destruct (py_index (_uniform_rSAS.ST_min o) i) eqn:E2; cbn; [intros [= <-]; eauto|].
    destruct (py_index (_uniform_rSAS.lam o) i) eqn:E3; cbn; [intros [= <-]; eauto|].
    discriminate.
  - unfold _invgauss_rSAS.cdf_i.
    destruct (py_index (_invgauss_rSAS.loc o) i) eqn:E1; cbn; [intros [= <-]; eauto|].
    destruct (py_index (_invgauss_rSAS.scale o) i) eqn:E2; cbn; [intros [= <-]; eauto|].
    destruct (py_index (_invgauss_rSAS.mu o) i) eqn:E3; cbn; [intros [= <-]; eauto|].
    destruct (broadcast _ _) eqn:E4; cbn; [|discriminate].
    intros [= <-]. right. unfold broadcast in E4.
    destruct (_ =? _)%nat; [discriminate|].
    destruct (map _ ST) as [|? [|? ?]]; destruct l as [|? [|? ?]]; try discriminate E4;
      injection E4 as <-; eauto.
  - unfold _stats_rSAS.cdf_i.
    destruct (py_index (_stats_rSAS.dist o) i) eqn:E1; cbn; [intros [= <-]; eauto|].
    discriminate.
  - unfold _gamma_rSAS.cdf_i.
    destruct (py_index (_gamma_rSAS.ST_min o) i) eqn:E1; cbn; [intros [= <-]; eauto|].
    destruct (py_index (_gamma_rSAS.ST_max o) i) eqn:E2; cbn; [intros [= <-]; eauto|].
    destruct (py_index (_gamma_rSAS.a o) i) eqn:E3; cbn; [intros [= <-]; eauto|].
    destruct (py_index (_gamma_rSAS.lam o) i) eqn:E4; cbn; [intros [= <-]; eauto|].
    destruct (py_index (_gamma_rSAS.rescale o) i) eqn:E5; cbn; [intros [= <-]; eauto|].
    discriminate.
  - unfold _lookup_rSAS.cdf_i, scipy_interpolate.call.
    destruct (py_index (scipy_interpolate.x (_lookup_rSAS.interp1d o)) 0) eqn:E1; cbn;
      [intros [= <-]; eauto|].
    destruct (py_index (scipy_interpolate.x (_lookup_rSAS.interp1d o)) (-1)) eqn:E2; cbn;
      [intros [= <-]; eauto|].
    destruct (existsb _ _); [intros [= <-]; eauto|].
    destruct (existsb _ _); [intros [= <-]; eauto|].
    intros T. apply traverse_error in T. destruct T as [v T].
    unfold scipy_interpolate._call_linear in T.
    repeat match type of T with
    | context [py_index ?xs ?j] =>
        destruct (py_index xs j) eqn:?; cbn in T; [injection T as <-; eauto|]
    end.
    discriminate.
Qed.

Lemma cdf_i_raises_index_or_value_error_witness :
  cdf_i Table.lib (Uniform uniform_0_10) [5] 3 = inl IndexError /\
  (IndexError = IndexError \/ exists msg, IndexError = ValueError msg).
Proof.
  split; [reflexivity|].
  exact (cdf_i_raises_index_or_value_error Table.lib (Uniform uniform_0_10) [5] 3 IndexError
           eq_refl).
Defined.

(** ** The lookup table that starts at 0 *)

Lemma eqb_zero_SF x : (x =? 0) = true -> exists s, Prim2SF x = S754_zero s.
Proof.
  rewrite eqb_spec, Prim2SF_zero. unfold SFeqb, SFcompare.
  destruct (Prim2SF x) as [s|[]| |[] m e]; try discriminate. eauto.
Qed.

Lemma is_finite_SF x :
  is_finite x = true ->
  (exists s, Prim2SF x = S754_zero s) \/ (exists s m e, Prim2SF x = S754_finite s m e).
Proof.
  unfold is_finite, is_nan, is_infinity. rewrite !eqb_spec, abs_spec, Prim2SF_infinity.
  destruct (Prim2SF x) as [s|[]| |s m e]; cbn; try discriminate; eauto.
Qed.

(** [slope * (0 - x0) + y0] is a zero when [x0] and [y0] are zeros and the
    slope is finite. *)
Lemma segment_value_at_zero slope x0 y0 :
  is_finite slope = true -> (x0 =? 0) = true -> (y0 =? 0) = true ->
  (slope * (0 - x0) + y0 =? 0) = true.
Proof.
  intros F X Y. apply eqb_zero_SF in X, Y. destruct X as [sx X], Y as [sy Y].
  rewrite eqb_spec, add_spec, mul_spec, sub_spec, Prim2SF_zero, X, Y.
  destruct (is_finite_SF slope F) as [[s ->]|(s & m & e & ->)];
    destruct s, sx, sy; reflexivity.
Qed.

Lemma lookup_init_endpoints params o :
  _lookup_rSAS.__init__ params = inr o ->
  _lookup_rSAS.endpoints_ok (_lookup_rSAS.Omega o) = inr true.
Proof.
  unfold _lookup_rSAS.__init__.
  destruct (column 0 params) as [|c0]; [discriminate|].
  destruct (column 1 params) as [|c1]; [discriminate|].
  cbn -[_lookup_rSAS.endpoints_ok].
  destruct (py_index c0 0); [discriminate|].
  destruct (py_index c0 (-1)); [discriminate|].
  cbn -[_lookup_rSAS.endpoints_ok].
  destruct (_lookup_rSAS.endpoints_ok c1) as [|[]] eqn:G; cbn; try discriminate.
  intros [= <-]. exact G.
Qed.

(** A query that no breakpoint is below is answered on the first segment. *)
Lemma call_linear_first_segment s0 s1 S o0 o1 O v :
  scipy_interpolate.np_lt s0 v = false ->
  scipy_interpolate._call_linear
    {| scipy_interpolate.x := s0 :: s1 :: S; scipy_interpolate.y := o0 :: o1 :: O |} v
  = inr ((o1 - o0) / (s1 - s0) * (v - s0) + o0).
Proof.
  intros N. unfold scipy_interpolate._call_linear.
  cbn [scipy_interpolate.x scipy_interpolate.y scipy_interpolate.searchsorted].
  rewrite N. unfold scipy_interpolate.clip.
  replace (Z.min (Z.max (Z.of_nat 0) 1) (Z.of_nat (List.length (s0 :: s1 :: S)) - 1))
    with (Z.of_nat 1) by (cbn [List.length]; lia).
  replace (Z.of_nat 1 - 1)%Z with (Z.of_nat 0) by reflexivity.
  rewrite (py_index_of_nat (s0 :: s1 :: S) 0 s0 eq_refl).
  rewrite (py_index_of_nat (s0 :: s1 :: S) 1 s1 eq_refl).
  rewrite (py_index_of_nat (o0 :: o1 :: O) 0 o0 eq_refl).
  rewrite (py_index_of_nat (o0 :: o1 :: O) 1 o1 eq_refl).
  reflexivity.
Qed.


